(** * dgal: differentiable geometry kernel - shallow embedding and properties

    The C++ sources [geometry.hpp] and [geometry_grad.hpp] are templates over
    a scalar type [scalar_t].  The embedding fixes the scalar type to the
    rationals [Q] with exact arithmetic (equality of scalars is [Qeq],
    written [==]); [uint8_t] values are integers [Z] whose wrap-around is
    written out where an operation can leave the range [0, 256).

    The functions the sources take from [<cmath>] ([hypot], [atan2], [sin],
    [cos]) are parameters of the development.  The results of [atan2] are
    only ever compared with [<], so every function below that uses it is
    generic in the function providing the angle.  Two reference instances,
    [Qatan2] and [Qhypot], are used to run the algorithms on concrete inputs;
    the sweeps return the same results with every angle function that
    orders the directions as [Qatan2] does ([same_order]).

    Division is the total division of [Q] ([x / 0 == 0]); the C++ code
    produces a non-finite value there.  Statements that depend on a quotient
    carry the hypothesis that its denominator is not zero. *)

From Stdlib Require Import QArith Qabs ZArith List Bool Lia Lqa Setoid Morphisms.
Import ListNotations.

Set Implicit Arguments.
Local Open Scope Q_scope.

(** ** Scalars and machine integers *)

Definition Qltb (u v : Q) : bool := negb (Qle_bool v u).

Definition Qgtb (u v : Q) : bool := Qltb v u.

Definition Qleb (u v : Q) : bool := Qle_bool u v.

(** [uint8_t] conversion of an [int] value. *)
Definition to_u8 (i : Z) : Z := (i mod 256)%Z.

(** Numeric precision traits: [Numeric<scalar_t>::eps()]. *)
Class Numeric := { eps : Q }.

Definition Numeric_float : Numeric := {| eps := 3 / 10000000 |}.

Definition Numeric_double : Numeric := {| eps := 6 / 1000000000000000 |}.

(** [_max], [_min], [_mod_inc], [_mod_dec] *)
Definition _max (u v : Q) : Q := if Qgtb u v then u else v.

Definition _min (u v : Q) : Q := if Qltb u v then u else v.

Definition _mod_inc (i n : Z) : Z := if (i <? n - 1)%Z then to_u8 (i + 1) else 0%Z.

Definition _mod_dec (i n : Z) : Z := if (0 <? i)%Z then to_u8 (i - 1) else to_u8 (n - 1).

(** A [for (uint8_t i = lo; i < hi; i++)] loop over a state of type [S]. *)
Fixpoint iter_from (S : Type) (body : Z -> S -> S) (i : Z) (count : nat) (s : S) : S :=
  match count with
  | O => s
  | Datatypes.S k => iter_from body (i + 1)%Z k (body i s)
  end.

Definition for_loop (S : Type) (lo hi : Z) (body : Z -> S -> S) (s : S) : S :=
  iter_from body lo (Z.to_nat (hi - lo)) s.

(** ** Outcomes of calls

    A call returns a value, stops at a failing [assert], or exceeds the
    iteration budget the model gives to a [while] loop. *)

Inductive outcome (A : Type) : Type :=
| Ret (v : A)
| Abort
| Fuel.

Arguments Abort {A}.
Arguments Fuel {A}.

Definition bind (A B : Type) (m : outcome A) (k : A -> outcome B) : outcome B :=
  match m with
  | Ret v => k v
  | Abort => Abort
  | Fuel => Fuel
  end.

Notation "'do' x <- m ; k" := (bind m (fun x => k))
  (at level 10, x pattern, m at level 100, k at level 200).

(** The same loop when the body can fail. *)
Fixpoint iter_from_m (S : Type) (body : Z -> S -> outcome S) (i : Z) (count : nat) (s : S)
    : outcome S :=
  match count with
  | O => Ret s
  | Datatypes.S k => do s' <- body i s; iter_from_m body (i + 1)%Z k s'
  end.

Definition for_loop_m (S : Type) (lo hi : Z) (body : Z -> S -> outcome S) (s : S) : outcome S :=
  iter_from_m body lo (Z.to_nat (hi - lo)) s.

(** ** Data model *)

Module Point2.
Record t : Type := mk { x : Q; y : Q }.
Definition zero : t := mk 0 0.
(** [operator+=] *)
Definition add (p rhs : t) : t := mk (x p + x rhs) (y p + y rhs).
Definition eq (p q : t) : Prop := x p == x q /\ y p == y q.
End Point2.

Module Line2.
Record t : Type := mk { a : Q; b : Q; c : Q }.
Definition zero : t := mk 0 0 0.
Definition eq (l m : t) : Prop := a l == a m /\ b l == b m /\ c l == c m.
End Line2.

Module Segment2.
Record t : Type := mk { x1 : Q; y1 : Q; x2 : Q; y2 : Q }.
Definition zero : t := mk 0 0 0 0.
Definition eq (s r : t) : Prop :=
  x1 s == x1 r /\ y1 s == y1 r /\ x2 s == x2 r /\ y2 s == y2 r.
End Segment2.

Module AABox2.
Record t : Type := mk { min_x : Q; max_x : Q; min_y : Q; max_y : Q }.
Definition zero : t := mk 0 0 0 0.
Definition eq (u v : t) : Prop :=
  min_x u == min_x v /\ max_x u == max_x v /\ min_y u == min_y v /\ max_y u == max_y v.
(** contract: max_x >= min_x, max_y >= min_y *)
Definition wf (u : t) : Prop := min_x u <= max_x u /\ min_y u <= max_y u.
End AABox2.

(** A [Poly2<scalar_t, MaxPoints>]: [vertices] is the whole storage array
  (its length is [MaxPoints]), [nvertices] the number of vertices in use. *)
Module Poly2.
Record t : Type := mk { vertices : list Point2.t; nvertices : Z }.
Definition capacity (p : t) : Z := Z.of_nat (length (vertices p)).
(** A default-constructed polygon of capacity [cap]. *)
Definition empty (cap : nat) : t := mk (repeat Point2.zero cap) 0.
(** [p.vertices[i]]; reading outside the storage yields the zero point. *)
Definition get (p : t) (i : Z) : Point2.t := nth (Z.to_nat i) (vertices p) Point2.zero.
(** Contract: the count fits the storage and the flag encoding. *)
Definition wf (p : t) : Prop := (0 <= nvertices p <= capacity p)%Z /\ (nvertices p <= 128)%Z.
End Poly2.

Notation "p .[ i ]" := (Poly2.get p i) (at level 1, left associativity, format "p .[ i ]").

(** Update of one cell of an array; writing outside the storage leaves it unchanged. *)
Fixpoint list_upd (A : Type) (l : list A) (n : nat) (f : A -> A) : list A :=
  match l, n with
  | [], _ => []
  | v :: r, O => f v :: r
  | v :: r, Datatypes.S k => v :: list_upd r k f
  end.

Definition array_upd (A : Type) (l : list A) (i : Z) (f : A -> A) : list A :=
  if (i <? 0)%Z then l else list_upd l (Z.to_nat i) f.

Definition set_vertex (p : Poly2.t) (i : Z) (v : Point2.t) : Poly2.t :=
  Poly2.mk (array_upd (Poly2.vertices p) i (fun _ => v)) (Poly2.nvertices p).

(** [Poly2::operator=]: copies the count and the vertices in use into a
    polygon of capacity [cap]. *)
Definition poly_assign (cap : nat) (other : Poly2.t) : Poly2.t :=
  for_loop 0 (Poly2.nvertices other)
    (fun i r => set_vertex r i other.[i])
    (Poly2.mk (repeat Point2.zero cap) (Poly2.nvertices other)).

(** ** Constructors *)

(** Calculate cross product (or area) of vector p1->p2 and p2->t *)
Definition _cross (p1 p2 t : Point2.t) : Q :=
  (Point2.x p2 - Point2.x p1) * (Point2.y t - Point2.y p2)
  - (Point2.y p2 - Point2.y p1) * (Point2.x t - Point2.x p2).

Definition line2_from_xyxy (x1 y1 x2 y2 : Q) : Line2.t :=
  Line2.mk (y2 - y1) (x1 - x2) (x2 * y1 - x1 * y2).

Definition line2_from_pp (p1 p2 : Point2.t) : Line2.t :=
  line2_from_xyxy (Point2.x p1) (Point2.y p1) (Point2.x p2) (Point2.y p2).

Definition segment2_from_pp (p1 p2 : Point2.t) : Segment2.t :=
  Segment2.mk (Point2.x p1) (Point2.y p1) (Point2.x p2) (Point2.y p2).

Definition line2_from_segment2 (s : Segment2.t) : Line2.t :=
  line2_from_xyxy (Segment2.x1 s) (Segment2.y1 s) (Segment2.x2 s) (Segment2.y2 s).

Definition Qeqb0 (u : Q) : bool := Qeq_bool u 0.

Definition t_from_pxy (l : Line2.t) (x y : Q) : Q :=
  if Qeqb0 (Line2.b l) then (1 - y) / Line2.a l
  else if Qeqb0 (Line2.a l) then (x - 1) / Line2.b l
  else (Line2.b l * x - Line2.a l * y
        - Line2.a l * (Line2.a l + Line2.c l) / Line2.b l - Line2.b l)
       / (Line2.a l * Line2.a l + Line2.b l * Line2.b l).

Definition t_from_ppoint (l : Line2.t) (p : Point2.t) : Q :=
  t_from_pxy l (Point2.x p) (Point2.y p).

(** Return the point on line l represented by single parameter t *)
Definition point_from_t (l : Line2.t) (t : Q) : Point2.t :=
  if Qeqb0 (Line2.b l) then Point2.mk (Line2.c l / Line2.a l) (1 - t * Line2.a l)
  else Point2.mk (1 + t * Line2.b l) (- (Line2.a l + Line2.c l) / Line2.b l - t * Line2.a l).

(** convert AABox2 to a polygon (box) *)
Definition poly2_from_aabox2 (a : AABox2.t) : Poly2.t :=
  let p1 := Point2.mk (AABox2.min_x a) (AABox2.min_y a) in
  let p2 := Point2.mk (AABox2.max_x a) (AABox2.min_y a) in
  let p3 := Point2.mk (AABox2.max_x a) (AABox2.max_y a) in
  let p4 := Point2.mk (AABox2.min_x a) (AABox2.max_y a) in
  Poly2.mk [p1; p2; p3; p4] 4.

(** calculate bounding box of a polygon *)
Definition aabox2_from_poly2 (p : Poly2.t) : AABox2.t :=
  for_loop 1 (Poly2.nvertices p)
    (fun i result =>
       AABox2.mk (_min (Point2.x p.[i]) (AABox2.min_x result))
                 (_max (Point2.x p.[i]) (AABox2.max_x result))
                 (_min (Point2.y p.[i]) (AABox2.min_y result))
                 (_max (Point2.y p.[i]) (AABox2.max_y result)))
    (AABox2.mk (Point2.x p.[0]) (Point2.x p.[0]) (Point2.y p.[0]) (Point2.y p.[0])).

(** Create a polygon from box parameters (x, y, width, height, rotation) *)
Definition poly2_from_xywhr (sin cos : Q -> Q) (x y w h r : Q) : Poly2.t :=
  let dxsin := w * sin r / 2 in
  let dxcos := w * cos r / 2 in
  let dysin := h * sin r / 2 in
  let dycos := h * cos r / 2 in
  let p0 := Point2.mk (x - dxcos + dysin) (y - dxsin - dycos) in
  let p1 := Point2.mk (x + dxcos + dysin) (y + dxsin - dycos) in
  let p2 := Point2.mk (x + dxcos - dysin) (y + dxsin + dycos) in
  let p3 := Point2.mk (x - dxcos - dysin) (y - dxsin + dycos) in
  Poly2.mk [p0; p1; p2; p3] 4.

(** Calculate inner area of a polygon *)
Definition area (p : Poly2.t) : Q :=
  let n := Poly2.nvertices p in
  if (n <=? 2)%Z then 0
  else
    let sum0 := Point2.x p.[n - 1] * Point2.y p.[0] - Point2.y p.[n - 1] * Point2.x p.[0] in
    for_loop 1 n
      (fun i sum => sum + (Point2.x p.[i - 1] * Point2.y p.[i] - Point2.x p.[i] * Point2.y p.[i - 1]))
      sum0 / 2.

(** ** Member functions of the structures *)

(** [Line2::intersects] *)
Definition Line2_intersects {num : Numeric} (l m : Line2.t) : bool :=
  Qgtb (Qabs (Line2.a l * Line2.b m - Line2.a m * Line2.b l)) eps.

(** [AABox2::contains(const Point2&)] *)
Definition AABox2_contains_point (u : AABox2.t) (p : Point2.t) : bool :=
  Qgtb (Point2.x p) (AABox2.min_x u) && Qltb (Point2.x p) (AABox2.max_x u)
  && Qgtb (Point2.y p) (AABox2.min_y u) && Qltb (Point2.y p) (AABox2.max_y u).

(** [AABox2::contains(const AABox2&)] *)
Definition AABox2_contains (u a : AABox2.t) : bool :=
  Qgtb (AABox2.max_x u) (AABox2.max_x a) && Qltb (AABox2.min_x u) (AABox2.min_x a)
  && Qgtb (AABox2.max_y u) (AABox2.max_y a) && Qltb (AABox2.min_y u) (AABox2.min_y a).

(** [AABox2::intersects] *)
Definition AABox2_intersects (u a : AABox2.t) : bool :=
  Qgtb (AABox2.max_x u) (AABox2.min_x a) && Qltb (AABox2.min_x u) (AABox2.max_x a)
  && Qgtb (AABox2.max_y u) (AABox2.min_y a) && Qltb (AABox2.min_y u) (AABox2.max_y a).

(** [Poly2::contains]: the loop leaves with [false] at the first edge that
    has the point strictly on its right; [ok] records that it has not
    left.  With [nvertices = 0] the first test reads [vertices[-1]], which
    is outside the storage. *)
Definition Poly2_contains (p : Poly2.t) (t : Point2.t) : bool :=
  let n := Poly2.nvertices p in
  if Qltb (_cross p.[n - 1] p.[0] t) 0 then false
  else
    for_loop 1 n
      (fun i (ok : bool) => if ok then negb (Qltb (_cross p.[i - 1] p.[i] t) 0) else false)
      true.

(** ** Reference instances of the [<cmath>] functions

    [Qatan2 y x] is increasing in the angle [atan2(y, x)] on (-pi, pi]: it
    maps the angle to (-2, 2], so that [Qpi = 2] plays the role of [_pi]. *)

Definition Qatan2 (y x : Q) : Q :=
  if Qeqb0 x && Qeqb0 y then 0
  else
    let s := Qabs x + Qabs y in
    if Qleb 0 y then (if Qleb 0 x then y / s else 2 - y / s)
    else (if Qleb 0 x then y / s else - (2) - y / s).

Definition Qpi : Q := 2.

(** [Qsqrt] is exact on squares of rationals and is otherwise a lower
    approximation to fifteen decimal places of the denominator-scaled root. *)
Definition Qsqrt (u : Q) : Q :=
  let n := (Qnum u * QDen u)%Z in
  let k := (10 ^ 15)%Z in
  Qmake (Z.sqrt (n * k * k)) (Qden u * Z.to_pos k).

Definition Qhypot (u v : Q) : Q := Qsqrt (u * u + v * v).

(** ** Forward functions *)

Section Forward.

Context {num : Numeric}.
Variable hypot : Q -> Q -> Q.
Variable atan2 : Q -> Q -> Q.
Variable _pi : Q.

Definition distance_pp (p1 p2 : Point2.t) : Q :=
  hypot (Point2.x p1 - Point2.x p2) (Point2.y p1 - Point2.y p2).

(** Calculate signed distance from point p to the line *)
Definition distance_lp (l : Line2.t) (p : Point2.t) : Q :=
  (Line2.a l * Point2.x p + Line2.b l * Point2.y p + Line2.c l) / hypot (Line2.a l) (Line2.b l).

(** Calculate signed distance from point p to the segment s *)
Definition distance_sp (s : Segment2.t) (p : Point2.t) : Q :=
  let l := line2_from_segment2 s in
  let t := t_from_ppoint l p in
  let sign := Line2.a l * Point2.x p + Line2.b l * Point2.y p + Line2.c l in
  if Qltb t (t_from_pxy l (Segment2.x2 s) (Segment2.y2 s)) then
    let p2 := Point2.mk (Segment2.x2 s) (Segment2.y2 s) in
    let d := distance_pp p p2 in
    if Qgtb sign 0 then d else - d
  else if Qgtb t (t_from_pxy l (Segment2.x1 s) (Segment2.y1 s)) then
    let p1 := Point2.mk (Segment2.x1 s) (Segment2.y1 s) in
    let d := distance_pp p p1 in
    if Qgtb sign 0 then d else - d
  else sign / hypot (Line2.a l) (Line2.b l).

(** Calculate signed distance from point p to the polygon poly; the second
    component is [idx]. *)
Definition distance_poly (poly : Poly2.t) (p : Point2.t) : Q * Z :=
  let n := Poly2.nvertices poly in
  for_loop 1 n
    (fun i st =>
       let dl := - distance_sp (segment2_from_pp poly.[i - 1] poly.[i]) p in
       if Qltb (Qabs dl) (Qabs (fst st)) then (dl, to_u8 (i - 1)) else st)
    (- distance_sp (segment2_from_pp poly.[n - 1] poly.[0]) p, to_u8 (n - 1)).

(** Calculate intersection point of two lines *)
Definition intersect_ll (l1 l2 : Line2.t) : Point2.t :=
  let w := Line2.a l1 * Line2.b l2 - Line2.a l2 * Line2.b l1 in
  Point2.mk ((Line2.b l1 * Line2.c l2 - Line2.b l2 * Line2.c l1) / w)
            ((Line2.c l1 * Line2.a l2 - Line2.c l2 * Line2.a l1) / w).

Definition intersect_aabox (a1 a2 : AABox2.t) : AABox2.t :=
  if Qleb (AABox2.max_x a1) (AABox2.min_x a2) || Qleb (AABox2.max_x a2) (AABox2.min_x a1)
     || Qleb (AABox2.max_y a1) (AABox2.min_y a2) || Qleb (AABox2.max_y a2) (AABox2.min_y a1)
  then AABox2.mk 0 0 0 0
  else AABox2.mk (_max (AABox2.min_x a1) (AABox2.min_x a2))
                 (_min (AABox2.max_x a1) (AABox2.max_x a2))
                 (_max (AABox2.min_y a1) (AABox2.min_y a2))
                 (_min (AABox2.max_y a1) (AABox2.max_y a2)).

(** One of the two inner walks of [_find_intersection_under_bridge]: the
    index [i] advances by [step] while the cross product [probe (step i)]
    stays below [-eps] without decreasing.  [last] is [None] for minus
    infinity.  The result is [None] when the function returns [false], and
    the index reached together with the [finished] flag otherwise. *)
Fixpoint bridge_walk (fuel : nat) (probe : Z -> Q) (step : Z -> Z)
    (i : Z) (last : option Q) (finished : bool) : outcome (option (Z * bool)) :=
  match fuel with
  | O => Fuel
  | S fuel' =>
      let dist := probe (step i) in
      if match last with Some l => Qltb dist l | None => false end then Ret None
      else if Qgtb dist (- eps) then Ret (Some (i, finished))
      else bridge_walk fuel' probe step (step i) (Some dist) false
  end.

(** Find the intersection point under a bridge over two convex polygons *)
Fixpoint _find_intersection_under_bridge_loop (fuel : nat) (p1 p2 : Poly2.t) (i1 i2 : Z)
    : outcome (option (Z * Z)) :=
  match fuel with
  | O => Fuel
  | S fuel' =>
      let n1 := Poly2.nvertices p1 in
      let n2 := Poly2.nvertices p2 in
      let p1a := p1.[_mod_dec i1 n1] in
      let p1b := p1.[i1] in
      do r2 <- bridge_walk (S (Z.to_nat n2)) (fun k => _cross p1a p1b p2.[k])
                 (fun k => _mod_inc k n2) i2 None true;
      match r2 with
      | None => Ret None
      | Some (i2', fin) =>
          let p2a := p2.[i2'] in
          let p2b := p2.[_mod_inc i2' n2] in
          do r1 <- bridge_walk (S (Z.to_nat n1)) (fun k => _cross p2a p2b p1.[k])
                     (fun k => _mod_dec k n1) i1 None fin;
          match r1 with
          | None => Ret None
          | Some (i1', fin') =>
              if fin' then Ret (Some (_mod_dec i1' n1, i2'))
              else _find_intersection_under_bridge_loop fuel' p1 p2 i1' i2'
          end
      end
  end.

(** The outer loop is given one iteration per pair of indices (and one per
    vertex): a run that makes more iterations starts two of them at the
    same pair [(i1, i2)] and never ends.  An inner walk is given one
    iteration per vertex: a walk that makes more has come back to its first
    vertex with the same cross product and never ends either. *)
Definition _find_intersection_under_bridge (p1 p2 : Poly2.t) (idx1 idx2 : Z)
    : outcome (option (Z * Z)) :=
  let n1 := Poly2.nvertices p1 in
  let n2 := Poly2.nvertices p2 in
  _find_intersection_under_bridge_loop
    (S (Z.to_nat (n1 * n2 + n1 + n2))) p1 p2 idx1 idx2.

(** Find the extreme vertex in a polygon ([TopRight = true]) *)
Definition _find_extreme (p : Poly2.t) : Z * Q :=
  for_loop 1 (Poly2.nvertices p)
    (fun i st => if Qgtb (Point2.y p.[i]) (snd st) then (i, Point2.y p.[i]) else st)
    (0%Z, Point2.y p.[0]).

(** Calculate slope angle from p1 to p2 *)
Definition _slope_pp (p1 p2 : Point2.t) : Q :=
  atan2 (Point2.y p2 - Point2.y p1 - eps) (Point2.x p2 - Point2.x p1).

(** One sign test of [_check_valid_bridge] on the pair [(found, reverse)];
    [None] is the early [return false]. *)
Definition bridge_test (d : Q) (st : bool * bool) : option (bool * bool) :=
  let (found, reverse) := st in
  if Qgtb (Qabs d) eps then
    if found then
      if negb (Bool.eqb reverse (Qltb d 0)) then None else Some st
    else Some (true, Qltb d 0)
  else Some st.

(** check if the bridge defined between two polygon (from p1 to p2) is valid.
    The result is the returned flag paired with [reverse]; [reverse] is
    meaningful only when the flag is [true]. *)
Definition _check_valid_bridge (p1 p2 : Poly2.t) (idx1 idx2 : Z) : outcome (bool * bool) :=
  let n1 := Poly2.nvertices p1 in
  let n2 := Poly2.nvertices p2 in
  let d1 := _cross p1.[idx1] p2.[idx2] p1.[_mod_dec idx1 n1] in
  let d2 := _cross p1.[idx1] p2.[idx2] p1.[_mod_inc idx1 n1] in
  let d3 := _cross p1.[idx1] p2.[idx2] p2.[_mod_dec idx2 n2] in
  let d4 := _cross p1.[idx1] p2.[idx2] p2.[_mod_inc idx2 n2] in
  match bridge_test d1 (false, false) with
  | None => Ret (false, false)
  | Some s1 =>
    match bridge_test d2 s1 with
    | None => Ret (false, snd s1)
    | Some s2 =>
      match bridge_test d3 s2 with
      | None => Ret (false, snd s2)
      | Some s3 =>
        match bridge_test d4 s3 with
        | None => Ret (false, snd s3)
        | Some (found, reverse) => if found then Ret (true, reverse) else Abort
        end
      end
    end
  end.


(** *** Rotating-caliper intersection *)

(** How the angular sweep of the rotating-caliper intersection ends: with the
    early [return {}], or after the last pair with the first [edge_flag] and
    the crossing edges [x1indices], [x2indices] of the accepted bridges. *)
Inductive sweep_end : Type :=
| SweepEmpty
| SweepDone (edge_flag : bool) (x1indices x2indices : list Z).

(** The crossing under an accepted bridge at [(i1, i2)]: the pair of edge
    indices on [p1] and on [p2], or [None] when there is no intersection. *)
Definition bridge_crossing (p1 p2 : Poly2.t) (reverse : bool) (i1 i2 : Z)
    : outcome (option (Z * Z)) :=
  if reverse then _find_intersection_under_bridge p1 p2 i1 i2
  else
    do r <- _find_intersection_under_bridge p2 p1 i2 i1;
    Ret (match r with Some (xb, xa) => Some (xa, xb) | None => None end).

Fixpoint intersect_sweep (fuel : nat) (p1 p2 : Poly2.t) (pidx1 pidx2 : Z) (edge_angle : Q)
    (edge_flag : bool) (x1indices x2indices : list Z) : outcome sweep_end :=
  match fuel with
  | O => Fuel
  | S fuel' =>
      let pidx1_next := _mod_inc pidx1 (Poly2.nvertices p1) in
      let pidx2_next := _mod_inc pidx2 (Poly2.nvertices p2) in
      let angle1 := _slope_pp p1.[pidx1] p1.[pidx1_next] in
      let angle2 := _slope_pp p2.[pidx2] p2.[pidx2_next] in
      let visit (i1 i2 : Z) (k : bool -> list Z -> list Z -> outcome sweep_end) :=
        do chk <- _check_valid_bridge p1 p2 i1 i2;
        let (valid, reverse) := chk in
        if valid then
          do r <- bridge_crossing p1 p2 reverse i1 i2;
          match r with
          | None => Ret SweepEmpty
          | Some (xa, xb) =>
              k (match x1indices with [] => negb reverse | _ => edge_flag end)
                (x1indices ++ [xa]) (x2indices ++ [xb])
          end
        else k edge_flag x1indices x2indices in
      if Qltb edge_angle angle1 && (Qltb angle1 angle2 || Qltb angle2 edge_angle) then
        visit pidx1_next pidx2
          (fun fl xs1 xs2 => intersect_sweep fuel' p1 p2 pidx1_next pidx2 angle1 fl xs1 xs2)
      else if Qltb edge_angle angle2 && (Qltb angle2 angle1 || Qltb angle1 edge_angle) then
        visit pidx1 pidx2_next
          (fun fl xs1 xs2 => intersect_sweep fuel' p1 p2 pidx1 pidx2_next angle2 fl xs1 xs2)
      else Ret (SweepDone edge_flag x1indices x2indices)
  end.

(** The iteration budget of a sweep: the edge angle increases with every
    step, so a sweep makes at most one step per edge (see
    [intersect_sweep_enough] and [merge_sweep_enough]). *)
Definition sweep_fuel (p1 p2 : Poly2.t) : nat :=
  S (S (S (Z.to_nat (Poly2.nvertices p1 + Poly2.nvertices p2)))).

(** A polygon under construction together with its flag array:
    [flags[result.nvertices] = f; result.vertices[result.nvertices++] = v],
    followed by [assert(result.nvertices <= MaxPoints1 + MaxPoints2)]. *)
Definition push_vertex (st : Poly2.t * list Z) (f : Z) (v : Point2.t) : outcome (Poly2.t * list Z) :=
  let (result, flags) := st in
  let n := Poly2.nvertices result in
  if (to_u8 (n + 1) <=? Poly2.capacity result)%Z then
    Ret (Poly2.mk (array_upd (Poly2.vertices result) n (fun _ => v)) (to_u8 (n + 1)),
         flags ++ [f])
  else Abort.

(** [for (uint8_t j = lo; j <= hi; j++)] copying the vertices of [p] between
    two crossings; [low] is the low bit of the flags.  With [hi = 255] the
    counter wraps and the loop runs into the capacity assertion. *)
Fixpoint copy_between (count : nat) (p : Poly2.t) (low : Z) (j : Z) (st : Poly2.t * list Z)
    : outcome (Poly2.t * list Z) :=
  match count with
  | O => Ret st
  | S k =>
      let n := Poly2.nvertices p in
      let jmod := if (j <? n)%Z then j else to_u8 (j - n) in
      do st' <- push_vertex st (to_u8 (Z.lor (Z.shiftl jmod 1) low)) p.[jmod];
      copy_between k p low (j + 1)%Z st'
  end.

Definition copy_range (p : Poly2.t) (low : Z) (lo hi : Z) (st : Poly2.t * list Z)
    : outcome (Poly2.t * list Z) :=
  if (hi =? 255)%Z then (if (lo <=? hi)%Z then Abort else Ret st)
  else copy_between (Z.to_nat (hi + 1 - lo)) p low lo st.

(** The loop over the intersections that constructs the result polygon. *)
Fixpoint intersect_stitch (p1 p2 : Poly2.t) (edge_flag : bool) (x1 x2 : list Z)
    (first1 first2 : Z) (st : Poly2.t * list Z) : outcome (Poly2.t * list Z) :=
  match x1, x2 with
  | xa :: x1', xb :: x2' =>
      let n1 := Poly2.nvertices p1 in
      let n2 := Poly2.nvertices p2 in
      let l1 := line2_from_pp p1.[xa] p1.[_mod_inc xa n1] in
      let l2 := line2_from_pp p2.[xb] p2.[_mod_inc xb n2] in
      let xflag := if edge_flag then to_u8 (Z.lor (Z.shiftl xa 1) 1) else to_u8 (Z.shiftl xb 1) in
      do st1 <- push_vertex st xflag (intersect_ll l1 l2);
      let xa_next := match x1' with [] => first1 | v :: _ => v end in
      let xb_next := match x2' with [] => first2 | v :: _ => v end in
      do st2 <-
        (if edge_flag then
           let idx_next := if (xa <=? xa_next)%Z then xa_next else to_u8 (xa_next + n1) in
           copy_range p1 1 (to_u8 (xa + 1)) idx_next st1
         else
           let idx_next := if (xb <=? xb_next)%Z then xb_next else to_u8 (xb_next + n2) in
           copy_range p2 0 (to_u8 (xb + 1)) idx_next st1);
      intersect_stitch p1 p2 (negb edge_flag) x1' x2' first1 first2 st2
  | _, _ => Ret st
  end.

(** The flags written when an operand is returned verbatim. *)
Definition verbatim_flags (n : Z) (low : Z) : list Z :=
  for_loop 0 n (fun i fl => fl ++ [to_u8 (Z.lor (Z.shiftl i 1) low)]) [].

(** [result = p]: [Poly2::operator=] with its capacity assertion. *)
Definition assign_result (cap : nat) (p : Poly2.t) : outcome Poly2.t :=
  if (Poly2.nvertices p <=? Z.of_nat cap)%Z then Ret (poly_assign cap p) else Abort.

(** Rotating Caliper implementation of intersecting.  The result polygon has
    capacity [MaxPoints1 + MaxPoints2]; the second component is the content
    of [xflags]. *)
Definition intersect_RotatingCaliper (p1 p2 : Poly2.t) : outcome (Poly2.t * list Z) :=
  let cap := (length (Poly2.vertices p1) + length (Poly2.vertices p2))%nat in
  let pidx1 := fst (_find_extreme p1) in
  let pidx2 := fst (_find_extreme p2) in
  do sw <- intersect_sweep (sweep_fuel p1 p2) p1 p2 pidx1 pidx2 (- _pi) false [] [];
  match sw with
  | SweepEmpty => Ret (Poly2.empty cap, [])
  | SweepDone edge_flag x1indices x2indices =>
      match x1indices, x2indices with
      | f1 :: _, f2 :: _ =>
          intersect_stitch p1 p2 edge_flag x1indices x2indices f1 f2 (Poly2.empty cap, [])
      | _, _ =>
          if Qgtb (area p1) (area p2) then
            do r <- assign_result cap p2; Ret (r, verbatim_flags (Poly2.nvertices p2) 0)
          else
            do r <- assign_result cap p1; Ret (r, verbatim_flags (Poly2.nvertices p1) 1)
      end
  end.

(** *** Sutherland-Hodgeman intersection *)

(** Clipping of [pcut] (given as the list of its vertices paired with their
    flags) against the edge [j] of [p2]. *)
Definition clip_edge (p2 : Poly2.t) (j : Z) (pcut : list (Point2.t * Z)) : list (Point2.t * Z) :=
  let jnext := _mod_inc j (Poly2.nvertices p2) in
  let edge := line2_from_pp p2.[j] p2.[jnext] in
  let n := Z.of_nat (length pcut) in
  let vert (i : Z) := fst (nth (Z.to_nat i) pcut (Point2.zero, 0%Z)) in
  let flag (i : Z) := snd (nth (Z.to_nat i) pcut (Point2.zero, 0%Z)) in
  let signs (i : Z) := distance_lp edge (vert i) in
  for_loop 0 n
    (fun i pcur =>
       let pcur1 := if Qltb (signs i) eps then pcur ++ [(vert i, flag i)] else pcur in
       let inext := _mod_inc i n in
       if Qltb (signs i * signs inext) (- eps) then
         let cut := line2_from_pp (vert i) (vert inext) in
         pcur1 ++ [(intersect_ll edge cut,
                    if Qltb (signs i) (- eps) then to_u8 (Z.shiftl j 1) else flag i)]
       else pcur1)
    [].

(** A polygon of capacity [cap] holding the vertices [l]. *)
Definition poly_of_list (cap : nat) (l : list Point2.t) : Poly2.t :=
  Poly2.mk (l ++ repeat Point2.zero (cap - length l)) (Z.of_nat (length l)).

Definition intersect_SutherlandHodgeman (p1 p2 : Poly2.t) : outcome (Poly2.t * list Z) :=
  let cap := (length (Poly2.vertices p1) + length (Poly2.vertices p2))%nat in
  if (Poly2.nvertices p1 <=? Z.of_nat cap)%Z then
    let start := for_loop 0 (Poly2.nvertices p1)
                   (fun i l => l ++ [(p1.[i], to_u8 (Z.lor (Z.shiftl i 1) 1))]) [] in
    let pcut := for_loop 0 (Poly2.nvertices p2) (fun j cut => clip_edge p2 j cut) start in
    Ret (poly_of_list cap (map fst pcut), map snd pcut)
  else Abort.

(** default implementation *)
Definition intersect (p1 p2 : Poly2.t) : outcome (Poly2.t * list Z) :=
  intersect_RotatingCaliper p1 p2.


(** *** Scalar metrics *)

Definition area_aabox (a : AABox2.t) : Q :=
  (AABox2.max_x a - AABox2.min_x a) * (AABox2.max_y a - AABox2.min_y a).

Definition dimension_aabox (a : AABox2.t) : Q :=
  hypot (AABox2.max_x a - AABox2.min_x a) (AABox2.max_y a - AABox2.min_y a).

(** The inner [while] of [dimension]: advance [v] to the vertex farthest
    from the edge [(u, unext)]. *)
Fixpoint dimension_advance (fuel : nat) (p : Poly2.t) (u unext v vnext : Z) : outcome (Z * Z) :=
  match fuel with
  | O => Fuel
  | S fuel' =>
      if Qleb (_cross p.[u] p.[unext] p.[v]) (_cross p.[u] p.[unext] p.[vnext])
      then dimension_advance fuel' p u unext vnext (_mod_inc vnext (Poly2.nvertices p))
      else Ret (v, vnext)
  end.

(** The state of the caliper loop of [dimension]. *)
Record caliper : Type :=
  mkCaliper { cal_v : Z; cal_vnext : Z; cal_dmax : Q; cal_flag1 : Z; cal_flag2 : Z }.

(** use Rotating Caliper to find the dimension; [flag1] and [flag2] are the
    values the two output references hold before the call. *)
Definition dimension (p : Poly2.t) (flag1 flag2 : Z) : outcome (Q * Z * Z) :=
  let n := Poly2.nvertices p in
  if (n <=? 1)%Z then Ret (0, flag1, flag2)
  else if (n =? 2)%Z then Ret (distance_pp p.[0] p.[1], 0%Z, 1%Z)
  else
    do st <- for_loop_m 0 n
      (fun u st =>
         let unext := _mod_inc u n in
         do vv <- dimension_advance (S (Z.to_nat n)) p u unext (cal_v st) (cal_vnext st);
         let (v, vnext) := vv in
         let d := distance_pp p.[u] p.[v] in
         let st1 := if Qgtb d (cal_dmax st)
                    then mkCaliper v vnext d u v
                    else mkCaliper v vnext (cal_dmax st) (cal_flag1 st) (cal_flag2 st) in
         let d' := distance_pp p.[unext] p.[v] in
         Ret (if Qgtb d' (cal_dmax st1)
              then mkCaliper v vnext d' unext v
              else st1))
      (mkCaliper 1 2 0 flag1 flag2);
    Ret (cal_dmax st, cal_flag1 st, cal_flag2 st).

Definition center_aabox (a : AABox2.t) : Point2.t :=
  Point2.mk ((AABox2.max_x a + AABox2.min_x a) / 2) ((AABox2.max_y a + AABox2.min_y a) / 2).

Definition center (p : Poly2.t) : Point2.t := center_aabox (aabox2_from_poly2 p).

Definition centroid_aabox (a : AABox2.t) : Point2.t := center_aabox a.

Definition centroid (p : Poly2.t) : Point2.t :=
  let result := for_loop 0 (Poly2.nvertices p) (fun i r => Point2.add r p.[i]) Point2.zero in
  Point2.mk (Point2.x result / inject_Z (Poly2.nvertices p))
            (Point2.y result / inject_Z (Poly2.nvertices p)).

(** *** Convex-hull merge *)

(** The hull under construction with the writes into [mflags] in program
    order, each as the pair of the index written and the flag. *)
Definition hull : Type := (Poly2.t * list (Z * Z))%type.

Definition register_p1point (p1 : Poly2.t) (i1 : Z) (h : hull) : hull :=
  let (result, writes) := h in
  let n := Poly2.nvertices result in
  (Poly2.mk (array_upd (Poly2.vertices result) n (fun _ => p1.[i1])) (to_u8 (n + 1)),
   writes ++ [(n, to_u8 (Z.lor (Z.shiftl i1 1) 1))]).

Definition register_p2point (p2 : Poly2.t) (i2 : Z) (h : hull) : hull :=
  let (result, writes) := h in
  let n := Poly2.nvertices result in
  (Poly2.mk (array_upd (Poly2.vertices result) n (fun _ => p2.[i2])) (to_u8 (n + 1)),
   writes ++ [(n, to_u8 (Z.shiftl i2 1))]).

Definition register_point (p1 p2 : Poly2.t) (edge_flag : bool) (i1 i2 : Z) (h : hull) : hull :=
  if edge_flag then register_p1point p1 i1 h else register_p2point p2 i2 h.

Fixpoint merge_sweep (fuel : nat) (p1 p2 : Poly2.t) (pidx1 pidx2 : Z) (edge_angle : Q)
    (edge_flag : bool) (h : hull) : outcome hull :=
  match fuel with
  | O => Fuel
  | S fuel' =>
      let pidx1_next := _mod_inc pidx1 (Poly2.nvertices p1) in
      let pidx2_next := _mod_inc pidx2 (Poly2.nvertices p2) in
      let angle1 := _slope_pp p1.[pidx1] p1.[pidx1_next] in
      let angle2 := _slope_pp p2.[pidx2] p2.[pidx2_next] in
      if Qltb edge_angle angle1 && (Qltb angle1 angle2 || Qltb angle2 edge_angle) then
        let h1 := if edge_flag then register_p1point p1 pidx1 h else h in
        do chk <- _check_valid_bridge p1 p2 pidx1_next pidx2;
        if fst chk then
          merge_sweep fuel' p1 p2 pidx1_next pidx2 angle1 (negb edge_flag)
            (register_point p1 p2 edge_flag pidx1_next pidx2 h1)
        else merge_sweep fuel' p1 p2 pidx1_next pidx2 angle1 edge_flag h1
      else if Qltb edge_angle angle2 && (Qltb angle2 angle1 || Qltb angle1 edge_angle) then
        let h1 := if edge_flag then h else register_p2point p2 pidx2 h in
        do chk <- _check_valid_bridge p1 p2 pidx1 pidx2_next;
        if fst chk then
          merge_sweep fuel' p1 p2 pidx1 pidx2_next angle2 (negb edge_flag)
            (register_point p1 p2 edge_flag pidx1 pidx2_next h1)
        else merge_sweep fuel' p1 p2 pidx1 pidx2_next angle2 edge_flag h1
      else Ret h
  end.

(** use Rotating Caliper to find the convex hull of two polygons *)
Definition merge (p1 p2 : Poly2.t) : outcome hull :=
  let cap := (length (Poly2.vertices p1) + length (Poly2.vertices p2))%nat in
  let (pidx1, y_max1) := _find_extreme p1 in
  let (pidx2, y_max2) := _find_extreme p2 in
  let edge_flag := Qgtb y_max1 y_max2 in
  do chk <- _check_valid_bridge p1 p2 pidx1 pidx2;
  let edge_flag' :=
    if fst chk then
      if edge_flag then
        let pidx1_next := _mod_inc pidx1 (Poly2.nvertices p1) in
        let angle_br := _slope_pp p1.[pidx1] p2.[pidx2] in
        let angle1 := _slope_pp p1.[pidx1] p1.[pidx1_next] in
        if Qltb angle_br angle1 then false else edge_flag
      else
        let pidx2_next := _mod_inc pidx2 (Poly2.nvertices p2) in
        let angle_br := _slope_pp p2.[pidx2] p1.[pidx1] in
        let angle2 := _slope_pp p2.[pidx2] p2.[pidx2_next] in
        if Qltb angle_br angle2 then true else edge_flag
    else edge_flag in
  merge_sweep (sweep_fuel p1 p2) p1 p2 pidx1 pidx2 (- _pi) edge_flag' (Poly2.empty cap, []).

Definition merge_aabox (a1 a2 : AABox2.t) : AABox2.t :=
  AABox2.mk (_min (AABox2.min_x a1) (AABox2.min_x a2))
            (_max (AABox2.max_x a1) (AABox2.max_x a2))
            (_min (AABox2.min_y a1) (AABox2.min_y a2))
            (_max (AABox2.max_y a1) (AABox2.max_y a2)).

(** *** Composite overlap metrics *)

Definition iou_aabox (a1 a2 : AABox2.t) : Q :=
  let area_i := area_aabox (intersect_aabox a1 a2) in
  let area_u := area_aabox a1 + area_aabox a2 - area_i in
  area_i / area_u.

(** calculating iou of two polygons; the result carries [nx] and [xflags]. *)
Definition iou (p1 p2 : Poly2.t) : outcome (Q * Z * list Z) :=
  do r <- intersect p1 p2;
  let (pi, xflags) := r in
  let area_i := area pi in
  let area_u := area p1 + area p2 - area_i in
  Ret (area_i / area_u, Poly2.nvertices pi, xflags).

Definition giou_aabox (a1 a2 : AABox2.t) : Q :=
  let area_i := area_aabox (intersect_aabox a1 a2) in
  let area_m := area_aabox (merge_aabox a1 a2) in
  let area_u := area_aabox a1 + area_aabox a2 - area_i in
  area_i / area_u + area_u / area_m - 1.

(** The content of a flag array of [size] bytes after the [writes]; a write
    outside the array is dropped here, and is what [mflags_accesses]
    records. *)
Definition flags_buffer (size : nat) (writes : list (Z * Z)) : list Z :=
  fold_left (fun buf w => array_upd buf (fst w) (fun _ => snd w)) writes (repeat 0%Z size).

Definition giou (p1 p2 : Poly2.t) : outcome (Q * Z * Z * list Z * list Z) :=
  let cap := (length (Poly2.vertices p1) + length (Poly2.vertices p2))%nat in
  do r <- intersect p1 p2;
  let (pi, xflags) := r in
  do h <- merge p1 p2;
  let (pm, writes) := h in
  let area_i := area pi in
  let area_m := area pm in
  let area_u := area p1 + area p2 - area_i in
  Ret (area_i / area_u + area_u / area_m - 1,
       Poly2.nvertices pi, Poly2.nvertices pm, xflags, flags_buffer cap writes).


(** The result of [diou]: the value with [nx], [dflag1], [dflag2] and
    [xflags].  The local array is [uint8_t mflags[8]]. *)
Definition diou (p1 p2 : Poly2.t) : outcome (Q * Z * Z * Z * list Z) :=
  do r <- iou p1 p2;
  let '(piou, nx, xflags) := r in
  let cd := distance_pp (centroid p1) (centroid p2) in
  do h <- merge p1 p2;
  let (pm, writes) := h in
  do d <- dimension pm 0 0;
  let '(maxd, idx1, idx2) := d in
  let mflags := flags_buffer 8 writes in
  Ret (piou - (cd * cd) / (maxd * maxd), nx,
       nth (Z.to_nat idx1) mflags 0%Z, nth (Z.to_nat idx2) mflags 0%Z, xflags).

(** The indices at which [diou] accesses its local array [mflags]: the writes
    of the [merge] call it passes the array to, then the two reads. *)
Definition diou_mflags_accesses (p1 p2 : Poly2.t) : outcome (list Z) :=
  do h <- merge p1 p2;
  let (pm, writes) := h in
  do d <- dimension pm 0 0;
  let '(_, idx1, idx2) := d in
  Ret (map fst writes ++ [idx1; idx2]).

End Forward.

(** ** Adjoint functions

    An adjoint function writes into gradient accumulators passed by
    reference, and several accumulators can be cells of one object.  A
    reference of type [ref S A] modifies a cell of type [A] inside a store
    [S]; an adjoint function is a store transformer [S -> S]. *)

Definition ref (S A : Type) : Type := (A -> A) -> S -> S.

(** Sequencing of two store transformers. *)
Definition seq2 (S : Type) (F G : S -> S) : S -> S := fun s => G (F s).

Definition skip (S : Type) : S -> S := fun s => s.

(** [r += e] and [r -= e] on scalars, [r += e] on points. *)
Definition incr (S : Type) (r : ref S Q) (e : Q) : S -> S := r (fun v => v + e).

Definition decr (S : Type) (r : ref S Q) (e : Q) : S -> S := r (fun v => v - e).

Definition incr_point (S : Type) (r : ref S Point2.t) (e : Point2.t) : S -> S :=
  r (fun v => Point2.add v e).

(** [grad_p.nvertices = n] *)
Definition assign_nvertices (S : Type) (r : ref S Poly2.t) (n : Z) : S -> S :=
  r (fun g => Poly2.mk (Poly2.vertices g) n).

Declare Scope adj_scope.
Delimit Scope adj_scope with adj.
Notation "F ;; G" := (seq2 F G) (at level 61, left associativity) : adj_scope.
Notation "r +:= e" := (incr r e) (at level 60) : adj_scope.
Notation "r -:= e" := (decr r e) (at level 60) : adj_scope.
Notation "r +p= e" := (incr_point r e) (at level 60) : adj_scope.

(** References to the members of a referenced object. *)
Section Members.

Variable S : Type.

Definition Point2_x (r : ref S Point2.t) : ref S Q :=
  fun f => r (fun p => Point2.mk (f (Point2.x p)) (Point2.y p)).

Definition Point2_y (r : ref S Point2.t) : ref S Q :=
  fun f => r (fun p => Point2.mk (Point2.x p) (f (Point2.y p))).

Definition Line2_a (r : ref S Line2.t) : ref S Q :=
  fun f => r (fun l => Line2.mk (f (Line2.a l)) (Line2.b l) (Line2.c l)).

Definition Line2_b (r : ref S Line2.t) : ref S Q :=
  fun f => r (fun l => Line2.mk (Line2.a l) (f (Line2.b l)) (Line2.c l)).

Definition Line2_c (r : ref S Line2.t) : ref S Q :=
  fun f => r (fun l => Line2.mk (Line2.a l) (Line2.b l) (f (Line2.c l))).

Definition Segment2_x1 (r : ref S Segment2.t) : ref S Q :=
  fun f => r (fun s => Segment2.mk (f (Segment2.x1 s)) (Segment2.y1 s) (Segment2.x2 s) (Segment2.y2 s)).

Definition Segment2_y1 (r : ref S Segment2.t) : ref S Q :=
  fun f => r (fun s => Segment2.mk (Segment2.x1 s) (f (Segment2.y1 s)) (Segment2.x2 s) (Segment2.y2 s)).

Definition Segment2_x2 (r : ref S Segment2.t) : ref S Q :=
  fun f => r (fun s => Segment2.mk (Segment2.x1 s) (Segment2.y1 s) (f (Segment2.x2 s)) (Segment2.y2 s)).

Definition Segment2_y2 (r : ref S Segment2.t) : ref S Q :=
  fun f => r (fun s => Segment2.mk (Segment2.x1 s) (Segment2.y1 s) (Segment2.x2 s) (f (Segment2.y2 s))).

Definition AABox2_min_x (r : ref S AABox2.t) : ref S Q :=
  fun f => r (fun u => AABox2.mk (f (AABox2.min_x u)) (AABox2.max_x u) (AABox2.min_y u) (AABox2.max_y u)).

Definition AABox2_max_x (r : ref S AABox2.t) : ref S Q :=
  fun f => r (fun u => AABox2.mk (AABox2.min_x u) (f (AABox2.max_x u)) (AABox2.min_y u) (AABox2.max_y u)).

Definition AABox2_min_y (r : ref S AABox2.t) : ref S Q :=
  fun f => r (fun u => AABox2.mk (AABox2.min_x u) (AABox2.max_x u) (f (AABox2.min_y u)) (AABox2.max_y u)).

Definition AABox2_max_y (r : ref S AABox2.t) : ref S Q :=
  fun f => r (fun u => AABox2.mk (AABox2.min_x u) (AABox2.max_x u) (AABox2.min_y u) (f (AABox2.max_y u))).

(** [grad_p.vertices[i]] *)
Definition vertex (r : ref S Poly2.t) (i : Z) : ref S Point2.t :=
  fun f => r (fun g => Poly2.mk (array_upd (Poly2.vertices g) i f) (Poly2.nvertices g)).

End Members.

(** References to a variable that is the whole store, and to the components
    of a store made of two parts. *)
Definition this (A : Type) : ref A A := fun f s => f s.

Definition in_fst (S L A : Type) (r : ref S A) : ref (S * L) A :=
  fun f sl => (r f (fst sl), snd sl).

Definition in_snd (S L A : Type) (r : ref L A) : ref (S * L) A :=
  fun f sl => (fst sl, r f (snd sl)).

Local Open Scope adj_scope.

Section Adjoint.

Variable hypot : Q -> Q -> Q.
Variable sin cos : Q -> Q.

Definition _max_grad (S : Type) (a b g : Q) (ga gb : ref S Q) : S -> S :=
  if Qgtb a b then ga +:= g else gb +:= g.

Definition _min_grad (S : Type) (a b g : Q) (ga gb : ref S Q) : S -> S :=
  if Qltb a b then ga +:= g else gb +:= g.

(** *** gradient implementation of constructors *)

Definition line2_from_xyxy_grad (S : Type) (x1 y1 x2 y2 : Q) (grad : Line2.t)
    (x1_grad y1_grad x2_grad y2_grad : ref S Q) : S -> S :=
  x1_grad +:= (Line2.b grad - y2 * Line2.c grad) ;;
  x2_grad +:= (- Line2.b grad + y1 * Line2.c grad) ;;
  y1_grad +:= (- Line2.a grad + x2 * Line2.c grad) ;;
  y2_grad +:= (Line2.a grad - x1 * Line2.c grad).

Definition line2_from_pp_grad (S : Type) (p1 p2 : Point2.t) (grad : Line2.t)
    (grad_p1 grad_p2 : ref S Point2.t) : S -> S :=
  line2_from_xyxy_grad (Point2.x p1) (Point2.y p1) (Point2.x p2) (Point2.y p2) grad
    (Point2_x grad_p1) (Point2_y grad_p1) (Point2_x grad_p2) (Point2_y grad_p2).

Definition segment2_from_pp_grad (S : Type) (p1 p2 : Point2.t) (grad : Segment2.t)
    (grad_p1 grad_p2 : ref S Point2.t) : S -> S :=
  Point2_x grad_p1 +:= Segment2.x1 grad ;;
  Point2_y grad_p1 +:= Segment2.y1 grad ;;
  Point2_x grad_p2 +:= Segment2.x2 grad ;;
  Point2_y grad_p2 +:= Segment2.y2 grad.

Definition line2_from_segment2_grad (S : Type) (s : Segment2.t) (grad : Line2.t)
    (grad_s : ref S Segment2.t) : S -> S :=
  line2_from_xyxy_grad (Segment2.x1 s) (Segment2.y1 s) (Segment2.x2 s) (Segment2.y2 s) grad
    (Segment2_x1 grad_s) (Segment2_y1 grad_s) (Segment2_x2 grad_s) (Segment2_y2 grad_s).

(** The accumulation of [poly2_from_aabox2_grad], after its assertion. *)
Definition poly2_from_aabox2_grad_body (S : Type) (a : AABox2.t) (grad : Poly2.t)
    (grad_a : ref S AABox2.t) : S -> S :=
  AABox2_min_x grad_a +:= (Point2.x grad.[0] + Point2.x grad.[3]) ;;
  AABox2_max_x grad_a +:= (Point2.x grad.[1] + Point2.x grad.[2]) ;;
  AABox2_min_y grad_a +:= (Point2.y grad.[0] + Point2.y grad.[1]) ;;
  AABox2_max_y grad_a +:= (Point2.y grad.[2] + Point2.y grad.[3]).

Definition poly2_from_aabox2_grad (S : Type) (a : AABox2.t) (grad : Poly2.t)
    (grad_a : ref S AABox2.t) (s : S) : outcome S :=
  if (Poly2.nvertices grad =? 4)%Z then Ret (poly2_from_aabox2_grad_body a grad grad_a s)
  else Abort.

(** The positions of the extreme coordinates found by the first loop of
    [aabox2_from_poly2_grad]. *)
Record extremes : Type := mkExtremes {
  e_max_x : Q; e_min_x : Q; e_max_y : Q; e_min_y : Q;
  imax_x : Z; imin_x : Z; imax_y : Z; imin_y : Z }.

Definition find_extremes (p : Poly2.t) : extremes :=
  for_loop 1 (Poly2.nvertices p)
    (fun i e =>
       let e1 := if Qgtb (Point2.x p.[i]) (e_max_x e)
                 then mkExtremes (Point2.x p.[i]) (e_min_x e) (e_max_y e) (e_min_y e)
                                 i (imin_x e) (imax_y e) (imin_y e) else e in
       let e2 := if Qltb (Point2.x p.[i]) (e_min_x e1)
                 then mkExtremes (e_max_x e1) (Point2.x p.[i]) (e_max_y e1) (e_min_y e1)
                                 (imax_x e1) i (imax_y e1) (imin_y e1) else e1 in
       let e3 := if Qgtb (Point2.y p.[i]) (e_max_y e2)
                 then mkExtremes (e_max_x e2) (e_min_x e2) (Point2.y p.[i]) (e_min_y e2)
                                 (imax_x e2) (imin_x e2) i (imin_y e2) else e2 in
       if Qltb (Point2.y p.[i]) (e_min_y e3)
       then mkExtremes (e_max_x e3) (e_min_x e3) (e_max_y e3) (Point2.y p.[i])
                       (imax_x e3) (imin_x e3) (imax_y e3) i else e3)
    (mkExtremes (Point2.x p.[0]) (Point2.x p.[0]) (Point2.y p.[0]) (Point2.y p.[0]) 0 0 0 0).

Definition aabox2_from_poly2_grad (S : Type) (p : Poly2.t) (grad : AABox2.t)
    (grad_p : ref S Poly2.t) : S -> S :=
  let e := find_extremes p in
  assign_nvertices grad_p (Poly2.nvertices p) ;;
  for_loop 0 (Poly2.nvertices p)
    (fun i =>
       (if (i =? imax_x e)%Z then Point2_x (vertex grad_p i) +:= AABox2.max_x grad else @skip S) ;;
       (if (i =? imin_x e)%Z then Point2_x (vertex grad_p i) +:= AABox2.min_x grad else @skip S) ;;
       (if (i =? imax_y e)%Z then Point2_y (vertex grad_p i) +:= AABox2.max_y grad else @skip S) ;;
       (if (i =? imin_y e)%Z then Point2_y (vertex grad_p i) +:= AABox2.min_y grad else @skip S)).

(** The accumulation of [poly2_from_xywhr_grad], after its assertion. *)
Definition poly2_from_xywhr_grad_body (S : Type) (x y w h r : Q) (grad : Poly2.t)
    (grad_x grad_y grad_w grad_h grad_r : ref S Q) : S -> S :=
  let dxsin_grad := - Point2.y grad.[0] + Point2.y grad.[1] + Point2.y grad.[2] - Point2.y grad.[3] in
  let dxcos_grad := - Point2.x grad.[0] + Point2.x grad.[1] + Point2.x grad.[2] - Point2.x grad.[3] in
  let dysin_grad := Point2.x grad.[0] + Point2.x grad.[1] - Point2.x grad.[2] - Point2.x grad.[3] in
  let dycos_grad := - Point2.y grad.[0] - Point2.y grad.[1] + Point2.y grad.[2] + Point2.y grad.[3] in
  grad_x +:= (Point2.x grad.[0] + Point2.x grad.[1] + Point2.x grad.[2] + Point2.x grad.[3]) ;;
  grad_y +:= (Point2.y grad.[0] + Point2.y grad.[1] + Point2.y grad.[2] + Point2.y grad.[3]) ;;
  grad_w +:= ((dxsin_grad * sin r + dxcos_grad * cos r) / 2) ;;
  grad_h +:= ((dysin_grad * sin r + dycos_grad * cos r) / 2) ;;
  grad_r +:= ((dxsin_grad * w * cos r - dxcos_grad * w * sin r
               + dysin_grad * h * cos r - dycos_grad * h * sin r) / 2).

Definition poly2_from_xywhr_grad (S : Type) (x y w h r : Q) (grad : Poly2.t)
    (grad_x grad_y grad_w grad_h grad_r : ref S Q) (s : S) : outcome S :=
  if (Poly2.nvertices grad =? 4)%Z
  then Ret (poly2_from_xywhr_grad_body x y w h r grad grad_x grad_y grad_w grad_h grad_r s)
  else Abort.


(** *** gradient implementation of functions *)

Definition distance_grad_pp (S : Type) (p1 p2 : Point2.t) (grad : Q)
    (grad_p1 grad_p2 : ref S Point2.t) : S -> S :=
  let dx := Point2.x p1 - Point2.x p2 in
  let dy := Point2.y p1 - Point2.y p2 in
  let d := hypot dx dy in
  Point2_x grad_p1 +:= (grad * dx / d) ;;
  Point2_x grad_p2 -:= (grad * dx / d) ;;
  Point2_y grad_p1 +:= (grad * dy / d) ;;
  Point2_y grad_p2 -:= (grad * dy / d).

Definition distance_grad_lp (S : Type) (l : Line2.t) (p : Point2.t) (grad : Q)
    (grad_l : ref S Line2.t) (grad_p : ref S Point2.t) : S -> S :=
  let hab := hypot (Line2.a l) (Line2.b l) in
  let hab3 := hab * hab * hab in
  Point2_x grad_p +:= (grad * Line2.a l / hab) ;;
  Point2_y grad_p +:= (grad * Line2.b l / hab) ;;
  Line2_a grad_l +:= (grad * Line2.a l * Point2.y p * Point2.y p / hab3) ;;
  Line2_b grad_l +:= (grad * Line2.b l * Point2.x p * Point2.x p / hab3) ;;
  Line2_c grad_l +:= (grad * 1 / hab).

(** The callee writes both into the caller's [grad_p] and into a local
    variable: the store of the call is the caller's store paired with the
    zero-initialised local. *)
Definition distance_grad_sp (S : Type) (s : Segment2.t) (p : Point2.t) (grad : Q)
    (grad_s : ref S Segment2.t) (grad_p : ref S Point2.t) : S -> S :=
  let l := line2_from_segment2 s in
  let t := t_from_ppoint l p in
  let sign := Line2.a l * Point2.x p + Line2.b l * Point2.y p + Line2.c l in
  if Qltb t (t_from_pxy l (Segment2.x2 s) (Segment2.y2 s)) then
    let p2 := Point2.mk (Segment2.x2 s) (Segment2.y2 s) in
    fun st =>
      let st' := distance_grad_pp p p2 (if Qgtb sign 0 then grad else - grad)
                   (in_fst grad_p) (in_snd (@this Point2.t)) (st, Point2.zero) in
      let grad_p2 := snd st' in
      (Segment2_x2 grad_s +:= Point2.x grad_p2 ;;
       Segment2_y2 grad_s +:= Point2.y grad_p2) (fst st')
  else if Qgtb t (t_from_pxy l (Segment2.x1 s) (Segment2.y1 s)) then
    let p1 := Point2.mk (Segment2.x1 s) (Segment2.y1 s) in
    fun st =>
      let st' := distance_grad_pp p p1 (if Qgtb sign 0 then grad else - grad)
                   (in_fst grad_p) (in_snd (@this Point2.t)) (st, Point2.zero) in
      let grad_p1 := snd st' in
      (Segment2_x1 grad_s +:= Point2.x grad_p1 ;;
       Segment2_y1 grad_s +:= Point2.y grad_p1) (fst st')
  else
    fun st =>
      let st' := distance_grad_lp l p grad
                   (in_snd (@this Line2.t)) (in_fst grad_p) (st, Line2.zero) in
      let grad_l := snd st' in
      line2_from_segment2_grad s grad_l grad_s (fst st').

Definition distance_grad_poly (S : Type) (poly : Poly2.t) (p : Point2.t) (grad : Q)
    (grad_poly : ref S Poly2.t) (grad_p : ref S Point2.t) (idx : Z) : S -> S :=
  let nidx := _mod_inc idx (Poly2.nvertices poly) in
  let s := segment2_from_pp poly.[idx] poly.[nidx] in
  fun st =>
    let st' := distance_grad_sp s p (- grad)
                 (in_snd (@this Segment2.t)) (in_fst grad_p) (st, Segment2.zero) in
    let grad_s := snd st' in
    segment2_from_pp_grad poly.[idx] poly.[nidx] grad_s
      (vertex grad_poly idx) (vertex grad_poly nidx) (fst st').

Definition area_grad_aabox (S : Type) (a : AABox2.t) (grad : Q) (grad_a : ref S AABox2.t)
    : S -> S :=
  let lx := AABox2.max_x a - AABox2.min_x a in
  let ly := AABox2.max_y a - AABox2.min_y a in
  AABox2_max_x grad_a +:= (grad * ly) ;;
  AABox2_min_x grad_a -:= (grad * ly) ;;
  AABox2_max_y grad_a +:= (grad * lx) ;;
  AABox2_min_y grad_a -:= (grad * lx).

Definition area_grad (S : Type) (p : Poly2.t) (grad : Q) (grad_p : ref S Poly2.t) : S -> S :=
  let n := Poly2.nvertices p in
  if (n <=? 2)%Z then @skip S
  else
    let hgrad := grad / 2 in
    assign_nvertices grad_p n ;;
    Point2_x (vertex grad_p 0) -:= (hgrad * Point2.y p.[n - 1]) ;;
    Point2_y (vertex grad_p 0) +:= (hgrad * Point2.x p.[n - 1]) ;;
    Point2_x (vertex grad_p (n - 1)) +:= (hgrad * Point2.y p.[0]) ;;
    Point2_y (vertex grad_p (n - 1)) -:= (hgrad * Point2.x p.[0]) ;;
    for_loop 1 n
      (fun i =>
         Point2_x (vertex grad_p i) -:= (hgrad * Point2.y p.[i - 1]) ;;
         Point2_y (vertex grad_p i) +:= (hgrad * Point2.x p.[i - 1]) ;;
         Point2_x (vertex grad_p (i - 1)) +:= (hgrad * Point2.y p.[i]) ;;
         Point2_y (vertex grad_p (i - 1)) -:= (hgrad * Point2.x p.[i])).

Definition dimension_grad_aabox (S : Type) (a : AABox2.t) (grad : Q) (grad_a : ref S AABox2.t)
    : S -> S :=
  let dx := AABox2.max_x a - AABox2.min_x a in
  let dy := AABox2.max_y a - AABox2.min_y a in
  let d := hypot dx dy in
  AABox2_max_x grad_a +:= (grad * dx / d) ;;
  AABox2_min_x grad_a -:= (grad * dx / d) ;;
  AABox2_max_y grad_a +:= (grad * dy / d) ;;
  AABox2_min_y grad_a -:= (grad * dy / d).

Definition dimension_grad (S : Type) (p : Poly2.t) (grad : Q) (flag1 flag2 : Z)
    (grad_p : ref S Poly2.t) : S -> S :=
  distance_grad_pp p.[flag1] p.[flag2] grad (vertex grad_p flag1) (vertex grad_p flag2).

Definition center_grad_aabox (S : Type) (a : AABox2.t) (grad : Point2.t)
    (grad_a : ref S AABox2.t) : S -> S :=
  AABox2_max_x grad_a +:= (Point2.x grad / 2) ;;
  AABox2_min_x grad_a +:= (Point2.x grad / 2) ;;
  AABox2_max_y grad_a +:= (Point2.y grad / 2) ;;
  AABox2_min_y grad_a +:= (Point2.y grad / 2).

Definition center_grad (S : Type) (p : Poly2.t) (grad : Point2.t) (grad_p : ref S Poly2.t)
    : S -> S :=
  let a := aabox2_from_poly2 p in
  let grad_a := center_grad_aabox a grad (@this AABox2.t) AABox2.zero in
  aabox2_from_poly2_grad p grad_a grad_p.

Definition centroid_grad_aabox (S : Type) (a : AABox2.t) (grad : Point2.t)
    (grad_a : ref S AABox2.t) : S -> S :=
  center_grad_aabox a grad grad_a.

Definition centroid_grad (S : Type) (p : Poly2.t) (grad : Point2.t) (grad_p : ref S Poly2.t)
    : S -> S :=
  assign_nvertices grad_p (Poly2.nvertices p) ;;
  for_loop 0 (Poly2.nvertices p)
    (fun i =>
       Point2_x (vertex grad_p i) +:= (Point2.x grad / inject_Z (Poly2.nvertices p)) ;;
       Point2_y (vertex grad_p i) +:= (Point2.y grad / inject_Z (Poly2.nvertices p))).

(** *** gradient implementation of operators *)

Definition intersect_grad_ll (S : Type) (l1 l2 : Line2.t) (grad : Point2.t)
    (grad_l1 grad_l2 : ref S Line2.t) : S -> S :=
  let wab := Line2.a l1 * Line2.b l2 - Line2.a l2 * Line2.b l1 in
  let wbc := Line2.b l1 * Line2.c l2 - Line2.b l2 * Line2.c l1 in
  let wca := Line2.c l1 * Line2.a l2 - Line2.c l2 * Line2.a l1 in
  let g_wbc := Point2.x grad / wab in
  let g_wca := Point2.y grad / wab in
  let g_wab := - (wbc * g_wbc + wca * g_wca) / wab in
  Line2_a grad_l1 +:= (- Line2.c l2 * g_wca + Line2.b l2 * g_wab) ;;
  Line2_b grad_l1 +:= (Line2.c l2 * g_wbc - Line2.a l2 * g_wab) ;;
  Line2_c grad_l1 +:= (Line2.a l2 * g_wca - Line2.b l2 * g_wbc) ;;
  Line2_a grad_l2 +:= (Line2.c l1 * g_wca - Line2.b l1 * g_wab) ;;
  Line2_b grad_l2 +:= (- Line2.c l1 * g_wbc + Line2.a l1 * g_wab) ;;
  Line2_c grad_l2 +:= (Line2.b l1 * g_wbc - Line2.a l1 * g_wca).

(** [flags[i]], [flags[i] & 1] as a condition, and [flags[i] >> 1] *)
Definition flag_at (flags : list Z) (i : Z) : Z := nth (Z.to_nat i) flags 0%Z.

Definition from_p1 (f : Z) : bool := negb (Z.land f 1 =? 0)%Z.

Definition flag_index (f : Z) : Z := Z.shiftr f 1.

(** The gradient of a crossing vertex: the edge [epn] of [pn] follows it and
    the edge [epp] of [pp] precedes it. *)
Definition crossing_grad (S : Type) (pn pp : Poly2.t) (epni eppi : Z) (g : Point2.t)
    (grad_pn grad_pp : ref S Poly2.t) : S -> S :=
  let epnj := _mod_inc epni (Poly2.nvertices pn) in
  let eppj := _mod_inc eppi (Poly2.nvertices pp) in
  let edge_next := line2_from_pp pn.[epni] pn.[epnj] in
  let edge_prev := line2_from_pp pp.[eppi] pp.[eppj] in
  let grad_edges := intersect_grad_ll edge_next edge_prev g
                      (in_fst (@this Line2.t)) (in_snd (@this Line2.t))
                      (Line2.zero, Line2.zero) in
  line2_from_pp_grad pn.[epni] pn.[epnj] (fst grad_edges)
    (vertex grad_pn epni) (vertex grad_pn epnj) ;;
  line2_from_pp_grad pp.[eppi] pp.[eppj] (snd grad_edges)
    (vertex grad_pp eppi) (vertex grad_pp eppj).

Definition intersect_grad (S : Type) (p1 p2 : Poly2.t) (grad : Poly2.t) (xflags : list Z)
    (grad_p1 grad_p2 : ref S Poly2.t) : S -> S :=
  assign_nvertices grad_p1 (Poly2.nvertices p1) ;;
  assign_nvertices grad_p2 (Poly2.nvertices p2) ;;
  for_loop 0 (Poly2.nvertices grad)
    (fun i =>
       let iprev := _mod_dec i (Poly2.nvertices grad) in
       let fi := flag_at xflags i in
       let fp := flag_at xflags iprev in
       if (Z.land fi 1 =? Z.land fp 1)%Z then
         if from_p1 fi then vertex grad_p1 (flag_index fi) +p= grad.[i]
         else vertex grad_p2 (flag_index fi) +p= grad.[i]
       else if from_p1 fi then
         crossing_grad p1 p2 (flag_index fi) (flag_index fp) grad.[i] grad_p1 grad_p2
       else
         crossing_grad p2 p1 (flag_index fi) (flag_index fp) grad.[i] grad_p2 grad_p1).

Definition intersect_grad_aabox (S : Type) (a1 a2 grad : AABox2.t)
    (grad_a1 grad_a2 : ref S AABox2.t) : S -> S :=
  _max_grad (AABox2.min_x a1) (AABox2.min_x a2) (AABox2.min_x grad)
    (AABox2_min_x grad_a1) (AABox2_min_x grad_a2) ;;
  _min_grad (AABox2.max_x a1) (AABox2.max_x a2) (AABox2.max_x grad)
    (AABox2_max_x grad_a1) (AABox2_max_x grad_a2) ;;
  _max_grad (AABox2.min_y a1) (AABox2.min_y a2) (AABox2.min_y grad)
    (AABox2_min_y grad_a1) (AABox2_min_y grad_a2) ;;
  _min_grad (AABox2.max_y a1) (AABox2.max_y a2) (AABox2.max_y grad)
    (AABox2_max_y grad_a1) (AABox2_max_y grad_a2).

Definition merge_grad (S : Type) (p1 p2 : Poly2.t) (grad : Poly2.t) (mflags : list Z)
    (grad_p1 grad_p2 : ref S Poly2.t) : S -> S :=
  assign_nvertices grad_p1 (Poly2.nvertices p1) ;;
  assign_nvertices grad_p2 (Poly2.nvertices p2) ;;
  for_loop 0 (Poly2.nvertices grad)
    (fun i =>
       let fi := flag_at mflags i in
       if from_p1 fi then vertex grad_p1 (flag_index fi) +p= grad.[i]
       else vertex grad_p2 (flag_index fi) +p= grad.[i]).

Definition merge_grad_aabox (S : Type) (a1 a2 grad : AABox2.t)
    (grad_a1 grad_a2 : ref S AABox2.t) : S -> S :=
  _min_grad (AABox2.min_x a1) (AABox2.min_x a2) (AABox2.min_x grad)
    (AABox2_min_x grad_a1) (AABox2_min_x grad_a2) ;;
  _max_grad (AABox2.max_x a1) (AABox2.max_x a2) (AABox2.max_x grad)
    (AABox2_max_x grad_a1) (AABox2_max_x grad_a2) ;;
  _min_grad (AABox2.min_y a1) (AABox2.min_y a2) (AABox2.min_y grad)
    (AABox2_min_y grad_a1) (AABox2_min_y grad_a2) ;;
  _max_grad (AABox2.max_y a1) (AABox2.max_y a2) (AABox2.max_y grad)
    (AABox2_max_y grad_a1) (AABox2_max_y grad_a2).

Definition iou_grad_aabox (S : Type) (a1 a2 : AABox2.t) (grad : Q)
    (grad_a1 grad_a2 : ref S AABox2.t) : S -> S :=
  let ai := intersect_aabox a1 a2 in
  let area_i := area_aabox ai in
  let area_u := area_aabox a1 + area_aabox a2 - area_i in
  let gi0 := grad / area_u in
  let gu := - gi0 * area_i / area_u in
  let gi := gi0 - gu in
  let grad_ai := area_grad_aabox ai gi (@this AABox2.t) AABox2.zero in
  area_grad_aabox a1 gu grad_a1 ;;
  area_grad_aabox a2 gu grad_a2 ;;
  intersect_grad_aabox a1 a2 grad_ai grad_a1 grad_a2.

(** construct intersection of two polygon from saved flags *)
Definition _construct_intersection (p1 p2 : Poly2.t) (xflags : list Z) (nx : Z) : Poly2.t :=
  let cap := (length (Poly2.vertices p1) + length (Poly2.vertices p2))%nat in
  for_loop 0 nx
    (fun i pi =>
       let iprev := _mod_dec i nx in
       let fi := flag_at xflags i in
       let fp := flag_at xflags iprev in
       if (Z.land fi 1 =? Z.land fp 1)%Z then
         if from_p1 fi then set_vertex pi i p1.[flag_index fi]
         else set_vertex pi i p2.[flag_index fi]
       else
         let pn := if from_p1 fi then p1 else p2 in
         let pp := if from_p1 fi then p2 else p1 in
         let epni := flag_index fi in
         let epnj := _mod_inc epni (Poly2.nvertices pn) in
         let eppi := flag_index fp in
         let eppj := _mod_inc eppi (Poly2.nvertices pp) in
         let edge_next := line2_from_pp pn.[epni] pn.[epnj] in
         let edge_prev := line2_from_pp pp.[eppi] pp.[eppj] in
         set_vertex pi i (intersect_ll edge_prev edge_next))
    (Poly2.mk (repeat Point2.zero cap) nx).

(** construct merged hull of two polygon from saved flags *)
Definition _construct_merged_hull (p1 p2 : Poly2.t) (mflags : list Z) (nm : Z) : Poly2.t :=
  let cap := (length (Poly2.vertices p1) + length (Poly2.vertices p2))%nat in
  for_loop 0 nm
    (fun i result =>
       let fi := flag_at mflags i in
       if from_p1 fi then set_vertex result i p1.[flag_index fi]
       else set_vertex result i p2.[flag_index fi])
    (Poly2.mk (repeat Point2.zero cap) nm).

Definition iou_grad (S : Type) (p1 p2 : Poly2.t) (grad : Q) (nx : Z) (xflags : list Z)
    (grad_p1 grad_p2 : ref S Poly2.t) : S -> S :=
  let cap := (length (Poly2.vertices p1) + length (Poly2.vertices p2))%nat in
  let pi := _construct_intersection p1 p2 xflags nx in
  let area_i := area pi in
  let area_u := area p1 + area p2 - area_i in
  let gi0 := grad / area_u in
  let gu := - gi0 * area_i / area_u in
  let gi := gi0 - gu in
  let grad_pi := area_grad pi gi (@this Poly2.t) (Poly2.empty cap) in
  area_grad p1 gu grad_p1 ;;
  area_grad p2 gu grad_p2 ;;
  intersect_grad p1 p2 grad_pi xflags grad_p1 grad_p2.

Definition giou_grad_aabox (S : Type) (a1 a2 : AABox2.t) (grad : Q)
    (grad_a1 grad_a2 : ref S AABox2.t) : S -> S :=
  let ai := intersect_aabox a1 a2 in
  let am := merge_aabox a1 a2 in
  let area_i := area_aabox ai in
  let area_m := area_aabox am in
  let area_u := area_aabox a1 + area_aabox a2 - area_i in
  let gi0 := grad / area_u in
  let gu := grad * (1 / area_m - area_i / (area_u * area_u)) in
  let gi := gi0 - gu in
  let gm := grad * (- area_u / (area_m * area_m)) in
  let grad_ai := area_grad_aabox ai gi (@this AABox2.t) AABox2.zero in
  let grad_am := area_grad_aabox am gm (@this AABox2.t) AABox2.zero in
  area_grad_aabox a1 gu grad_a1 ;;
  area_grad_aabox a2 gu grad_a2 ;;
  intersect_grad_aabox a1 a2 grad_ai grad_a1 grad_a2 ;;
  merge_grad_aabox a1 a2 grad_am grad_a1 grad_a2.

Definition giou_grad (S : Type) (p1 p2 : Poly2.t) (grad : Q) (nx nm : Z)
    (xflags mflags : list Z) (grad_p1 grad_p2 : ref S Poly2.t) : S -> S :=
  let cap := (length (Poly2.vertices p1) + length (Poly2.vertices p2))%nat in
  let pi := _construct_intersection p1 p2 xflags nx in
  let pm := _construct_merged_hull p1 p2 mflags nm in
  let area_i := area pi in
  let area_m := area pm in
  let area_u := area p1 + area p2 - area_i in
  let gi0 := grad / area_u in
  let gu := grad * (1 / area_m - area_i / (area_u * area_u)) in
  let gi := gi0 - gu in
  let gm := grad * (- area_u / (area_m * area_m)) in
  let grad_pi := area_grad pi gi (@this Poly2.t) (Poly2.empty cap) in
  let grad_pm := area_grad pm gm (@this Poly2.t) (Poly2.empty cap) in
  area_grad p1 gu grad_p1 ;;
  area_grad p2 gu grad_p2 ;;
  intersect_grad p1 p2 grad_pi xflags grad_p1 grad_p2 ;;
  merge_grad p1 p2 grad_pm mflags grad_p1 grad_p2.

Definition diou_grad_aabox (S : Type) (a1 a2 : AABox2.t) (grad : Q)
    (grad_a1 grad_a2 : ref S AABox2.t) : S -> S :=
  let c1 := centroid_aabox a1 in
  let c2 := centroid_aabox a2 in
  let cd := distance_pp hypot c1 c2 in
  let am := merge_aabox a1 a2 in
  let maxd := dimension_aabox hypot am in
  let grad_iou := grad in
  let grad_cd := - grad * 2 * cd / (maxd * maxd) in
  let grad_maxd := grad * 2 * (cd * cd) / (maxd * maxd * maxd) in
  let grad_c := distance_grad_pp c1 c2 grad_cd
                  (in_fst (@this Point2.t)) (in_snd (@this Point2.t))
                  (Point2.zero, Point2.zero) in
  let grad_am := dimension_grad_aabox am grad_maxd (@this AABox2.t) AABox2.zero in
  iou_grad_aabox a1 a2 grad_iou grad_a1 grad_a2 ;;
  centroid_grad_aabox a1 (fst grad_c) grad_a1 ;;
  centroid_grad_aabox a2 (snd grad_c) grad_a2 ;;
  merge_grad_aabox a1 a2 grad_am grad_a1 grad_a2.

Definition diou_grad (S : Type) (p1 p2 : Poly2.t) (grad : Q) (nx dflag1 dflag2 : Z)
    (xflags : list Z) (grad_p1 grad_p2 : ref S Poly2.t) : S -> S :=
  let c1 := centroid p1 in
  let c2 := centroid p2 in
  let cd := distance_pp hypot c1 c2 in
  let v1 := if from_p1 dflag1 then p1.[flag_index dflag1] else p2.[flag_index dflag1] in
  let v2 := if from_p1 dflag2 then p1.[flag_index dflag2] else p2.[flag_index dflag2] in
  let maxd := distance_pp hypot v1 v2 in
  let grad_iou := grad in
  let grad_cd := - grad * 2 * cd / (maxd * maxd) in
  let grad_maxd := grad * 2 * (cd * cd) / (maxd * maxd * maxd) in
  let grad_c := distance_grad_pp c1 c2 grad_cd
                  (in_fst (@this Point2.t)) (in_snd (@this Point2.t))
                  (Point2.zero, Point2.zero) in
  let grad_v1 := if from_p1 dflag1 then vertex grad_p1 (flag_index dflag1)
                 else vertex grad_p2 (flag_index dflag1) in
  let grad_v2 := if from_p1 dflag2 then vertex grad_p1 (flag_index dflag2)
                 else vertex grad_p2 (flag_index dflag2) in
  iou_grad p1 p2 grad_iou nx xflags grad_p1 grad_p2 ;;
  centroid_grad p1 (fst grad_c) grad_p1 ;;
  centroid_grad p2 (snd grad_c) grad_p2 ;;
  distance_grad_pp v1 v2 grad_maxd grad_v1 grad_v2.

End Adjoint.

Local Close Scope adj_scope.

(** * Vocabulary of the properties *)

(** ** Comparisons, sums over index ranges *)

Inductive Qltb_case (u v : Q) : bool -> Prop :=
| Qltb_case_lt : u < v -> Qltb_case u v true
| Qltb_case_ge : v <= u -> Qltb_case u v false.

Definition sumZ (lo hi : Z) (f : Z -> Q) : Q := for_loop lo hi (fun i acc => acc + f i) 0.

(** ** Angle functions

    [same_order atan2 _pi]: the function [atan2] with the constant [_pi]
    orders the directions, and the start [- _pi] of a sweep, as the
    reference instance [Qatan2] with [Qpi] does. *)

Definition same_order (atan2 : Q -> Q -> Q) (_pi : Q) : Prop :=
  (forall y1 x1 y2 x2,
      Qltb (atan2 y1 x1) (atan2 y2 x2) = Qltb (Qatan2 y1 x1) (Qatan2 y2 x2)) /\
  (forall y x, Qltb (- _pi) (atan2 y x) = Qltb (- Qpi) (Qatan2 y x)) /\
  (forall y x, Qltb (atan2 y x) (- _pi) = Qltb (Qatan2 y x) (- Qpi)).

(** The value of [Qatan2 y x] by the quadrant of the direction [(x, y)]. *)
Inductive Qatan2_case (y x : Q) : Q -> Prop :=
| atan2_origin : x == 0 -> y == 0 -> Qatan2_case y x 0
| atan2_q1 : 0 <= y -> 0 <= x -> 0 < x + y -> Qatan2_case y x (y / (x + y))
| atan2_q2 : 0 <= y -> x < 0 -> Qatan2_case y x (2 - y / (- x + y))
| atan2_q4 : y < 0 -> 0 <= x -> Qatan2_case y x (y / (x - y))
| atan2_q3 : y < 0 -> x < 0 -> Qatan2_case y x (- (2) - y / (- x - y)).

(** The edge angle of a sweep run with [atan2] and the edge angle of the
    same sweep run with [Qatan2]. *)
Inductive same_angle (atan2 : Q -> Q -> Q) (_pi : Q) : Q -> Q -> Prop :=
| same_start : same_angle atan2 _pi (- _pi) (- Qpi)
| same_slope (y x : Q) : same_angle atan2 _pi (atan2 y x) (Qatan2 y x).

(** ** Polygons *)

(** The shoelace sum in the words of the specification: the sum, over the
    edges from vertex [i] to vertex [(i + 1) mod n], of
    [x_i * y_(i+1) - x_(i+1) * y_i]. *)
Definition shoelace (p : Poly2.t) : Q :=
  let n := Poly2.nvertices p in
  sumZ 0 n (fun i => Point2.x p.[i] * Point2.y p.[(i + 1) mod n]
                     - Point2.x p.[(i + 1) mod n] * Point2.y p.[i]).

(** Counter-clockwise convex polygons: every vertex lies on or to the left
    of every directed edge, and some vertex lies strictly to the left of
    some edge (the polygon is not flat). *)
Definition ccw_convex (p : Poly2.t) : Prop :=
  let n := Poly2.nvertices p in
  (forall i k, (0 <= i < n)%Z -> (0 <= k < n)%Z ->
               0 <= _cross p.[i] p.[(i + 1) mod n] p.[k]) /\
  (exists i k, (0 <= i < n)%Z /\ (0 <= k < n)%Z /\
               0 < _cross p.[i] p.[(i + 1) mod n] p.[k]).

(** The sum over the edges in the order of the loop of [area]: the edge from
    the last vertex to the first, then the edges [(i - 1, i)]. *)
Definition edge_sum (p : Poly2.t) (f : Point2.t -> Point2.t -> Q) : Q :=
  let n := Poly2.nvertices p in
  f p.[n - 1] p.[0] + sumZ 1 n (fun i => f p.[i - 1] p.[i]).

Definition wedge (u v : Point2.t) : Q := Point2.x u * Point2.y v - Point2.x v * Point2.y u.

(** A decision procedure for counter-clockwise convexity. *)
Definition indices (n : Z) : list Z := map Z.of_nat (seq 0 (Z.to_nat n)).

Definition ccw_convexb (p : Poly2.t) : bool :=
  let n := Poly2.nvertices p in
  let side (i k : Z) := _cross p.[i] p.[(i + 1) mod n] p.[k] in
  forallb (fun i => forallb (fun k => Qleb 0 (side i k)) (indices n)) (indices n)
  && existsb (fun i => existsb (fun k => Qltb 0 (side i k)) (indices n)) (indices n).

(** ** The budget of a sweep

    The angles of the edges of [p], one per index a sweep can stand at, and
    the number of them above the edge angle [ea]: a step of a sweep moves
    the edge angle up to the angle of the edge it passes, so the steps left
    to a sweep are at most the edges of the two polygons above its edge
    angle. *)

Definition edge_angles {num : Numeric} (atan2 : Q -> Q -> Q) (p : Poly2.t) : list Q :=
  map (fun i => _slope_pp atan2 p.[i] p.[_mod_inc i (Poly2.nvertices p)])
      (indices (Z.max 1 (Poly2.nvertices p))).

Definition count_above (angles : list Q) (ea : Q) : nat := length (filter (Qltb ea) angles).

Definition steps_left {num : Numeric} (atan2 : Q -> Q -> Q) (p1 p2 : Poly2.t) (ea : Q) : nat :=
  (count_above (edge_angles atan2 p1) ea + count_above (edge_angles atan2 p2) ea)%nat.

(** A pair of polygons in general position: no three of their vertices are
    on a line, and no edge of the first is parallel to an edge of the
    second. *)
Definition vertices_in_use (p : Poly2.t) : list Point2.t :=
  map (fun i => p.[i]) (indices (Poly2.nvertices p)).

Fixpoint no_collinear_with (u v : Point2.t) (l : list Point2.t) : bool :=
  match l with
  | [] => true
  | w :: r => negb (Qeqb0 (_cross u v w)) && no_collinear_with u v r
  end.

Fixpoint no_collinear_from (u : Point2.t) (l : list Point2.t) : bool :=
  match l with
  | [] => true
  | v :: r => no_collinear_with u v r && no_collinear_from u r
  end.

Fixpoint no_three_collinear (l : list Point2.t) : bool :=
  match l with
  | [] => true
  | u :: r => no_collinear_from u r && no_three_collinear r
  end.

Definition edge_vector (p : Poly2.t) (i : Z) : Q * Q :=
  let j := ((i + 1) mod Poly2.nvertices p)%Z in
  (Point2.x p.[j] - Point2.x p.[i], Point2.y p.[j] - Point2.y p.[i]).

Definition no_parallel_edges (p1 p2 : Poly2.t) : bool :=
  forallb (fun i =>
    forallb (fun j =>
      let (ux, uy) := edge_vector p1 i in
      let (vx, vy) := edge_vector p2 j in
      negb (Qeqb0 (ux * vy - uy * vx)))
      (indices (Poly2.nvertices p2)))
    (indices (Poly2.nvertices p1)).

Definition general_position (p1 p2 : Poly2.t) : bool :=
  no_three_collinear (vertices_in_use p1 ++ vertices_in_use p2) && no_parallel_edges p1 p2.

(** The area of the polygon a call returns, when it returns. *)
Definition returned_area (r : outcome (Poly2.t * list Z)) : option Q :=
  match r with
  | Ret (p, _) => Some (Qred (area p))
  | _ => None
  end.

(** The values of [iou] and [giou], when the calls return. *)
Definition returned_iou (r : outcome (Q * Z * list Z)) : option Q :=
  match r with
  | Ret (v, _, _) => Some (Qred v)
  | _ => None
  end.

Definition returned_giou (r : outcome (Q * Z * Z * list Z * list Z)) : option Q :=
  match r with
  | Ret (v, _, _, _, _) => Some (Qred v)
  | _ => None
  end.

(** ** Gradient accumulators

    The gradient coordinates of an accumulator are read through [coord];
    [azero] is the zero-initialised accumulator of the same shape (for a
    polygon: [zero()] on a default-constructed polygon of the same
    capacity). *)

Class Accum (A : Type) : Type := {
  idx : Type;
  coord : A -> idx -> Q;
  azero : A -> A
}.

(** Zero-initialising twice is zero-initialising once, and every coordinate
    of a zero-initialised accumulator is zero. *)
Class AccumLaws (A : Type) {acc : Accum A} : Prop := {
  azero_idem : forall a : A, azero (azero a) = azero a;
  coord_azero : forall (a : A) (k : idx), coord (azero a) k == 0
}.

Arguments AccumLaws A {acc}.

#[export] Instance Accum_Q : Accum Q :=
  {| idx := unit; coord := fun q _ => q; azero := fun _ => 0 |}.

Definition coord_Point2 (p : Point2.t) (k : bool) : Q :=
  if k then Point2.y p else Point2.x p.

#[export] Instance Accum_Point2 : Accum Point2.t :=
  {| idx := bool; coord := coord_Point2; azero := fun _ => Point2.zero |}.

Definition coord_Line2 (l : Line2.t) (k : nat) : Q :=
  match k with
  | O => Line2.a l | S O => Line2.b l | S (S O) => Line2.c l
  | _ => 0
  end.

#[export] Instance Accum_Line2 : Accum Line2.t :=
  {| idx := nat; coord := coord_Line2; azero := fun _ => Line2.zero |}.

Definition coord_Segment2 (s : Segment2.t) (k : nat) : Q :=
  match k with
  | O => Segment2.x1 s | S O => Segment2.y1 s
  | S (S O) => Segment2.x2 s | S (S (S O)) => Segment2.y2 s
  | _ => 0
  end.

#[export] Instance Accum_Segment2 : Accum Segment2.t :=
  {| idx := nat; coord := coord_Segment2; azero := fun _ => Segment2.zero |}.

Definition coord_AABox2 (u : AABox2.t) (k : nat) : Q :=
  match k with
  | O => AABox2.min_x u | S O => AABox2.max_x u
  | S (S O) => AABox2.min_y u | S (S (S O)) => AABox2.max_y u
  | _ => 0
  end.

#[export] Instance Accum_AABox2 : Accum AABox2.t :=
  {| idx := nat; coord := coord_AABox2; azero := fun _ => AABox2.zero |}.

(** The coordinate [k = (i, c)] of a polygon accumulator is the [x] or [y]
    member ([c = false] or [true]) of [vertices[i]]. *)
Definition coord_Poly2 (g : Poly2.t) (k : nat * bool) : Q :=
  coord_Point2 (nth (fst k) (Poly2.vertices g) Point2.zero) (snd k).

Definition zero_Poly2 (g : Poly2.t) : Poly2.t := Poly2.empty (length (Poly2.vertices g)).

#[export] Instance Accum_Poly2 : Accum Poly2.t :=
  {| idx := (nat * bool)%type; coord := coord_Poly2; azero := zero_Poly2 |}.

(** A store made of two parts. *)
Definition coord_prod (A B : Type) {accA : Accum A} {accB : Accum B}
    (s : A * B) (k : @idx A accA + @idx B accB) : Q :=
  match k with
  | inl i => coord (fst s) i
  | inr j => coord (snd s) j
  end.

Definition zero_prod (A B : Type) {accA : Accum A} {accB : Accum B} (s : A * B) : A * B :=
  (azero (fst s), azero (snd s)).

#[export] Instance Accum_prod (A B : Type) {accA : Accum A} {accB : Accum B} : Accum (A * B) :=
  {| idx := (@idx A accA + @idx B accB)%type; coord := @coord_prod A B accA accB;
     azero := @zero_prod A B accA accB |}.

(** A store transformer accumulates when it keeps the shape of the store
    and every gradient coordinate after the call is its value before the
    call plus the coordinate the same call leaves in a zero-initialised
    store. *)
Definition accumulates (S : Type) {acc : Accum S} (F : S -> S) : Prop :=
  forall s, azero (F s) = azero s /\
            forall k, coord (F s) k == coord s k + coord (F (azero s)) k.

(** A reference is linear when accumulating into the cell it designates
    accumulates into the store. *)
Definition linear (S A : Type) {accS : Accum S} {accA : Accum A} (r : ref S A) : Prop :=
  forall f : A -> A, accumulates f -> accumulates (r f).

(** Whether the write [vertices[i]] reaches the cell [j] of an array of
    length [len]. *)
Definition hits (i : Z) (j len : nat) : bool :=
  (negb (i <? 0)%Z && Nat.eqb (Z.to_nat i) j && Nat.ltb j len)%bool.

(** The output parameters of an adjoint function as distinct variables:
    [out1] and [out2] are the two variables of a store of two, [q1of4] to
    [q4of4] and [q1of5] to [q5of5] the variables of a store of four and of
    five scalars. *)

Definition out1 (A B : Type) : ref (A * B) A := in_fst (@this A).

Definition out2 (A B : Type) : ref (A * B) B := in_snd (@this B).

Definition q1of4 : ref (Q * Q * Q * Q) Q := in_fst (in_fst (in_fst (@this Q))).

Definition q2of4 : ref (Q * Q * Q * Q) Q := in_fst (in_fst (in_snd (@this Q))).

Definition q3of4 : ref (Q * Q * Q * Q) Q := in_fst (in_snd (@this Q)).

Definition q4of4 : ref (Q * Q * Q * Q) Q := in_snd (@this Q).

Definition q1of5 : ref (Q * Q * Q * Q * Q) Q := in_fst q1of4.

Definition q2of5 : ref (Q * Q * Q * Q * Q) Q := in_fst q2of4.

Definition q3of5 : ref (Q * Q * Q * Q * Q) Q := in_fst q3of4.

Definition q4of5 : ref (Q * Q * Q * Q * Q) Q := in_fst q4of4.

Definition q5of5 : ref (Q * Q * Q * Q * Q) Q := in_snd (@this Q).

(** Accumulation for a call that can stop at an assertion: whether the call
    returns does not depend on the accumulators, and a call that returns
    accumulates. *)
Definition accumulates_or_aborts (S : Type) {acc : Accum S} (F : S -> outcome S) : Prop :=
  forall s,
    match F s, F (azero s) with
    | Ret s', Ret z' =>
        azero s' = azero s /\ forall k, coord s' k == coord s k + coord z' k
    | Abort, Abort => True
    | _, _ => False
    end.

(** ** The loop of [area_grad] *)

Local Open Scope adj_scope.

(** One iteration of the loop of [area_grad] on the accumulator itself, for
    the polygon [p] and the half gradient [h]. *)
Definition area_grad_step (p : Poly2.t) (h : Q) (i : Z) : Poly2.t -> Poly2.t :=
  Point2_x (vertex (@this Poly2.t) i) -:= (h * Point2.y p.[i - 1]) ;;
  Point2_y (vertex (@this Poly2.t) i) +:= (h * Point2.x p.[i - 1]) ;;
  Point2_x (vertex (@this Poly2.t) (i - 1)) +:= (h * Point2.y p.[i]) ;;
  Point2_y (vertex (@this Poly2.t) (i - 1)) -:= (h * Point2.x p.[i]).

Local Close Scope adj_scope.

(** What the iteration [i] adds to the [x] and to the [y] gradient of the
    vertex [j]. *)
Definition step_x (p : Poly2.t) (h : Q) (i j : Z) : Q :=
  (if (i =? j)%Z then - (h * Point2.y p.[i - 1]) else 0)
  + (if (i - 1 =? j)%Z then h * Point2.y p.[i] else 0).

Definition step_y (p : Poly2.t) (h : Q) (i j : Z) : Q :=
  (if (i =? j)%Z then h * Point2.x p.[i - 1] else 0)
  + (if (i - 1 =? j)%Z then - (h * Point2.x p.[i]) else 0).

(** ** Lines, boxes and polygons: incidence and inclusion *)

(** The value [a*x + b*y + c] of the equation of [l] at [p]. *)
Definition line_value (l : Line2.t) (p : Point2.t) : Q :=
  Line2.a l * Point2.x p + Line2.b l * Point2.y p + Line2.c l.

(** A line whose coefficients [a] and [b] are not both zero. *)
Definition proper_line (l : Line2.t) : Prop := ~ Line2.a l == 0 \/ ~ Line2.b l == 0.

(** [inner] lies inside [outer], borders included. *)
Definition AABox2_within (inner outer : AABox2.t) : Prop :=
  AABox2.min_x outer <= AABox2.min_x inner /\ AABox2.max_x inner <= AABox2.max_x outer /\
  AABox2.min_y outer <= AABox2.min_y inner /\ AABox2.max_y inner <= AABox2.max_y outer.

(** The vertex [i] of [p] lies in the box [b], borders included. *)
Definition box_bounds (p : Poly2.t) (b : AABox2.t) (i : Z) : Prop :=
  AABox2.min_x b <= Point2.x p.[i] /\ Point2.x p.[i] <= AABox2.max_x b /\
  AABox2.min_y b <= Point2.y p.[i] /\ Point2.y p.[i] <= AABox2.max_y b.

(** The extreme coordinates and the indices found by [find_extremes] among
    the first [k] vertices, against a box [b]. *)
Definition extremes_attained (p : Poly2.t) (e : extremes) (b : AABox2.t) (k : Z) : Prop :=
  ((0 <= imax_x e < k)%Z /\ (0 <= imin_x e < k)%Z /\
   (0 <= imax_y e < k)%Z /\ (0 <= imin_y e < k)%Z) /\
  (e_max_x e = AABox2.max_x b /\ e_min_x e = AABox2.min_x b /\
   e_max_y e = AABox2.max_y b /\ e_min_y e = AABox2.min_y b) /\
  (Point2.x p.[imax_x e] = AABox2.max_x b /\ Point2.x p.[imin_x e] = AABox2.min_x b /\
   Point2.y p.[imax_y e] = AABox2.max_y b /\ Point2.y p.[imin_y e] = AABox2.min_y b).

(** The signed distance from [t] to the edge of [p] that starts at vertex [j]. *)
Definition edge_distance (hypot : Q -> Q -> Q) (p : Poly2.t) (t : Point2.t) (j : Z) : Q :=
  distance_sp hypot (segment2_from_pp p.[j] p.[_mod_inc j (Poly2.nvertices p)]) t.

(** The state of the caliper loop of [dimension] keeps its indices in range,
    and its largest distance is the distance between the two vertices it
    records, or is still the initial [0] with the initial flags. *)
Definition caliper_ok (hypot : Q -> Q -> Q) (p : Poly2.t) (flag1 flag2 : Z) (st : caliper)
    : Prop :=
  let n := Poly2.nvertices p in
  (0 <= cal_v st < n)%Z /\ (0 <= cal_vnext st < n)%Z /\
  ((cal_dmax st = 0 /\ cal_flag1 st = flag1 /\ cal_flag2 st = flag2) \/
   ((0 <= cal_flag1 st < n)%Z /\ (0 <= cal_flag2 st < n)%Z /\
    cal_dmax st = distance_pp hypot p.[cal_flag1 st] p.[cal_flag2 st])).

(** ** Results under construction *)

(** The vertex a flag of [merge] names. *)
Definition flagged_vertex (p1 p2 : Poly2.t) (f : Z) : Point2.t :=
  if from_p1 f then p1.[flag_index f] else p2.[flag_index f].

(** The hull of [merge] under construction, with room for [c] more points:
    one write into [mflags] per vertex, at the position of the vertex, and
    every stored vertex is the one its flag names. *)
Definition hull_inv (p1 p2 : Poly2.t) (c : nat) (h : hull) : Prop :=
  let cap := (length (Poly2.vertices p1) + length (Poly2.vertices p2))%nat in
  let (r, w) := h in
  (length w + c <= 255)%nat /\
  Poly2.nvertices r = Z.of_nat (length w) /\
  Poly2.capacity r = Z.of_nat cap /\
  map fst w = indices (Z.of_nat (length w)) /\
  forall k, (0 <= k < Z.of_nat (length w))%Z -> (k < Z.of_nat cap)%Z ->
            r.[k] = flagged_vertex p1 p2 (flag_at (flags_buffer cap w) k).

(** A call that returns a hull satisfying [inv], or stops at an assertion. *)
Definition ends_with (inv : nat -> hull -> Prop) (r : outcome hull) : Prop :=
  match r with
  | Ret h => exists c, inv c h
  | Abort => True
  | Fuel => False
  end.

(** The result of the rotating-caliper [intersect] under construction: one
    flag per vertex, within the capacity [cap]. *)
Definition result_ok (cap : Z) (st : Poly2.t * list Z) : Prop :=
  Poly2.nvertices (fst st) = Z.of_nat (length (snd st)) /\
  (Poly2.nvertices (fst st) <= Poly2.capacity (fst st))%Z /\
  Poly2.capacity (fst st) = cap.

(** ** Inner products of a gradient with a value of the same type *)

Definition dot_Point2 (g p : Point2.t) : Q := Point2.x g * Point2.x p + Point2.y g * Point2.y p.

Definition dot_Line2 (g l : Line2.t) : Q :=
  Line2.a g * Line2.a l + Line2.b g * Line2.b l + Line2.c g * Line2.c l.

Definition dot_AABox2 (g u : AABox2.t) : Q :=
  AABox2.min_x g * AABox2.min_x u + AABox2.max_x g * AABox2.max_x u
  + AABox2.min_y g * AABox2.min_y u + AABox2.max_y g * AABox2.max_y u.

(** The inner product over the first [n] vertices. *)
Definition dot_Poly2 (n : Z) (g p : Poly2.t) : Q :=
  sumZ 0 n (fun i => dot_Point2 g.[i] p.[i]).

(** The part of the shoelace term of the edge [(i, j)] of [p + d] that is
    linear in [p] and in [d]. *)
Definition mixed (p d : Poly2.t) (i j : Z) : Q := wedge p.[i] d.[j] + wedge d.[i] p.[j].




(** ** Concrete polygons

    The polygons below have integer vertices, listed counter-clockwise; the
    scalar type is [double] and the [<cmath>] functions are the reference
    instances. *)

Definition pt (u v : Z) : Point2.t := Point2.mk (inject_Z u) (inject_Z v).

(** A triangle and a quadrilateral. *)
Definition triangle_a : Poly2.t := poly_of_list 3 [pt 5 (-5); pt 3 (-1); pt (-3) 1].

Definition triangle_b : Poly2.t := poly_of_list 3 [pt (-4) 3; pt (-3) (-2); pt 6 2].

Definition quad_c : Poly2.t := poly_of_list 4 [pt (-2) 6; pt (-5) (-1); pt (-1) (-4); pt 5 (-3)].

(** A triangle inside [quad_c]. *)
Definition triangle_c : Poly2.t := poly_of_list 3 [pt 2 0; pt (-1) 1; pt (-2) (-2)].

(** Axis-aligned squares whose first vertex is the top-left one. *)
Definition square2 : Poly2.t := poly_of_list 4 [pt 0 2; pt 0 0; pt 2 0; pt 2 2].

Definition square4 : Poly2.t := poly_of_list 4 [pt 0 4; pt 0 0; pt 4 0; pt 4 4].

Definition triangle_d : Poly2.t := poly_of_list 3 [pt (-2) (-1); pt 1 (-2); pt 4 3].

Definition triangle_e : Poly2.t := poly_of_list 3 [pt 2 3; pt (-1) 1; pt 5 2].

(** A polygon with nine vertices and a triangle inside it. *)
Definition nonagon : Poly2.t :=
  poly_of_list 9 [pt (-8) (-2); pt (-6) (-7); pt 3 (-3); pt 5 (-1); pt 7 2;
                  pt 5 6; pt 0 8; pt (-6) 6; pt (-7) 5].

Definition triangle_f : Poly2.t := poly_of_list 3 [pt 0 1; pt (-1) (-1); pt 1 0].

(** [square2] listed from its top-right vertex. *)
Definition square2' : Poly2.t := poly_of_list 4 [pt 2 2; pt 0 2; pt 0 0; pt 2 0].

(** The diameter of the hull of [triangle_a] and [triangle_b], as the
    reference [hypot] gives it (a lower approximation of the square root
    of 145). *)
Definition diameter_ab : Q := 12041594578792295 # 1000000000000000.

(** * Properties *)

(** ** Comparisons and loops *)

Lemma Qltb_lt (u v : Q) : Qltb u v = true <-> u < v.
Proof.
  unfold Qltb. rewrite negb_true_iff, <- not_true_iff_false, Qle_bool_iff.
  split; [apply Qnot_le_lt | apply Qlt_not_le].
Qed.

Lemma Qltb_ge (u v : Q) : Qltb u v = false <-> v <= u.
Proof.
  unfold Qltb. rewrite negb_false_iff, Qle_bool_iff. reflexivity.
Qed.

Lemma Qltb_spec (u v : Q) : Qltb_case u v (Qltb u v).
Proof.
  destruct (Qltb u v) eqn:E; constructor.
  - now apply Qltb_lt.
  - now apply Qltb_ge.
Qed.

Lemma Qltb_irrefl (u : Q) : Qltb u u = false.
Proof. apply Qltb_ge. apply Qle_refl. Qed.

Lemma Qltb_asym (u v : Q) : Qltb u v = true -> Qltb v u = false.
Proof. rewrite Qltb_lt, Qltb_ge. apply Qlt_le_weak. Qed.

(** Case analysis on the innermost comparisons of the goal. *)
Ltac case_Qltb :=
  repeat match goal with
         | |- context [Qltb ?u ?v] =>
             lazymatch u with context [Qltb _ _] => fail | _ => idtac end;
             lazymatch v with context [Qltb _ _] => fail | _ => idtac end;
             destruct (Qltb_spec u v)
         end.

Lemma for_loop_empty (S : Type) (lo hi : Z) (body : Z -> S -> S) (s : S) :
  (hi <= lo)%Z -> for_loop lo hi body s = s.
Proof.
  intros H. unfold for_loop.
  replace (Z.to_nat (hi - lo)) with O by lia. reflexivity.
Qed.

Lemma for_loop_first (S : Type) (lo hi : Z) (body : Z -> S -> S) (s : S) :
  (lo < hi)%Z -> for_loop lo hi body s = for_loop (lo + 1) hi body (body lo s).
Proof.
  intros H. unfold for_loop.
  replace (Z.to_nat (hi - lo)) with (Datatypes.S (Z.to_nat (hi - (lo + 1)))) by lia.
  reflexivity.
Qed.

Lemma iter_from_last (S : Type) (body : Z -> S -> S) (count : nat) :
  forall (i : Z) (s : S),
    iter_from body i (Datatypes.S count) s
    = body (i + Z.of_nat count)%Z (iter_from body i count s).
Proof.
  induction count as [|k IH]; intros i s.
  - simpl. now rewrite Z.add_0_r.
  - change (iter_from body i (Datatypes.S (Datatypes.S k)) s)
      with (iter_from body (i + 1)%Z (Datatypes.S k) (body i s)).
    rewrite IH. simpl iter_from at 2.
    f_equal. lia.
Qed.

Lemma for_loop_last (S : Type) (lo hi : Z) (body : Z -> S -> S) (s : S) :
  (lo <= hi)%Z -> for_loop lo (hi + 1) body s = body hi (for_loop lo hi body s).
Proof.
  intros H. unfold for_loop.
  replace (Z.to_nat (hi + 1 - lo)) with (Datatypes.S (Z.to_nat (hi - lo))) by lia.
  rewrite iter_from_last. f_equal. lia.
Qed.

(** A loop invariant: [P] at the entry, preserved by every iteration. *)
Lemma for_loop_invariant (S : Type) (P : Z -> S -> Prop) (lo hi : Z) (body : Z -> S -> S) (s : S) :
  (lo <= hi)%Z ->
  P lo s ->
  (forall i st, (lo <= i < hi)%Z -> P i st -> P (i + 1)%Z (body i st)) ->
  P hi (for_loop lo hi body s).
Proof.
  intros Hle H0 Hstep.
  assert (G : forall k : nat, (lo + Z.of_nat k <= hi)%Z ->
              P (lo + Z.of_nat k)%Z (for_loop lo (lo + Z.of_nat k) body s)).
  { induction k as [|k IH]; intros Hk.
    - rewrite Z.add_0_r, for_loop_empty by lia. exact H0.
    - replace (lo + Z.of_nat (Datatypes.S k))%Z with (lo + Z.of_nat k + 1)%Z by lia.
      rewrite for_loop_last by lia. apply Hstep; [lia | apply IH; lia]. }
  specialize (G (Z.to_nat (hi - lo))).
  replace (lo + Z.of_nat (Z.to_nat (hi - lo)))%Z with hi in G by lia.
  apply G. lia.
Qed.

(** ** Axis-aligned boxes and polygons: the round trip *)

(** C9. Converting an axis-aligned box that satisfies its contract
    ([max_x >= min_x], [max_y >= min_y]) to its four-vertex polygon and back
    gives a box whose four coordinates equal those of the original. *)
Theorem aabox2_poly2_roundtrip (a : AABox2.t) :
  AABox2.wf a ->
  AABox2.eq (aabox2_from_poly2 (poly2_from_aabox2 a)) a.
Proof.
  intros [Hx Hy]. destruct a as [mx Mx my My]; simpl in *.
  unfold aabox2_from_poly2, poly2_from_aabox2, for_loop, AABox2.eq, _min, _max, Qgtb.
  simpl. unfold Poly2.get. simpl.
  case_Qltb; simpl; repeat split; lra.
Qed.

Lemma aabox2_poly2_roundtrip_witness :
  AABox2.wf (AABox2.mk 1 3 (-2) 5) /\
  AABox2.eq (aabox2_from_poly2 (poly2_from_aabox2 (AABox2.mk 1 3 (-2) 5))) (AABox2.mk 1 3 (-2) 5).
Proof.
  assert (W : AABox2.wf (AABox2.mk 1 3 (-2) 5)) by (split; simpl; lra).
  split; [exact W | exact (aabox2_poly2_roundtrip W)].
Defined.

(** ** Sums over index ranges *)

Lemma sumZ_empty (lo hi : Z) (f : Z -> Q) : (hi <= lo)%Z -> sumZ lo hi f = 0.
Proof. intros H. unfold sumZ. now rewrite for_loop_empty. Qed.

Lemma sumZ_last (lo hi : Z) (f : Z -> Q) :
  (lo <= hi)%Z -> sumZ lo (hi + 1) f = sumZ lo hi f + f hi.
Proof. intros H. unfold sumZ. now rewrite for_loop_last. Qed.

(** Induction on the upper bound of a range. *)
Lemma range_ind (lo : Z) (P : Z -> Prop) :
  P lo -> (forall hi, (lo <= hi)%Z -> P hi -> P (hi + 1)%Z) ->
  forall hi, (lo <= hi)%Z -> P hi.
Proof.
  intros H0 Hs hi Hle.
  replace hi with (lo + Z.of_nat (Z.to_nat (hi - lo)))%Z by lia.
  induction (Z.to_nat (hi - lo)) as [|k IH].
  - now rewrite Z.add_0_r.
  - replace (lo + Z.of_nat (S k))%Z with (lo + Z.of_nat k + 1)%Z by lia.
    apply Hs; [lia | exact IH].
Qed.

Lemma for_loop_sum (lo hi : Z) (f : Z -> Q) (s0 : Q) :
  (lo <= hi)%Z -> for_loop lo hi (fun i acc => acc + f i) s0 == s0 + sumZ lo hi f.
Proof.
  revert hi. apply range_ind.
  - rewrite for_loop_empty, sumZ_empty by lia. ring.
  - intros hi Hle IH. rewrite for_loop_last, sumZ_last by lia. rewrite IH. ring.
Qed.

Lemma sumZ_ext (lo hi : Z) (f g : Z -> Q) :
  (lo <= hi)%Z -> (forall i, (lo <= i < hi)%Z -> f i == g i) -> sumZ lo hi f == sumZ lo hi g.
Proof.
  revert hi. apply (@range_ind lo (fun hi => (forall i, (lo <= i < hi)%Z -> f i == g i) ->
                                           sumZ lo hi f == sumZ lo hi g)).
  - intros _. repeat (rewrite sumZ_empty by lia). reflexivity.
  - intros hi Hle IH Hfg. repeat (rewrite sumZ_last by lia).
    rewrite IH, (Hfg hi) by (intros; try apply Hfg; lia). reflexivity.
Qed.

Lemma sumZ_plus (lo hi : Z) (f g : Z -> Q) :
  (lo <= hi)%Z -> sumZ lo hi (fun i => f i + g i) == sumZ lo hi f + sumZ lo hi g.
Proof.
  revert hi. apply range_ind.
  - repeat (rewrite sumZ_empty by lia). ring.
  - intros hi Hle IH. repeat (rewrite sumZ_last by lia). rewrite IH. ring.
Qed.

Lemma sumZ_telescope (lo hi : Z) (g : Z -> Q) :
  (lo <= hi)%Z -> sumZ (lo + 1) (hi + 1) (fun i => g i - g (i - 1)%Z) == g hi - g lo.
Proof.
  revert hi. apply range_ind.
  - rewrite sumZ_empty by lia. ring.
  - intros hi Hle IH. rewrite sumZ_last by lia. rewrite IH.
    replace (hi + 1 - 1)%Z with hi by lia. ring.
Qed.

Lemma sumZ_shift (lo hi : Z) (f : Z -> Q) :
  (lo <= hi)%Z -> sumZ (lo + 1) (hi + 1) (fun i => f (i - 1)%Z) == sumZ lo hi f.
Proof.
  revert hi. apply range_ind.
  - repeat (rewrite sumZ_empty by lia). reflexivity.
  - intros hi Hle IH.
    rewrite (@sumZ_last (lo + 1) (hi + 1)), (@sumZ_last lo hi f) by lia. rewrite IH.
    replace (hi + 1 - 1)%Z with hi by lia. reflexivity.
Qed.

Lemma sumZ_nonneg (lo hi : Z) (f : Z -> Q) :
  (lo <= hi)%Z -> (forall i, (lo <= i < hi)%Z -> 0 <= f i) -> 0 <= sumZ lo hi f.
Proof.
  revert hi. apply (@range_ind lo (fun hi => (forall i, (lo <= i < hi)%Z -> 0 <= f i) ->
                                           0 <= sumZ lo hi f)).
  - intros _. rewrite sumZ_empty by lia. lra.
  - intros hi Hle IH Hf. rewrite sumZ_last by lia.
    assert (0 <= sumZ lo hi f) by (apply IH; intros; apply Hf; lia).
    assert (0 <= f hi) by (apply Hf; lia). lra.
Qed.

Lemma sumZ_pos (lo hi j : Z) (f : Z -> Q) :
  (lo <= j < hi)%Z -> (forall i, (lo <= i < hi)%Z -> 0 <= f i) -> 0 < f j -> 0 < sumZ lo hi f.
Proof.
  intros Hj. assert (Hle : (j + 1 <= hi)%Z) by lia. revert hi Hle Hj.
  apply (@range_ind (j + 1) (fun hi => (lo <= j < hi)%Z ->
           (forall i, (lo <= i < hi)%Z -> 0 <= f i) -> 0 < f j -> 0 < sumZ lo hi f)).
  - intros Hj Hf Hpos. rewrite sumZ_last by lia.
    assert (0 <= sumZ lo j f) by (apply sumZ_nonneg; [lia | intros; apply Hf; lia]). lra.
  - intros hi Hle IH Hj Hf Hpos. rewrite sumZ_last by lia.
    assert (0 < sumZ lo hi f) by (apply IH; [lia | intros; apply Hf; lia | exact Hpos]).
    assert (0 <= f hi) by (apply Hf; lia). lra.
Qed.

(** ** Area *)

Lemma area_edge_sum (p : Poly2.t) :
  (3 <= Poly2.nvertices p)%Z -> area p == edge_sum p wedge / 2.
Proof.
  intros Hn. unfold area, edge_sum.
  destruct (Z.leb_spec (Poly2.nvertices p) 2) as [H|H]; [lia|].
  rewrite for_loop_sum by lia. unfold wedge.
  apply Qmult_comp; [|reflexivity].
  apply Qplus_comp; [ring | reflexivity].
Qed.

Lemma edge_sum_shoelace (p : Poly2.t) :
  (1 <= Poly2.nvertices p)%Z -> edge_sum p wedge == shoelace p.
Proof.
  intros Hn. unfold edge_sum, shoelace. set (n := Poly2.nvertices p) in *.
  set (F := fun i => Point2.x p.[i] * Point2.y p.[(i + 1) mod n]
                     - Point2.x p.[(i + 1) mod n] * Point2.y p.[i]).
  pose proof (@sumZ_last 0 (n - 1) F ltac:(lia)) as E.
  replace (n - 1 + 1)%Z with n in E by lia. rewrite E.
  pose proof (@sumZ_shift 0 (n - 1) F ltac:(lia)) as Sh.
  replace (n - 1 + 1)%Z with n in Sh by lia. replace (0 + 1)%Z with 1%Z in Sh by lia.
  rewrite <- Sh. rewrite Qplus_comm. apply Qplus_comp.
  - apply sumZ_ext; [lia|]. intros i Hi. unfold F, wedge.
    replace ((i - 1 + 1) mod n)%Z with i by (rewrite Z.sub_add, Z.mod_small; lia).
    reflexivity.
  - unfold F, wedge.
    replace ((n - 1 + 1) mod n)%Z with 0%Z by (rewrite Z.sub_add, Z.mod_same; lia).
    reflexivity.
Qed.

(** The fan decomposition: the shoelace sum is the sum of the cross products
    of the edges with any fixed point. *)
Lemma edge_sum_cross (p : Poly2.t) (t : Point2.t) :
  (1 <= Poly2.nvertices p)%Z ->
  edge_sum p (fun u v => _cross u v t) == edge_sum p wedge.
Proof.
  intros Hn. unfold edge_sum. set (n := Poly2.nvertices p) in *.
  set (g := fun i => wedge p.[i] t).
  assert (E : forall u v, _cross u v t == wedge u v + (wedge v t - wedge u t)).
  { intros u v. unfold _cross, wedge. ring. }
  assert (E1 : sumZ 1 n (fun i => _cross p.[i - 1] p.[i] t)
               == sumZ 1 n (fun i => wedge p.[i - 1] p.[i])
                  + sumZ 1 n (fun i => g i - g (i - 1)%Z)).
  { rewrite <- sumZ_plus by lia. apply sumZ_ext; [lia|]. intros i _. apply E. }
  pose proof (@sumZ_telescope 0 (n - 1) g ltac:(lia)) as T.
  replace (0 + 1)%Z with 1%Z in T by lia. replace (n - 1 + 1)%Z with n in T by lia.
  rewrite E1, T, E. unfold g. ring.
Qed.

Lemma edge_sum_convex_pos (p : Poly2.t) :
  (1 <= Poly2.nvertices p)%Z -> ccw_convex p -> 0 < edge_sum p wedge.
Proof.
  intros Hn [Hconv (i & k & Hi & Hk & Hpos)].
  rewrite <- (edge_sum_cross p p.[k]) by exact Hn.
  unfold edge_sum. set (n := Poly2.nvertices p) in *.
  assert (Hhead : 0 <= _cross p.[n - 1] p.[0] p.[k]).
  { specialize (Hconv (n - 1)%Z k ltac:(lia) Hk).
    now replace ((n - 1 + 1) mod n)%Z with 0%Z in Hconv by (rewrite Z.sub_add, Z.mod_same; lia). }
  assert (Htail : forall j, (1 <= j < n)%Z -> 0 <= _cross p.[j - 1] p.[j] p.[k]).
  { intros j Hj. specialize (Hconv (j - 1)%Z k ltac:(lia) Hk).
    now replace ((j - 1 + 1) mod n)%Z with j in Hconv by (rewrite Z.sub_add, Z.mod_small; lia). }
  destruct (Z.eq_dec i (n - 1)) as [-> | Hne].
  - replace ((n - 1 + 1) mod n)%Z with 0%Z in Hpos by (rewrite Z.sub_add, Z.mod_same; lia).
    pose proof (@sumZ_nonneg 1 n (fun j => _cross p.[j - 1] p.[j] p.[k]) ltac:(lia) Htail). lra.
  - replace ((i + 1) mod n)%Z with (i + 1)%Z in Hpos by (rewrite Z.mod_small; lia).
    assert (0 < sumZ 1 n (fun j => _cross p.[j - 1] p.[j] p.[k])).
    { apply (@sumZ_pos 1 n (i + 1)); [lia | exact Htail |].
      now replace (i + 1 - 1)%Z with i by lia. }
    lra.
Qed.

(** C4. [area p] is 0 for a polygon with fewer than three vertices;
    otherwise it is the signed shoelace sum of the vertices divided by two,
    and that value is positive when the vertices are listed counter-clockwise
    around a convex region. *)
Theorem area_shoelace (p : Poly2.t) :
  ((Poly2.nvertices p < 3)%Z -> area p = 0) /\
  ((3 <= Poly2.nvertices p)%Z ->
     area p == shoelace p / 2 /\ (ccw_convex p -> 0 < area p)).
Proof.
  split.
  - intros Hn. unfold area.
    destruct (Z.leb_spec (Poly2.nvertices p) 2) as [H|H]; [reflexivity | lia].
  - intros Hn. pose proof (area_edge_sum p Hn) as E. split.
    + rewrite E, edge_sum_shoelace by lia. reflexivity.
    + intros Hc. rewrite E.
      pose proof (@edge_sum_convex_pos p ltac:(lia) Hc).
      apply Qlt_shift_div_l; [reflexivity | lra].
Qed.

(** ** Gradient accumulators: the laws of [azero] *)

#[export] Instance AccumLaws_Q : AccumLaws Q.
Proof. split; intros; reflexivity. Qed.

Lemma coord_Point2_zero (k : bool) : coord_Point2 Point2.zero k == 0.
Proof. destruct k; reflexivity. Qed.

#[export] Instance AccumLaws_Point2 : AccumLaws Point2.t.
Proof. split; intros; [reflexivity | apply coord_Point2_zero]. Qed.

Lemma coord_Line2_zero (k : nat) : coord_Line2 Line2.zero k == 0.
Proof. destruct k as [|[|[|k]]]; reflexivity. Qed.

#[export] Instance AccumLaws_Line2 : AccumLaws Line2.t.
Proof. split; intros; [reflexivity | apply coord_Line2_zero]. Qed.

Lemma coord_Segment2_zero (k : nat) : coord_Segment2 Segment2.zero k == 0.
Proof. destruct k as [|[|[|[|k]]]]; reflexivity. Qed.

#[export] Instance AccumLaws_Segment2 : AccumLaws Segment2.t.
Proof. split; intros; [reflexivity | apply coord_Segment2_zero]. Qed.

Lemma coord_AABox2_zero (k : nat) : coord_AABox2 AABox2.zero k == 0.
Proof. destruct k as [|[|[|[|k]]]]; reflexivity. Qed.

#[export] Instance AccumLaws_AABox2 : AccumLaws AABox2.t.
Proof. split; intros; [reflexivity | apply coord_AABox2_zero]. Qed.

Lemma zero_Poly2_idem (g : Poly2.t) : zero_Poly2 (zero_Poly2 g) = zero_Poly2 g.
Proof. unfold zero_Poly2, Poly2.empty. simpl. now rewrite repeat_length. Qed.

Lemma nth_repeat_zero (n i : nat) : nth i (repeat Point2.zero n) Point2.zero = Point2.zero.
Proof.
  revert i. induction n as [|n IH]; intros [|i]; simpl; auto.
Qed.

Lemma coord_Poly2_zero (g : Poly2.t) (k : nat * bool) : coord_Poly2 (zero_Poly2 g) k == 0.
Proof.
  unfold coord_Poly2, zero_Poly2, Poly2.empty. simpl.
  rewrite nth_repeat_zero. apply coord_Point2_zero.
Qed.

#[export] Instance AccumLaws_Poly2 : AccumLaws Poly2.t.
Proof. split; [apply zero_Poly2_idem | apply coord_Poly2_zero]. Qed.

#[export] Instance AccumLaws_prod (A B : Type) {accA : Accum A} {accB : Accum B}
    {lawA : AccumLaws A} {lawB : AccumLaws B} : AccumLaws (A * B).
Proof.
  split.
  - intros s. simpl. unfold zero_prod. simpl. now rewrite !azero_idem.
  - intros s [i|j]; simpl; apply coord_azero.
Qed.

(** ** Accumulation: composition of store transformers *)

Section Accumulation.

Context (S : Type) {accS : Accum S} {lawS : AccumLaws S}.

Lemma accumulates_ext (F G : S -> S) :
  (forall s, F s = G s) -> accumulates G -> accumulates F.
Proof.
  intros E HG s. rewrite !E. apply HG.
Qed.

Lemma accumulates_skip : accumulates (@skip S).
Proof.
  intros s. unfold skip. split; [reflexivity|].
  intros k. rewrite coord_azero. ring.
Qed.

Lemma accumulates_seq (F G : S -> S) :
  accumulates F -> accumulates G -> accumulates (seq2 F G).
Proof.
  intros HF HG s. unfold seq2.
  destruct (HF s) as [ZF CF]. destruct (HG (F s)) as [ZG CG].
  destruct (HF (azero s)) as [ZF0 CF0]. destruct (HG (F (azero s))) as [ZG0 CG0].
  split; [congruence|].
  intros k. rewrite CG, CF, CG0.
  rewrite ZF, ZF0, azero_idem. ring.
Qed.

Lemma accumulates_if (b : bool) (F G : S -> S) :
  accumulates F -> accumulates G -> accumulates (if b then F else G).
Proof. now destruct b. Qed.

Lemma accumulates_iter (body : Z -> S -> S) (count : nat) :
  (forall i, accumulates (body i)) -> forall i, accumulates (iter_from body i count).
Proof.
  intros Hb. induction count as [|c IH]; intros i.
  - apply accumulates_skip.
  - apply accumulates_ext with (G := seq2 (body i) (iter_from body (i + 1)%Z c)).
    + reflexivity.
    + apply accumulates_seq; [apply Hb | apply IH].
Qed.

Lemma accumulates_for (lo hi : Z) (body : Z -> S -> S) :
  (forall i, accumulates (body i)) -> accumulates (for_loop lo hi body).
Proof. intros Hb. apply accumulates_iter. exact Hb. Qed.

End Accumulation.

(** ** Linear references *)

Lemma length_list_upd (A : Type) (f : A -> A) (l : list A) :
  forall n, length (list_upd l n f) = length l.
Proof.
  induction l as [|v r IH]; intros [|n]; simpl; auto.
Qed.

Lemma length_array_upd (A : Type) (f : A -> A) (l : list A) (i : Z) :
  length (array_upd l i f) = length l.
Proof.
  unfold array_upd. destruct (i <? 0)%Z; [reflexivity | apply length_list_upd].
Qed.

Lemma nth_list_upd (A : Type) (f : A -> A) (d : A) (l : list A) :
  forall n j,
    nth j (list_upd l n f) d
    = if (Nat.eqb n j && Nat.ltb j (length l))%bool then f (nth j l d) else nth j l d.
Proof.
  induction l as [|v r IH]; intros [|n] [|j]; simpl; auto;
    rewrite ?andb_false_r; reflexivity.
Qed.

Lemma nth_array_upd (A : Type) (f : A -> A) (d : A) (l : list A) (i : Z) (j : nat) :
  nth j (array_upd l i f) d = if hits i j (length l) then f (nth j l d) else nth j l d.
Proof.
  unfold array_upd, hits. destruct (i <? 0)%Z; simpl; [reflexivity|].
  apply nth_list_upd.
Qed.

Section LinearRefs.

Context (S : Type) {accS : Accum S} {lawS : AccumLaws S}.

Lemma linear_this (A : Type) {accA : Accum A} : linear (@this A).
Proof. intros f Hf. exact Hf. Qed.

(** The modifier [f] of a scalar cell adds [f 0]. *)
Lemma scalar_accumulates (f : Q -> Q) : accumulates f -> forall v, f v == v + f 0.
Proof. intros Hf v. destruct (Hf v) as [_ C]. exact (C tt). Qed.

Ltac member_tac Hr Hf :=
  apply Hr; intros u; split; [reflexivity|];
  intros k; pose proof (scalar_accumulates Hf) as C;
  destruct u; simpl; repeat (destruct k as [|k]; simpl; try (rewrite C; ring); try ring).

Lemma linear_Point2_x (r : ref S Point2.t) : linear r -> linear (Point2_x r).
Proof.
  intros Hr f Hf. unfold Point2_x. apply Hr. intros u. split; [reflexivity|].
  intros k. pose proof (scalar_accumulates Hf) as C.
  destruct u, k; simpl; try (rewrite C); ring.
Qed.

Lemma linear_Point2_y (r : ref S Point2.t) : linear r -> linear (Point2_y r).
Proof.
  intros Hr f Hf. unfold Point2_y. apply Hr. intros u. split; [reflexivity|].
  intros k. pose proof (scalar_accumulates Hf) as C.
  destruct u, k; simpl; try (rewrite C); ring.
Qed.

Lemma linear_Line2_a (r : ref S Line2.t) : linear r -> linear (Line2_a r).
Proof. intros Hr f Hf. unfold Line2_a. member_tac Hr Hf. Qed.

Lemma linear_Line2_b (r : ref S Line2.t) : linear r -> linear (Line2_b r).
Proof. intros Hr f Hf. unfold Line2_b. member_tac Hr Hf. Qed.

Lemma linear_Line2_c (r : ref S Line2.t) : linear r -> linear (Line2_c r).
Proof. intros Hr f Hf. unfold Line2_c. member_tac Hr Hf. Qed.

Lemma linear_Segment2_x1 (r : ref S Segment2.t) : linear r -> linear (Segment2_x1 r).
Proof. intros Hr f Hf. unfold Segment2_x1. member_tac Hr Hf. Qed.

Lemma linear_Segment2_y1 (r : ref S Segment2.t) : linear r -> linear (Segment2_y1 r).
Proof. intros Hr f Hf. unfold Segment2_y1. member_tac Hr Hf. Qed.

Lemma linear_Segment2_x2 (r : ref S Segment2.t) : linear r -> linear (Segment2_x2 r).
Proof. intros Hr f Hf. unfold Segment2_x2. member_tac Hr Hf. Qed.

Lemma linear_Segment2_y2 (r : ref S Segment2.t) : linear r -> linear (Segment2_y2 r).
Proof. intros Hr f Hf. unfold Segment2_y2. member_tac Hr Hf. Qed.

Lemma linear_AABox2_min_x (r : ref S AABox2.t) : linear r -> linear (AABox2_min_x r).
Proof. intros Hr f Hf. unfold AABox2_min_x. member_tac Hr Hf. Qed.

Lemma linear_AABox2_max_x (r : ref S AABox2.t) : linear r -> linear (AABox2_max_x r).
Proof. intros Hr f Hf. unfold AABox2_max_x. member_tac Hr Hf. Qed.

Lemma linear_AABox2_min_y (r : ref S AABox2.t) : linear r -> linear (AABox2_min_y r).
Proof. intros Hr f Hf. unfold AABox2_min_y. member_tac Hr Hf. Qed.

Lemma linear_AABox2_max_y (r : ref S AABox2.t) : linear r -> linear (AABox2_max_y r).
Proof. intros Hr f Hf. unfold AABox2_max_y. member_tac Hr Hf. Qed.

Lemma linear_vertex (r : ref S Poly2.t) (i : Z) : linear r -> linear (vertex r i).
Proof.
  intros Hr f Hf. unfold vertex. apply Hr. intros g. split.
  - simpl. unfold zero_Poly2. simpl. now rewrite length_array_upd.
  - intros [j c]. simpl. unfold coord_Poly2, zero_Poly2, Poly2.empty. simpl.
    rewrite !nth_array_upd, repeat_length, nth_repeat_zero.
    destruct (hits i j (length (Poly2.vertices g))).
    + destruct (Hf (nth j (Poly2.vertices g) Point2.zero)) as [_ C]. exact (C c).
    + rewrite coord_Point2_zero. ring.
Qed.

(** Accumulation statements through linear references *)

Lemma accumulates_incr (r : ref S Q) (e : Q) : linear r -> accumulates (incr r e).
Proof.
  intros Hr. apply Hr. intros v. split; [reflexivity|]. intros k. simpl. ring.
Qed.

Lemma accumulates_decr (r : ref S Q) (e : Q) : linear r -> accumulates (decr r e).
Proof.
  intros Hr. apply Hr. intros v. split; [reflexivity|]. intros k. simpl. ring.
Qed.

Lemma accumulates_incr_point (r : ref S Point2.t) (e : Point2.t) :
  linear r -> accumulates (incr_point r e).
Proof.
  intros Hr. apply Hr. intros v. split; [reflexivity|].
  intros k. destruct v, e, k; simpl; ring.
Qed.

Lemma accumulates_assign_nvertices (r : ref S Poly2.t) (n : Z) :
  linear r -> accumulates (assign_nvertices r n).
Proof.
  intros Hr. apply Hr. intros g. split; [reflexivity|].
  intros k. simpl. unfold coord_Poly2, zero_Poly2, Poly2.empty. simpl.
  rewrite nth_repeat_zero, coord_Point2_zero. ring.
Qed.

(** A write through a linear reference after a store transformer. *)
Lemma accumulates_app (A : Type) {accA : Accum A} (r : ref S A) (f : A -> A) (F : S -> S) :
  linear r -> accumulates f -> accumulates F -> accumulates (fun s => r f (F s)).
Proof.
  intros Hr Hf HF. apply (accumulates_seq HF (Hr f Hf)).
Qed.

End LinearRefs.

Lemma linear_if (S A : Type) {accS : Accum S} {accA : Accum A} (b : bool) (r1 r2 : ref S A) :
  linear r1 -> linear r2 -> linear (if b then r1 else r2).
Proof. now destruct b. Qed.

Lemma linear_in_fst (S L A : Type) {accS : Accum S} {accL : Accum L} {accA : Accum A}
    {lawL : AccumLaws L} (r : ref S A) : linear r -> linear (in_fst (L := L) r).
Proof.
  intros Hr f Hf [s l]. unfold in_fst. simpl.
  destruct (Hr f Hf s) as [Zr Cr]. split.
  - unfold zero_prod. simpl. now rewrite Zr.
  - intros [i|j]; simpl.
    + apply Cr.
    + rewrite coord_azero. ring.
Qed.

Lemma linear_in_snd (S L A : Type) {accS : Accum S} {accL : Accum L} {accA : Accum A}
    {lawS : AccumLaws S} (r : ref L A) : linear r -> linear (in_snd (S := S) r).
Proof.
  intros Hr f Hf [s l]. unfold in_snd. simpl.
  destruct (Hr f Hf l) as [Zr Cr]. split.
  - unfold zero_prod. simpl. now rewrite Zr.
  - intros [i|j]; simpl.
    + rewrite coord_azero. ring.
    + apply Cr.
Qed.

(** ** Every adjoint function accumulates *)

Create HintDb accum.

#[export] Hint Extern 1 (AccumLaws _) => typeclasses eauto : accum.

#[export] Hint Resolve accumulates_skip accumulates_incr accumulates_decr
  accumulates_incr_point accumulates_assign_nvertices
  linear_this linear_if linear_in_fst linear_in_snd linear_vertex
  linear_Point2_x linear_Point2_y linear_Line2_a linear_Line2_b linear_Line2_c
  linear_Segment2_x1 linear_Segment2_y1 linear_Segment2_x2 linear_Segment2_y2
  linear_AABox2_min_x linear_AABox2_max_x linear_AABox2_min_y linear_AABox2_max_y : accum.

(** Follows the control structure of a store transformer down to its
    accumulation statements and calls. *)
Ltac accum :=
  cbv beta;
  lazymatch goal with
  | |- accumulates (let x := ?t in @?body x) =>
      let T := type of t in
      lazymatch T with
      | ref _ _ => change (accumulates (body t)); accum
      | _ => let v := fresh x in
             pose (v := t); change (accumulates (body v)); clearbody v; accum
      end
  | |- accumulates (seq2 _ _) => apply accumulates_seq; accum
  | |- accumulates (if _ then _ else _) => apply accumulates_if; accum
  | |- accumulates (for_loop _ _ _) => apply accumulates_for; accum
  | |- AccumLaws _ => typeclasses eauto
  | |- forall _, _ => intro; accum
  | |- _ => solve [eauto 12 with accum]
  end.

(** The modifiers of a cell that the accumulation statements reduce to. *)
Lemma cell_Point2_x_plus (e : Q) :
  accumulates (fun p => Point2.mk (Point2.x p + e) (Point2.y p)).
Proof. intros u. split; [reflexivity|]. intros k. destruct u, k; simpl; ring. Qed.

Lemma cell_Point2_x_minus (e : Q) :
  accumulates (fun p => Point2.mk (Point2.x p - e) (Point2.y p)).
Proof. intros u. split; [reflexivity|]. intros k. destruct u, k; simpl; ring. Qed.

Lemma cell_Point2_y_plus (e : Q) :
  accumulates (fun p => Point2.mk (Point2.x p) (Point2.y p + e)).
Proof. intros u. split; [reflexivity|]. intros k. destruct u, k; simpl; ring. Qed.

Lemma cell_Point2_y_minus (e : Q) :
  accumulates (fun p => Point2.mk (Point2.x p) (Point2.y p - e)).
Proof. intros u. split; [reflexivity|]. intros k. destruct u, k; simpl; ring. Qed.

Ltac cell_nat :=
  let u := fresh "u" in
  let k := fresh "k" in
  intros u; split; [reflexivity|];
  intros k; destruct u; simpl in k;
  do 5 (try destruct k as [|k]); simpl; ring.

Lemma cell_Segment2_x1_plus (e : Q) :
  accumulates (fun s => Segment2.mk (Segment2.x1 s + e) (Segment2.y1 s)
                                    (Segment2.x2 s) (Segment2.y2 s)).
Proof. cell_nat. Qed.

Lemma cell_Segment2_y1_plus (e : Q) :
  accumulates (fun s => Segment2.mk (Segment2.x1 s) (Segment2.y1 s + e)
                                    (Segment2.x2 s) (Segment2.y2 s)).
Proof. cell_nat. Qed.

Lemma cell_Segment2_x2_plus (e : Q) :
  accumulates (fun s => Segment2.mk (Segment2.x1 s) (Segment2.y1 s)
                                    (Segment2.x2 s + e) (Segment2.y2 s)).
Proof. cell_nat. Qed.

Lemma cell_Segment2_y2_plus (e : Q) :
  accumulates (fun s => Segment2.mk (Segment2.x1 s) (Segment2.y1 s)
                                    (Segment2.x2 s) (Segment2.y2 s + e)).
Proof. cell_nat. Qed.

#[export] Hint Resolve cell_Point2_x_plus cell_Point2_x_minus cell_Point2_y_plus
  cell_Point2_y_minus cell_Segment2_x1_plus cell_Segment2_y1_plus
  cell_Segment2_x2_plus cell_Segment2_y2_plus : accum.

(** A store transformer given as nested writes through references. *)
Ltac raw_accum :=
  lazymatch goal with
  | |- accumulates (fun s => s) => exact (@accumulates_skip _ _ _)
  | |- accumulates (fun s => ?r ?f (@?F s)) =>
      apply (accumulates_app (r := r) (f := f) (F := F));
      [ solve [auto with accum] | solve [auto with accum] | raw_accum ]
  end.

(** Runs the calls that write into local variables, leaving the writes
    into the store. *)
Ltac run_locals :=
  let st := fresh "st" in
  eapply accumulates_ext;
  [ intros st;
    cbv beta iota zeta delta
      [distance_grad_pp distance_grad_lp line2_from_segment2_grad line2_from_xyxy_grad
       segment2_from_pp_grad seq2 incr decr in_fst in_snd this fst snd
       Point2_x Point2_y Line2_a Line2_b Line2_c
       Segment2_x1 Segment2_y1 Segment2_x2 Segment2_y2];
    reflexivity
  | ].

Section AdjointAccumulates.

Variable hypot : Q -> Q -> Q.
Variable sin cos : Q -> Q.
Context (S : Type) {accS : Accum S} {lawS : AccumLaws S}.

Lemma _max_grad_accumulates (a b g : Q) (ga gb : ref S Q) :
  linear ga -> linear gb -> accumulates (_max_grad a b g ga gb).
Proof. intros. cbv delta [_max_grad]. accum. Qed.

Lemma _min_grad_accumulates (a b g : Q) (ga gb : ref S Q) :
  linear ga -> linear gb -> accumulates (_min_grad a b g ga gb).
Proof. intros. cbv delta [_min_grad]. accum. Qed.

Lemma line2_from_xyxy_grad_accumulates (x1 y1 x2 y2 : Q) (grad : Line2.t)
    (x1_grad y1_grad x2_grad y2_grad : ref S Q) :
  linear x1_grad -> linear y1_grad -> linear x2_grad -> linear y2_grad ->
  accumulates (line2_from_xyxy_grad x1 y1 x2 y2 grad x1_grad y1_grad x2_grad y2_grad).
Proof. intros. cbv delta [line2_from_xyxy_grad]. accum. Qed.

Hint Resolve _max_grad_accumulates _min_grad_accumulates line2_from_xyxy_grad_accumulates : accum.

Lemma line2_from_pp_grad_accumulates (p1 p2 : Point2.t) (grad : Line2.t)
    (grad_p1 grad_p2 : ref S Point2.t) :
  linear grad_p1 -> linear grad_p2 ->
  accumulates (line2_from_pp_grad p1 p2 grad grad_p1 grad_p2).
Proof. intros. cbv delta [line2_from_pp_grad]. accum. Qed.

Lemma segment2_from_pp_grad_accumulates (p1 p2 : Point2.t) (grad : Segment2.t)
    (grad_p1 grad_p2 : ref S Point2.t) :
  linear grad_p1 -> linear grad_p2 ->
  accumulates (segment2_from_pp_grad p1 p2 grad grad_p1 grad_p2).
Proof. intros. cbv delta [segment2_from_pp_grad]. accum. Qed.

Lemma line2_from_segment2_grad_accumulates (s : Segment2.t) (grad : Line2.t)
    (grad_s : ref S Segment2.t) :
  linear grad_s -> accumulates (line2_from_segment2_grad s grad grad_s).
Proof. intros. cbv delta [line2_from_segment2_grad]. accum. Qed.

Lemma poly2_from_aabox2_grad_body_accumulates (a : AABox2.t) (grad : Poly2.t)
    (grad_a : ref S AABox2.t) :
  linear grad_a -> accumulates (poly2_from_aabox2_grad_body a grad grad_a).
Proof. intros. cbv delta [poly2_from_aabox2_grad_body]. accum. Qed.

Lemma aabox2_from_poly2_grad_accumulates (p : Poly2.t) (grad : AABox2.t)
    (grad_p : ref S Poly2.t) :
  linear grad_p -> accumulates (aabox2_from_poly2_grad p grad grad_p).
Proof. intros. cbv delta [aabox2_from_poly2_grad]. accum. Qed.

Lemma poly2_from_xywhr_grad_body_accumulates (x y w h r : Q) (grad : Poly2.t)
    (grad_x grad_y grad_w grad_h grad_r : ref S Q) :
  linear grad_x -> linear grad_y -> linear grad_w -> linear grad_h -> linear grad_r ->
  accumulates (poly2_from_xywhr_grad_body sin cos x y w h r grad
                 grad_x grad_y grad_w grad_h grad_r).
Proof. intros. cbv delta [poly2_from_xywhr_grad_body]. accum. Qed.

Lemma distance_grad_pp_accumulates (p1 p2 : Point2.t) (grad : Q)
    (grad_p1 grad_p2 : ref S Point2.t) :
  linear grad_p1 -> linear grad_p2 ->
  accumulates (distance_grad_pp hypot p1 p2 grad grad_p1 grad_p2).
Proof. intros. cbv delta [distance_grad_pp]. accum. Qed.

Lemma distance_grad_lp_accumulates (l : Line2.t) (p : Point2.t) (grad : Q)
    (grad_l : ref S Line2.t) (grad_p : ref S Point2.t) :
  linear grad_l -> linear grad_p ->
  accumulates (distance_grad_lp hypot l p grad grad_l grad_p).
Proof. intros. cbv delta [distance_grad_lp]. accum. Qed.

Lemma distance_grad_sp_accumulates (s : Segment2.t) (p : Point2.t) (grad : Q)
    (grad_s : ref S Segment2.t) (grad_p : ref S Point2.t) :
  linear grad_s -> linear grad_p ->
  accumulates (distance_grad_sp hypot s p grad grad_s grad_p).
Proof.
  intros. cbv delta [distance_grad_sp]. cbv beta zeta.
  repeat lazymatch goal with
         | |- accumulates (if _ then _ else _) => apply accumulates_if
         end;
    run_locals; raw_accum.
Qed.

Lemma distance_grad_poly_accumulates (poly : Poly2.t) (p : Point2.t) (grad : Q)
    (grad_poly : ref S Poly2.t) (grad_p : ref S Point2.t) (idx : Z) :
  linear grad_poly -> linear grad_p ->
  accumulates (distance_grad_poly hypot poly p grad grad_poly grad_p idx).
Proof.
  intros. cbv delta [distance_grad_poly distance_grad_sp]. cbv beta zeta.
  repeat match goal with
         | |- context [(if ?c then _ else _) (_, _)] => destruct c
         end;
    run_locals; raw_accum.
Qed.

Lemma area_grad_aabox_accumulates (a : AABox2.t) (grad : Q) (grad_a : ref S AABox2.t) :
  linear grad_a -> accumulates (area_grad_aabox a grad grad_a).
Proof. intros. cbv delta [area_grad_aabox]. accum. Qed.

Lemma area_grad_accumulates (p : Poly2.t) (grad : Q) (grad_p : ref S Poly2.t) :
  linear grad_p -> accumulates (area_grad p grad grad_p).
Proof. intros. cbv delta [area_grad]. accum. Qed.

Lemma dimension_grad_aabox_accumulates (a : AABox2.t) (grad : Q) (grad_a : ref S AABox2.t) :
  linear grad_a -> accumulates (dimension_grad_aabox hypot a grad grad_a).
Proof. intros. cbv delta [dimension_grad_aabox]. accum. Qed.

Hint Resolve line2_from_pp_grad_accumulates segment2_from_pp_grad_accumulates
  line2_from_segment2_grad_accumulates aabox2_from_poly2_grad_accumulates
  distance_grad_pp_accumulates distance_grad_lp_accumulates
  area_grad_aabox_accumulates area_grad_accumulates : accum.

Lemma dimension_grad_accumulates (p : Poly2.t) (grad : Q) (flag1 flag2 : Z)
    (grad_p : ref S Poly2.t) :
  linear grad_p -> accumulates (dimension_grad hypot p grad flag1 flag2 grad_p).
Proof. intros. cbv delta [dimension_grad]. accum. Qed.

Lemma center_grad_aabox_accumulates (a : AABox2.t) (grad : Point2.t)
    (grad_a : ref S AABox2.t) :
  linear grad_a -> accumulates (center_grad_aabox a grad grad_a).
Proof. intros. cbv delta [center_grad_aabox]. accum. Qed.

Lemma center_grad_accumulates (p : Poly2.t) (grad : Point2.t) (grad_p : ref S Poly2.t) :
  linear grad_p -> accumulates (center_grad p grad grad_p).
Proof. intros. cbv delta [center_grad]. accum. Qed.

Hint Resolve center_grad_aabox_accumulates : accum.

Lemma centroid_grad_aabox_accumulates (a : AABox2.t) (grad : Point2.t)
    (grad_a : ref S AABox2.t) :
  linear grad_a -> accumulates (centroid_grad_aabox a grad grad_a).
Proof. intros. cbv delta [centroid_grad_aabox]. accum. Qed.

Lemma centroid_grad_accumulates (p : Poly2.t) (grad : Point2.t) (grad_p : ref S Poly2.t) :
  linear grad_p -> accumulates (centroid_grad p grad grad_p).
Proof. intros. cbv delta [centroid_grad]. accum. Qed.

Lemma intersect_grad_ll_accumulates (l1 l2 : Line2.t) (grad : Point2.t)
    (grad_l1 grad_l2 : ref S Line2.t) :
  linear grad_l1 -> linear grad_l2 ->
  accumulates (intersect_grad_ll l1 l2 grad grad_l1 grad_l2).
Proof. intros. cbv delta [intersect_grad_ll]. accum. Qed.

Lemma crossing_grad_accumulates (pn pp : Poly2.t) (epni eppi : Z) (g : Point2.t)
    (grad_pn grad_pp : ref S Poly2.t) :
  linear grad_pn -> linear grad_pp ->
  accumulates (crossing_grad pn pp epni eppi g grad_pn grad_pp).
Proof. intros. cbv delta [crossing_grad]. accum. Qed.

Hint Resolve crossing_grad_accumulates : accum.

Lemma intersect_grad_accumulates (p1 p2 grad : Poly2.t) (xflags : list Z)
    (grad_p1 grad_p2 : ref S Poly2.t) :
  linear grad_p1 -> linear grad_p2 ->
  accumulates (intersect_grad p1 p2 grad xflags grad_p1 grad_p2).
Proof. intros. cbv delta [intersect_grad]. accum. Qed.

Lemma intersect_grad_aabox_accumulates (a1 a2 grad : AABox2.t)
    (grad_a1 grad_a2 : ref S AABox2.t) :
  linear grad_a1 -> linear grad_a2 ->
  accumulates (intersect_grad_aabox a1 a2 grad grad_a1 grad_a2).
Proof. intros. cbv delta [intersect_grad_aabox]. accum. Qed.

Lemma merge_grad_accumulates (p1 p2 grad : Poly2.t) (mflags : list Z)
    (grad_p1 grad_p2 : ref S Poly2.t) :
  linear grad_p1 -> linear grad_p2 ->
  accumulates (merge_grad p1 p2 grad mflags grad_p1 grad_p2).
Proof. intros. cbv delta [merge_grad]. accum. Qed.

Lemma merge_grad_aabox_accumulates (a1 a2 grad : AABox2.t)
    (grad_a1 grad_a2 : ref S AABox2.t) :
  linear grad_a1 -> linear grad_a2 ->
  accumulates (merge_grad_aabox a1 a2 grad grad_a1 grad_a2).
Proof. intros. cbv delta [merge_grad_aabox]. accum. Qed.

Hint Resolve intersect_grad_accumulates intersect_grad_aabox_accumulates
  merge_grad_accumulates merge_grad_aabox_accumulates
  centroid_grad_aabox_accumulates centroid_grad_accumulates : accum.

Lemma iou_grad_aabox_accumulates (a1 a2 : AABox2.t) (grad : Q)
    (grad_a1 grad_a2 : ref S AABox2.t) :
  linear grad_a1 -> linear grad_a2 ->
  accumulates (iou_grad_aabox a1 a2 grad grad_a1 grad_a2).
Proof. intros. cbv delta [iou_grad_aabox]. accum. Qed.

Lemma iou_grad_accumulates (p1 p2 : Poly2.t) (grad : Q) (nx : Z) (xflags : list Z)
    (grad_p1 grad_p2 : ref S Poly2.t) :
  linear grad_p1 -> linear grad_p2 ->
  accumulates (iou_grad p1 p2 grad nx xflags grad_p1 grad_p2).
Proof. intros. cbv delta [iou_grad]. accum. Qed.

Hint Resolve iou_grad_aabox_accumulates iou_grad_accumulates : accum.

Lemma giou_grad_aabox_accumulates (a1 a2 : AABox2.t) (grad : Q)
    (grad_a1 grad_a2 : ref S AABox2.t) :
  linear grad_a1 -> linear grad_a2 ->
  accumulates (giou_grad_aabox a1 a2 grad grad_a1 grad_a2).
Proof. intros. cbv delta [giou_grad_aabox]. accum. Qed.

Lemma giou_grad_accumulates (p1 p2 : Poly2.t) (grad : Q) (nx nm : Z)
    (xflags mflags : list Z) (grad_p1 grad_p2 : ref S Poly2.t) :
  linear grad_p1 -> linear grad_p2 ->
  accumulates (giou_grad p1 p2 grad nx nm xflags mflags grad_p1 grad_p2).
Proof. intros. cbv delta [giou_grad]. accum. Qed.

Lemma diou_grad_aabox_accumulates (a1 a2 : AABox2.t) (grad : Q)
    (grad_a1 grad_a2 : ref S AABox2.t) :
  linear grad_a1 -> linear grad_a2 ->
  accumulates (diou_grad_aabox hypot a1 a2 grad grad_a1 grad_a2).
Proof. intros. cbv delta [diou_grad_aabox]. accum. Qed.

Lemma diou_grad_accumulates (p1 p2 : Poly2.t) (grad : Q) (nx dflag1 dflag2 : Z)
    (xflags : list Z) (grad_p1 grad_p2 : ref S Poly2.t) :
  linear grad_p1 -> linear grad_p2 ->
  accumulates (diou_grad hypot p1 p2 grad nx dflag1 dflag2 xflags grad_p1 grad_p2).
Proof. intros. cbv delta [diou_grad]. accum. Qed.

End AdjointAccumulates.

(** ** The adjoint of the polygon area *)

Lemma hits_Z (i j : Z) (len : nat) :
  (0 <= i)%Z -> (0 <= j)%Z ->
  hits i (Z.to_nat j) len = ((i =? j)%Z && (j <? Z.of_nat len)%Z)%bool.
Proof.
  intros Hi Hj. unfold hits.
  destruct (Z.ltb_spec i 0); [lia|]. simpl.
  destruct (Nat.eqb_spec (Z.to_nat i) (Z.to_nat j)), (Z.eqb_spec i j); try lia; simpl; auto.
  destruct (Nat.ltb_spec (Z.to_nat j) len), (Z.ltb_spec j (Z.of_nat len)); auto; lia.
Qed.

(** Reading a vertex after a write to [vertices[i]]. *)
Lemma get_vertex_upd (g : Poly2.t) (i j : Z) (f : Point2.t -> Point2.t) :
  (0 <= i)%Z -> (0 <= j)%Z ->
  (vertex (@this Poly2.t) i f g).[j]
  = if ((i =? j)%Z && (j <? Poly2.capacity g)%Z)%bool then f g.[j] else g.[j].
Proof.
  intros Hi Hj. unfold vertex, this, Poly2.get, Poly2.capacity. simpl.
  rewrite nth_array_upd, hits_Z by assumption. reflexivity.
Qed.

Lemma capacity_vertex_upd (g : Poly2.t) (i : Z) (f : Point2.t -> Point2.t) :
  Poly2.capacity (vertex (@this Poly2.t) i f g) = Poly2.capacity g.
Proof.
  unfold vertex, this, Poly2.capacity. simpl. now rewrite length_array_upd.
Qed.

Section AreaGrad.

Variable p : Poly2.t.
Variable h : Q.

Lemma area_grad_step_effect (i j : Z) (g : Poly2.t) :
  (1 <= i < Poly2.capacity g)%Z -> (0 <= j < Poly2.capacity g)%Z ->
  Poly2.capacity (area_grad_step p h i g) = Poly2.capacity g /\
  Point2.x (area_grad_step p h i g).[j] == Point2.x g.[j] + step_x p h i j /\
  Point2.y (area_grad_step p h i g).[j] == Point2.y g.[j] + step_y p h i j.
Proof.
  intros Hi Hj. unfold area_grad_step, seq2, incr, decr, Point2_x, Point2_y.
  split; [now rewrite !capacity_vertex_upd|].
  rewrite !get_vertex_upd by lia. rewrite !capacity_vertex_upd.
  unfold step_x, step_y.
  destruct (Z.ltb_spec j (Poly2.capacity g)); [|lia].
  destruct (Z.eqb_spec i j), (Z.eqb_spec (i - 1) j); try lia; simpl; split; ring.
Qed.

Lemma area_grad_loop_effect (n j : Z) (g : Poly2.t) :
  (1 <= n <= Poly2.capacity g)%Z -> (0 <= j < Poly2.capacity g)%Z ->
  let g' := for_loop 1 n (area_grad_step p h) g in
  Poly2.capacity g' = Poly2.capacity g /\
  Point2.x g'.[j] == Point2.x g.[j] + sumZ 1 n (fun i => step_x p h i j) /\
  Point2.y g'.[j] == Point2.y g.[j] + sumZ 1 n (fun i => step_y p h i j).
Proof.
  intros Hn Hj.
  apply (for_loop_invariant
           (fun k st => Poly2.capacity st = Poly2.capacity g /\
                        Point2.x st.[j] == Point2.x g.[j] + sumZ 1 k (fun i => step_x p h i j) /\
                        Point2.y st.[j] == Point2.y g.[j] + sumZ 1 k (fun i => step_y p h i j))).
  - lia.
  - rewrite !sumZ_empty by lia. repeat split; ring.
  - intros i st Hi (Hc & Hx & Hy).
    destruct (@area_grad_step_effect i j st) as (Hc' & Hx' & Hy'); try lia.
    rewrite !sumZ_last by lia. rewrite Hx', Hy', Hx, Hy.
    repeat split; [congruence | ring | ring].
Qed.

(** A sum with one selected term. *)
Lemma sumZ_select (lo hi j : Z) (f : Z -> Q) :
  (lo <= hi)%Z ->
  sumZ lo hi (fun i => if (i =? j)%Z then f i else 0)
  == if ((lo <=? j)%Z && (j <? hi)%Z)%bool then f j else 0.
Proof.
  revert hi. apply range_ind.
  - rewrite sumZ_empty by lia.
    destruct (Z.leb_spec lo j), (Z.ltb_spec j lo); simpl; try lia; reflexivity.
  - intros hi Hle IH. rewrite sumZ_last by lia. rewrite IH.
    destruct (Z.leb_spec lo j), (Z.ltb_spec j hi), (Z.ltb_spec j (hi + 1)),
      (Z.eqb_spec hi j); simpl; try lia; subst; ring.
Qed.

Lemma sumZ_select_pred (lo hi j : Z) (f : Z -> Q) :
  (lo <= hi)%Z ->
  sumZ lo hi (fun i => if (i - 1 =? j)%Z then f i else 0)
  == if ((lo <=? j + 1)%Z && (j + 1 <? hi)%Z)%bool then f (j + 1)%Z else 0.
Proof.
  intros Hle. rewrite <- sumZ_select by exact Hle.
  apply sumZ_ext; [exact Hle|]. intros i _.
  destruct (Z.eqb_spec (i - 1) j), (Z.eqb_spec i (j + 1)); try lia; reflexivity.
Qed.

Lemma sum_step_x (n j : Z) :
  (1 <= n)%Z ->
  sumZ 1 n (fun i => step_x p h i j)
  == (if ((1 <=? j)%Z && (j <? n)%Z)%bool then - (h * Point2.y p.[j - 1]) else 0)
     + (if ((1 <=? j + 1)%Z && (j + 1 <? n)%Z)%bool then h * Point2.y p.[j + 1] else 0).
Proof.
  intros Hn. unfold step_x. rewrite sumZ_plus by lia.
  rewrite (@sumZ_select 1 n j (fun i => - (h * Point2.y p.[i - 1]))) by lia.
  rewrite (@sumZ_select_pred 1 n j (fun i => h * Point2.y p.[i])) by lia.
  reflexivity.
Qed.

Lemma sum_step_y (n j : Z) :
  (1 <= n)%Z ->
  sumZ 1 n (fun i => step_y p h i j)
  == (if ((1 <=? j)%Z && (j <? n)%Z)%bool then h * Point2.x p.[j - 1] else 0)
     + (if ((1 <=? j + 1)%Z && (j + 1 <? n)%Z)%bool then - (h * Point2.x p.[j + 1]) else 0).
Proof.
  intros Hn. unfold step_y. rewrite sumZ_plus by lia.
  rewrite (@sumZ_select 1 n j (fun i => h * Point2.x p.[i - 1])) by lia.
  rewrite (@sumZ_select_pred 1 n j (fun i => - (h * Point2.x p.[i]))) by lia.
  reflexivity.
Qed.

End AreaGrad.

(** C5. For a polygon [p] with [n >= 3] vertices, [area_grad] adds
    [g * (y_(i+1) - y_(i-1)) / 2] to the [x] gradient and
    [g * (x_(i-1) - x_(i+1)) / 2] to the [y] gradient of every vertex [i]
    (indices modulo [n]); for [n <= 2] the accumulator is left as it is. *)
Theorem area_grad_coefficients (p grad_p : Poly2.t) (g : Q) :
  let n := Poly2.nvertices p in
  let grad_p' := area_grad p g (@this Poly2.t) grad_p in
  ((n <= 2)%Z -> grad_p' = grad_p) /\
  ((3 <= n <= Poly2.capacity grad_p)%Z ->
   forall i, (0 <= i < n)%Z ->
     Point2.x grad_p'.[i]
     == Point2.x grad_p.[i]
        + g * (Point2.y p.[(i + 1) mod n] - Point2.y p.[(i - 1) mod n]) / 2 /\
     Point2.y grad_p'.[i]
     == Point2.y grad_p.[i]
        + g * (Point2.x p.[(i - 1) mod n] - Point2.x p.[(i + 1) mod n]) / 2).
Proof.
  intros n grad_p'. subst grad_p'. unfold area_grad. fold n.
  destruct (Z.leb_spec n 2) as [Hle|Hgt].
  - split; [reflexivity | lia].
  - split; [lia|]. intros [_ Hcap] i Hi. cbv zeta.
    set (h := g / 2).
    match goal with
    | |- context [seq2 ?A (for_loop 1 n ?b) grad_p] =>
        change (seq2 A (for_loop 1 n b) grad_p)
          with (for_loop 1 n (area_grad_step p h) (A grad_p));
        set (g1 := A grad_p)
    end.
    assert (H1 : Poly2.capacity g1 = Poly2.capacity grad_p /\
                 Point2.x g1.[i]
                 == Point2.x grad_p.[i]
                    + (if (i =? 0)%Z then - (h * Point2.y p.[n - 1]) else 0)
                    + (if (i =? n - 1)%Z then h * Point2.y p.[0] else 0) /\
                 Point2.y g1.[i]
                 == Point2.y grad_p.[i]
                    + (if (i =? 0)%Z then h * Point2.x p.[n - 1] else 0)
                    + (if (i =? n - 1)%Z then - (h * Point2.x p.[0]) else 0)).
    { subst g1. unfold seq2, incr, decr, Point2_x, Point2_y, assign_nvertices.
      split; [rewrite !capacity_vertex_upd; reflexivity|].
      rewrite !get_vertex_upd by lia. rewrite !capacity_vertex_upd.
      change (Poly2.capacity (this _ grad_p)) with (Poly2.capacity grad_p).
      change ((this (fun g0 => Poly2.mk (Poly2.vertices g0) n) grad_p).[i])
        with grad_p.[i].
      destruct (Z.ltb_spec i (Poly2.capacity grad_p)); [|lia].
      destruct (Z.eqb_spec 0 i), (Z.eqb_spec (n - 1) i), (Z.eqb_spec i 0),
        (Z.eqb_spec i (n - 1)); try lia; simpl; split; ring. }
    destruct H1 as (Hc1 & Hx1 & Hy1).
    destruct (@area_grad_loop_effect p h n i g1) as (_ & Hx & Hy); try lia.
    assert (Hh : forall u, g * u / 2 == h * u) by (intros u; unfold h; field).
    split; [rewrite Hx, Hx1, sum_step_x, Hh by lia | rewrite Hy, Hy1, sum_step_y, Hh by lia];
      clear Hx Hy Hx1 Hy1.
    all: destruct (Z.eq_dec i 0) as [-> | Hi0];
      [ replace ((0 + 1) mod n)%Z with 1%Z by (rewrite Z.mod_small; lia);
        replace ((0 - 1) mod n)%Z with (n - 1)%Z
          by (replace (0 - 1)%Z with (n - 1 + (-1) * n)%Z by lia;
              rewrite Z.mod_add, Z.mod_small; lia);
        destruct (Z.eqb_spec 0 (n - 1)), (Z.ltb_spec (0 + 1) n); try lia;
        simpl; ring
      | replace ((i - 1) mod n)%Z with (i - 1)%Z by (rewrite Z.mod_small; lia);
        destruct (Z.eqb_spec i 0); [lia|];
        destruct (Z.leb_spec 1 i), (Z.ltb_spec i n), (Z.leb_spec 1 (i + 1)); try lia;
        destruct (Z.eq_dec i (n - 1)) as [-> | Hin];
        [ replace ((n - 1 + 1) mod n)%Z with 0%Z by (rewrite Z.sub_add, Z.mod_same; lia);
          destruct (Z.eqb_spec (n - 1) (n - 1)), (Z.ltb_spec (n - 1 + 1) n); try lia;
          simpl; ring
        | replace ((i + 1) mod n)%Z with (i + 1)%Z by (rewrite Z.mod_small; lia);
          destruct (Z.eqb_spec i (n - 1)), (Z.ltb_spec (i + 1) n); try lia;
          simpl; ring ] ].
Qed.

(** ** All adjoint functions

    Each adjoint function is run on a store made of its own output
    parameters, passed as distinct variables. *)

Lemma linear_out1 (A B : Type) {accA : Accum A} {accB : Accum B} {lawB : AccumLaws B} :
  linear (@out1 A B).
Proof. unfold out1. auto with accum. Qed.

Lemma linear_out2 (A B : Type) {accA : Accum A} {accB : Accum B} {lawA : AccumLaws A} :
  linear (@out2 A B).
Proof. unfold out2. auto with accum. Qed.

Lemma linear_q4 : linear q1of4 /\ linear q2of4 /\ linear q3of4 /\ linear q4of4.
Proof.
  unfold q1of4, q2of4, q3of4, q4of4.
  split; [|split; [|split]]; auto 10 with accum.
Qed.

Lemma linear_q5 :
  linear q1of5 /\ linear q2of5 /\ linear q3of5 /\ linear q4of5 /\ linear q5of5.
Proof.
  destruct linear_q4 as (H1 & H2 & H3 & H4).
  unfold q1of5, q2of5, q3of5, q4of5, q5of5.
  split; [|split; [|split; [|split]]]; auto 10 with accum.
Qed.

Lemma guarded_accumulates (S : Type) {acc : Accum S} (b : bool) (F : S -> S) :
  accumulates F -> accumulates_or_aborts (fun s => if b then Ret (F s) else Abort).
Proof.
  intros HF s. destruct b; [apply HF | exact I].
Qed.

(** C8. Every adjoint function only accumulates into its gradient output
    parameters: whatever the forward inputs, the upstream gradient and the
    initial content of the accumulators, each gradient coordinate after the
    call is its value before the call plus what the same call leaves in
    zero-initialised accumulators. *)
Theorem adjoints_accumulate (hypot : Q -> Q -> Q) (sin cos : Q -> Q) :
  (forall a b g, accumulates (_max_grad a b g (@out1 Q Q) (@out2 Q Q))) /\
  (forall a b g, accumulates (_min_grad a b g (@out1 Q Q) (@out2 Q Q))) /\
  (forall x1 y1 x2 y2 grad,
      accumulates (line2_from_xyxy_grad x1 y1 x2 y2 grad q1of4 q2of4 q3of4 q4of4)) /\
  (forall p1 p2 grad,
      accumulates (line2_from_pp_grad p1 p2 grad (@out1 Point2.t Point2.t) (@out2 _ _))) /\
  (forall p1 p2 grad,
      accumulates (segment2_from_pp_grad p1 p2 grad (@out1 Point2.t Point2.t) (@out2 _ _))) /\
  (forall s grad, accumulates (line2_from_segment2_grad s grad (@this Segment2.t))) /\
  (forall a grad, accumulates_or_aborts (poly2_from_aabox2_grad a grad (@this AABox2.t))) /\
  (forall p grad, accumulates (aabox2_from_poly2_grad p grad (@this Poly2.t))) /\
  (forall x y w h r grad,
      accumulates_or_aborts
        (poly2_from_xywhr_grad sin cos x y w h r grad q1of5 q2of5 q3of5 q4of5 q5of5)) /\
  (forall p1 p2 grad,
      accumulates (distance_grad_pp hypot p1 p2 grad (@out1 Point2.t Point2.t) (@out2 _ _))) /\
  (forall l p grad,
      accumulates (distance_grad_lp hypot l p grad (@out1 Line2.t Point2.t) (@out2 _ _))) /\
  (forall s p grad,
      accumulates (distance_grad_sp hypot s p grad (@out1 Segment2.t Point2.t) (@out2 _ _))) /\
  (forall poly p grad idx,
      accumulates (distance_grad_poly hypot poly p grad
                     (@out1 Poly2.t Point2.t) (@out2 _ _) idx)) /\
  (forall a grad, accumulates (area_grad_aabox a grad (@this AABox2.t))) /\
  (forall p grad, accumulates (area_grad p grad (@this Poly2.t))) /\
  (forall a grad, accumulates (dimension_grad_aabox hypot a grad (@this AABox2.t))) /\
  (forall p grad flag1 flag2,
      accumulates (dimension_grad hypot p grad flag1 flag2 (@this Poly2.t))) /\
  (forall a grad, accumulates (center_grad_aabox a grad (@this AABox2.t))) /\
  (forall p grad, accumulates (center_grad p grad (@this Poly2.t))) /\
  (forall a grad, accumulates (centroid_grad_aabox a grad (@this AABox2.t))) /\
  (forall p grad, accumulates (centroid_grad p grad (@this Poly2.t))) /\
  (forall l1 l2 grad,
      accumulates (intersect_grad_ll l1 l2 grad (@out1 Line2.t Line2.t) (@out2 _ _))) /\
  (forall p1 p2 grad xflags,
      accumulates (intersect_grad p1 p2 grad xflags (@out1 Poly2.t Poly2.t) (@out2 _ _))) /\
  (forall a1 a2 grad,
      accumulates (intersect_grad_aabox a1 a2 grad (@out1 AABox2.t AABox2.t) (@out2 _ _))) /\
  (forall p1 p2 grad mflags,
      accumulates (merge_grad p1 p2 grad mflags (@out1 Poly2.t Poly2.t) (@out2 _ _))) /\
  (forall a1 a2 grad,
      accumulates (merge_grad_aabox a1 a2 grad (@out1 AABox2.t AABox2.t) (@out2 _ _))) /\
  (forall a1 a2 grad,
      accumulates (iou_grad_aabox a1 a2 grad (@out1 AABox2.t AABox2.t) (@out2 _ _))) /\
  (forall p1 p2 grad nx xflags,
      accumulates (iou_grad p1 p2 grad nx xflags (@out1 Poly2.t Poly2.t) (@out2 _ _))) /\
  (forall a1 a2 grad,
      accumulates (giou_grad_aabox a1 a2 grad (@out1 AABox2.t AABox2.t) (@out2 _ _))) /\
  (forall p1 p2 grad nx nm xflags mflags,
      accumulates (giou_grad p1 p2 grad nx nm xflags mflags
                     (@out1 Poly2.t Poly2.t) (@out2 _ _))) /\
  (forall a1 a2 grad,
      accumulates (diou_grad_aabox hypot a1 a2 grad (@out1 AABox2.t AABox2.t) (@out2 _ _))) /\
  (forall p1 p2 grad nx dflag1 dflag2 xflags,
      accumulates (diou_grad hypot p1 p2 grad nx dflag1 dflag2 xflags
                     (@out1 Poly2.t Poly2.t) (@out2 _ _))).
Proof.
  pose proof linear_q4 as (L41 & L42 & L43 & L44).
  pose proof linear_q5 as (L51 & L52 & L53 & L54 & L55).
  pose proof linear_out1 as O1. pose proof linear_out2 as O2.
  pose proof linear_this as T.
  repeat match goal with |- _ /\ _ => split end; intros.
  - apply _max_grad_accumulates; auto 10 with accum.
  - apply _min_grad_accumulates; auto 10 with accum.
  - apply line2_from_xyxy_grad_accumulates; auto 10 with accum.
  - apply line2_from_pp_grad_accumulates; auto 10 with accum.
  - apply segment2_from_pp_grad_accumulates; auto 10 with accum.
  - apply line2_from_segment2_grad_accumulates; auto 10 with accum.
  - apply guarded_accumulates, poly2_from_aabox2_grad_body_accumulates; auto 10 with accum.
  - apply aabox2_from_poly2_grad_accumulates; auto 10 with accum.
  - apply guarded_accumulates, poly2_from_xywhr_grad_body_accumulates; auto 10 with accum.
  - apply distance_grad_pp_accumulates; auto 10 with accum.
  - apply distance_grad_lp_accumulates; auto 10 with accum.
  - apply distance_grad_sp_accumulates; auto 10 with accum.
  - apply distance_grad_poly_accumulates; auto 10 with accum.
  - apply area_grad_aabox_accumulates; auto 10 with accum.
  - apply area_grad_accumulates; auto 10 with accum.
  - apply dimension_grad_aabox_accumulates; auto 10 with accum.
  - apply dimension_grad_accumulates; auto 10 with accum.
  - apply center_grad_aabox_accumulates; auto 10 with accum.
  - apply center_grad_accumulates; auto 10 with accum.
  - apply centroid_grad_aabox_accumulates; auto 10 with accum.
  - apply centroid_grad_accumulates; auto 10 with accum.
  - apply intersect_grad_ll_accumulates; auto 10 with accum.
  - apply intersect_grad_accumulates; auto 10 with accum.
  - apply intersect_grad_aabox_accumulates; auto 10 with accum.
  - apply merge_grad_accumulates; auto 10 with accum.
  - apply merge_grad_aabox_accumulates; auto 10 with accum.
  - apply iou_grad_aabox_accumulates; auto 10 with accum.
  - apply iou_grad_accumulates; auto 10 with accum.
  - apply giou_grad_aabox_accumulates; auto 10 with accum.
  - apply giou_grad_accumulates; auto 10 with accum.
  - apply diou_grad_aabox_accumulates; auto 10 with accum.
  - apply diou_grad_accumulates; auto 10 with accum.
Qed.

(** ** Verbatim copies and their flags *)

Lemma for_loop_ext (S : Type) (lo hi : Z) (body1 body2 : Z -> S -> S) (s : S) :
  (forall i st, (lo <= i < hi)%Z -> body1 i st = body2 i st) ->
  for_loop lo hi body1 s = for_loop lo hi body2 s.
Proof.
  intros H. destruct (Z.le_gt_cases lo hi) as [Hle|Hgt].
  - revert hi Hle H.
    apply (@range_ind lo (fun hi => (forall i st, (lo <= i < hi)%Z -> body1 i st = body2 i st) ->
                                    for_loop lo hi body1 s = for_loop lo hi body2 s)).
    + intros _. now rewrite !for_loop_empty by lia.
    + intros hi Hle IH H. rewrite !for_loop_last by lia.
      rewrite IH by (intros; apply H; lia). apply H. lia.
  - now rewrite !for_loop_empty by lia.
Qed.

Lemma get_set_vertex (r : Poly2.t) (i j : Z) (v : Point2.t) :
  (0 <= i)%Z -> (0 <= j)%Z ->
  (set_vertex r i v).[j]
  = if ((i =? j)%Z && (j <? Poly2.capacity r)%Z)%bool then v else r.[j].
Proof.
  intros Hi Hj. unfold set_vertex, Poly2.get, Poly2.capacity. simpl.
  rewrite nth_array_upd, hits_Z by assumption. reflexivity.
Qed.

Lemma capacity_set_vertex (r : Poly2.t) (i : Z) (v : Point2.t) :
  Poly2.capacity (set_vertex r i v) = Poly2.capacity r.
Proof. unfold set_vertex, Poly2.capacity. simpl. now rewrite length_array_upd. Qed.

(** [result = other] copies the count and the vertices in use. *)
Lemma poly_assign_spec (cap : nat) (other : Poly2.t) :
  (0 <= Poly2.nvertices other <= Z.of_nat cap)%Z ->
  Poly2.nvertices (poly_assign cap other) = Poly2.nvertices other /\
  Poly2.capacity (poly_assign cap other) = Z.of_nat cap /\
  forall j, (0 <= j < Poly2.nvertices other)%Z -> (poly_assign cap other).[j] = other.[j].
Proof.
  intros Hn. unfold poly_assign.
  apply (for_loop_invariant
           (fun k st => Poly2.nvertices st = Poly2.nvertices other /\
                        Poly2.capacity st = Z.of_nat cap /\
                        forall j, (0 <= j < k)%Z -> st.[j] = other.[j])).
  - lia.
  - repeat split; [| intros; lia].
    unfold Poly2.capacity. simpl. now rewrite repeat_length.
  - intros i st Hi (Hc & Hcap & Hv). repeat split.
    + exact Hc.
    + now rewrite capacity_set_vertex.
    + intros j Hj. rewrite get_set_vertex by lia. rewrite Hcap.
      destruct (Z.eqb_spec i j), (Z.ltb_spec j (Z.of_nat cap)); simpl; try lia.
      * now subst.
      * apply Hv. lia.
Qed.

(** The area reads the count and the vertices in use only. *)
Lemma area_ext (p q : Poly2.t) :
  Poly2.nvertices p = Poly2.nvertices q ->
  (forall j, (0 <= j < Poly2.nvertices q)%Z -> p.[j] = q.[j]) ->
  area p = area q.
Proof.
  intros Hn Hv. unfold area. rewrite Hn.
  destruct (Z.leb_spec (Poly2.nvertices q) 2) as [H|H]; [reflexivity|].
  rewrite !Hv by lia. f_equal.
  apply for_loop_ext. intros i st Hi. now rewrite !Hv by lia.
Qed.

Lemma verbatim_flags_spec (n low : Z) :
  (0 <= n)%Z ->
  Z.of_nat (length (verbatim_flags n low)) = n /\
  forall j, (0 <= j < n)%Z ->
            flag_at (verbatim_flags n low) j = to_u8 (Z.lor (Z.shiftl j 1) low).
Proof.
  intros Hn. unfold verbatim_flags.
  apply (for_loop_invariant
           (fun k fl => Z.of_nat (length fl) = k /\
                        forall j, (0 <= j < k)%Z ->
                                  flag_at fl j = to_u8 (Z.lor (Z.shiftl j 1) low))).
  - lia.
  - split; [reflexivity | intros; lia].
  - intros i fl Hi (Hlen & Hfl). split.
    + rewrite length_app. simpl. lia.
    + intros j Hj. unfold flag_at in *.
      destruct (Z.eq_dec j i) as [-> | Hne].
      * rewrite app_nth2 by lia.
        replace (Z.to_nat i - length fl)%nat with O by lia. reflexivity.
      * rewrite app_nth1 by lia. apply Hfl. lia.
Qed.

(** The flag of the vertex [i] of the first ([low = 1]) or of the second
    ([low = 0]) operand decodes to the index and the operand. *)
Lemma flag_decode (i low : Z) :
  (0 <= i < 128)%Z -> (low = 0 \/ low = 1)%Z ->
  let f := to_u8 (Z.lor (Z.shiftl i 1) low) in
  (0 <= f < 256)%Z /\ flag_index f = i /\ Z.land f 1 = low.
Proof.
  intros Hi Hlow f.
  assert (E : Z.lor (Z.shiftl i 1) low = (2 * i + low)%Z).
  { rewrite Z.shiftl_mul_pow2 by lia. change (2 ^ 1)%Z with 2%Z.
    destruct Hlow as [-> | ->].
    - rewrite Z.lor_0_r. lia.
    - rewrite <- Z.lxor_lor, <- Z.add_nocarry_lxor.
      + lia.
      + change 1%Z with (Z.ones 1). rewrite Z.land_ones by lia.
        change (2 ^ 1)%Z with 2%Z. rewrite Z.mod_mul; lia.
      + change 1%Z with (Z.ones 1). rewrite Z.land_ones by lia.
        change (2 ^ 1)%Z with 2%Z. rewrite Z.mod_mul; lia. }
  assert (F : f = (2 * i + low)%Z).
  { unfold f, to_u8. rewrite E. apply Z.mod_small. lia. }
  rewrite F. repeat split; try lia.
  - unfold flag_index. rewrite Z.shiftr_div_pow2 by lia. change (2 ^ 1)%Z with 2%Z.
    destruct Hlow as [-> | ->].
    + rewrite Z.add_0_r, Z.mul_comm, Z.div_mul; lia.
    + rewrite Z.mul_comm, Z.div_add_l by lia. change (1 / 2)%Z with 0%Z. lia.
  - change 1%Z with (Z.ones 1) at 1. rewrite Z.land_ones by lia.
    change (2 ^ 1)%Z with 2%Z.
    rewrite Z.add_comm, Z.mul_comm, Z.mod_add by lia.
    destruct Hlow as [-> | ->]; reflexivity.
Qed.

(** ** Rotating-caliper intersection without bridges *)

Section NoBridge.

Context {num : Numeric}.
Variable atan2 : Q -> Q -> Q.
Variable _pi : Q.

(** The result of the rotating-caliper intersection once its sweep has
    ended with no accepted bridge. *)
Lemma intersect_no_bridge_result (p1 p2 : Poly2.t) (edge_flag : bool) :
  intersect_sweep atan2 (sweep_fuel p1 p2) p1 p2
    (fst (_find_extreme p1)) (fst (_find_extreme p2)) (- _pi) false [] []
  = Ret (SweepDone edge_flag [] []) ->
  intersect_RotatingCaliper atan2 _pi p1 p2
  = let cap := (length (Poly2.vertices p1) + length (Poly2.vertices p2))%nat in
    if Qgtb (area p1) (area p2) then
      do r <- assign_result cap p2; Ret (r, verbatim_flags (Poly2.nvertices p2) 0)
    else
      do r <- assign_result cap p1; Ret (r, verbatim_flags (Poly2.nvertices p1) 1).
Proof.
  intros H. unfold intersect_RotatingCaliper. rewrite H. reflexivity.
Qed.

Lemma assign_result_spec (cap : nat) (p : Poly2.t) :
  (0 <= Poly2.nvertices p <= Z.of_nat cap)%Z ->
  assign_result cap p = Ret (poly_assign cap p).
Proof.
  intros H. unfold assign_result.
  destruct (Z.leb_spec (Poly2.nvertices p) (Z.of_nat cap)); [reflexivity | lia].
Qed.

(** C2. When the sweep of the rotating-caliper intersection ends without
    an accepted bridge (and without the early return of an empty polygon),
    the intersection is the operand with the smaller area, copied verbatim:
    the same number of vertices, the same vertices in the same order, and
    flag [i] holds the vertex index [i] in its high seven bits and, in its
    low bit, 1 exactly when the operand returned is [p1]. *)
Theorem intersect_no_bridge (p1 p2 : Poly2.t) (edge_flag : bool) :
  Poly2.wf p1 -> Poly2.wf p2 ->
  intersect_sweep atan2 (sweep_fuel p1 p2) p1 p2
    (fst (_find_extreme p1)) (fst (_find_extreme p2)) (- _pi) false [] []
  = Ret (SweepDone edge_flag [] []) ->
  let first := negb (Qgtb (area p1) (area p2)) in
  let src := if first then p1 else p2 in
  exists r xflags,
    intersect_RotatingCaliper atan2 _pi p1 p2 = Ret (r, xflags) /\
    area src <= area p1 /\ area src <= area p2 /\
    Poly2.nvertices r = Poly2.nvertices src /\
    (forall i, (0 <= i < Poly2.nvertices src)%Z -> r.[i] = src.[i]) /\
    Z.of_nat (length xflags) = Poly2.nvertices src /\
    (forall i, (0 <= i < Poly2.nvertices src)%Z ->
               (0 <= flag_at xflags i < 256)%Z /\
               flag_index (flag_at xflags i) = i /\
               Z.land (flag_at xflags i) 1 = if first then 1%Z else 0%Z).
Proof.
  intros [Hc1 Hn1] [Hc2 Hn2] Hsweep first src.
  rewrite (intersect_no_bridge_result _ _ Hsweep). cbv zeta.
  unfold Poly2.capacity in Hc1, Hc2.
  subst src first. unfold Qgtb.
  destruct (Qltb_spec (area p2) (area p1)) as [Hlt|Hge]; simpl negb; cbv iota.
  - rewrite assign_result_spec by lia. simpl bind.
    destruct (@poly_assign_spec (length (Poly2.vertices p1) + length (Poly2.vertices p2)) p2)
      as (Hn & _ & Hv); [lia|].
    destruct (@verbatim_flags_spec (Poly2.nvertices p2) 0) as (Hl & Hf); [lia|].
    eexists _, _. split; [reflexivity|].
    repeat split; try assumption; try lra.
    all: rewrite Hf by assumption; apply flag_decode; lia.
  - rewrite assign_result_spec by lia. simpl bind.
    destruct (@poly_assign_spec (length (Poly2.vertices p1) + length (Poly2.vertices p2)) p1)
      as (Hn & _ & Hv); [lia|].
    destruct (@verbatim_flags_spec (Poly2.nvertices p1) 1) as (Hl & Hf); [lia|].
    eexists _, _. split; [reflexivity|].
    repeat split; try assumption; try lra.
    all: rewrite Hf by assumption; apply flag_decode; lia.
Qed.

(** A polygon swept against itself: the two edge angles are equal at the
    first step, and the sweep ends there. *)
Lemma intersect_sweep_self (fuel : nat) (p : Poly2.t) (pidx : Z) (edge_angle : Q)
    (edge_flag : bool) (x1 x2 : list Z) :
  intersect_sweep atan2 (S fuel) p p pidx pidx edge_angle edge_flag x1 x2
  = Ret (SweepDone edge_flag x1 x2).
Proof.
  cbn [intersect_sweep].
  set (angle := _slope_pp atan2 _ _).
  rewrite Qltb_irrefl. simpl orb.
  destruct (Qltb edge_angle angle) eqn:E; simpl andb.
  - now rewrite (Qltb_asym _ _ E).
  - reflexivity.
Qed.

Lemma area_convex_pos (p : Poly2.t) :
  (3 <= Poly2.nvertices p)%Z -> ccw_convex p -> 0 < area p.
Proof.
  intros Hn Hc. rewrite (area_edge_sum p Hn).
  pose proof (@edge_sum_convex_pos p ltac:(lia) Hc).
  apply Qlt_shift_div_l; [reflexivity | lra].
Qed.

(** C3. For a non-degenerate convex counter-clockwise polygon [A],
    [iou(A, A)] returns 1: the intersection of [A] with itself is [A]. *)
Theorem iou_self (A : Poly2.t) :
  Poly2.wf A -> (3 <= Poly2.nvertices A)%Z -> ccw_convex A ->
  exists v xflags,
    iou atan2 _pi A A = Ret (v, Poly2.nvertices A, xflags) /\ v == 1.
Proof.
  intros [Hc Hn] H3 Hconv.
  pose proof (area_convex_pos H3 Hconv) as Hpos.
  unfold iou, intersect.
  rewrite (@intersect_no_bridge_result A A false)
    by (unfold sweep_fuel; apply intersect_sweep_self).
  cbv zeta. unfold Qgtb. rewrite Qltb_irrefl.
  unfold Poly2.capacity in Hc.
  rewrite assign_result_spec by lia. simpl bind.
  destruct (@poly_assign_spec (length (Poly2.vertices A) + length (Poly2.vertices A)) A)
    as (Hnv & _ & Hv); [lia|].
  rewrite (@area_ext _ _ Hnv Hv), Hnv.
  eexists _, _. split; [reflexivity|].
  field. lra.
Qed.

End NoBridge.

(** ** Generalized IoU

    [giou] is at most [iou] as soon as the polygon returned by [merge]
    is at least as large as the union. *)

Section Giou.

Context {num : Numeric}.
Variable atan2 : Q -> Q -> Q.
Variable _pi : Q.

Lemma giou_le_iou (p1 p2 pi pm : Poly2.t) (xflags : list Z) (writes : list (Z * Z)) :
  intersect atan2 _pi p1 p2 = Ret (pi, xflags) ->
  merge atan2 _pi p1 p2 = Ret (pm, writes) ->
  0 < area pm ->
  area p1 + area p2 - area pi <= area pm ->
  exists v g nm mflags,
    iou atan2 _pi p1 p2 = Ret (v, Poly2.nvertices pi, xflags) /\
    giou atan2 _pi p1 p2 = Ret (g, Poly2.nvertices pi, nm, xflags, mflags) /\
    g <= v.
Proof.
  intros Hi Hm Hpos Hle. unfold iou, giou. rewrite Hi. simpl bind. rewrite Hm. simpl bind.
  eexists _, _, _, _. split; [reflexivity|]. split; [reflexivity|].
  assert ((area p1 + area p2 - area pi) / area pm <= 1)
    by (apply Qle_shift_div_r; [exact Hpos | lra]).
  lra.
Qed.

End Giou.

(** ** Distance-IoU *)

Section Diou.

Context {num : Numeric}.
Variable hypot : Q -> Q -> Q.
Variable atan2 : Q -> Q -> Q.
Variable _pi : Q.

(** C7. When the calls it makes return ([iou], [merge], and [dimension] on
    the merged hull), [diou(p1, p2)] returns [iou(p1, p2)] minus the squared
    distance between the two centroids divided by the squared diameter of
    [merge(p1, p2)]; the squared distance is the squared Euclidean distance
    [dx * dx + dy * dy] as soon as [hypot dx dy] squares to it. *)
Theorem diou_formula (p1 p2 pm : Poly2.t) (v_iou maxd : Q) (nx i1 i2 : Z)
    (xflags : list Z) (writes : list (Z * Z)) :
  iou atan2 _pi p1 p2 = Ret (v_iou, nx, xflags) ->
  merge atan2 _pi p1 p2 = Ret (pm, writes) ->
  dimension hypot pm 0 0 = Ret (maxd, i1, i2) ->
  let c1 := centroid p1 in
  let c2 := centroid p2 in
  let dx := Point2.x c1 - Point2.x c2 in
  let dy := Point2.y c1 - Point2.y c2 in
  hypot dx dy * hypot dx dy == dx * dx + dy * dy ->
  exists v dflag1 dflag2,
    diou hypot atan2 _pi p1 p2 = Ret (v, nx, dflag1, dflag2, xflags) /\
    v == v_iou - (distance_pp hypot c1 c2 * distance_pp hypot c1 c2) / (maxd * maxd) /\
    v == v_iou - (dx * dx + dy * dy) / (maxd * maxd).
Proof.
  intros Hiou Hmerge Hdim c1 c2 dx dy Hhyp.
  unfold diou. rewrite Hiou. simpl bind. rewrite Hmerge. simpl bind.
  rewrite Hdim. simpl bind.
  eexists _, _, _. split; [reflexivity|]. fold c1 c2. split; [reflexivity|].
  unfold distance_pp. fold dx dy. rewrite Hhyp. reflexivity.
Qed.

End Diou.

(** ** The decision procedure for counter-clockwise convexity *)

Lemma In_indices (n i : Z) : In i (indices n) <-> (0 <= i < n)%Z.
Proof.
  unfold indices. rewrite in_map_iff. split.
  - intros (k & <- & Hk). apply in_seq in Hk. lia.
  - intros Hi. exists (Z.to_nat i). split; [lia | apply in_seq; lia].
Qed.

Lemma ccw_convexb_sound (p : Poly2.t) : ccw_convexb p = true -> ccw_convex p.
Proof.
  unfold ccw_convexb, ccw_convex. rewrite andb_true_iff.
  intros [Hall Hex]. split.
  - intros i k Hi Hk.
    rewrite forallb_forall in Hall. specialize (Hall i (proj2 (In_indices _ _) Hi)).
    rewrite forallb_forall in Hall. specialize (Hall k (proj2 (In_indices _ _) Hk)).
    now apply Qle_bool_iff.
  - apply existsb_exists in Hex. destruct Hex as (i & Hi & Hex).
    apply existsb_exists in Hex. destruct Hex as (k & Hk & Hpos).
    exists i, k. rewrite In_indices in Hi, Hk. repeat split; try lia.
    now apply Qltb_lt.
Qed.

(** ** The properties on concrete polygons *)

Lemma area_shoelace_witness :
  (3 <= Poly2.nvertices triangle_a)%Z /\ ccw_convex triangle_a /\ 0 < area triangle_a.
Proof.
  assert (H3 : (3 <= Poly2.nvertices triangle_a)%Z) by (vm_compute; discriminate).
  assert (Hc : ccw_convex triangle_a) by (apply ccw_convexb_sound; vm_compute; reflexivity).
  split; [exact H3 | split; [exact Hc |]].
  exact (proj2 (proj2 (area_shoelace triangle_a) H3) Hc).
Defined.

Lemma area_grad_coefficients_witness :
  (3 <= Poly2.nvertices triangle_a <= Poly2.capacity (Poly2.empty 3))%Z /\
  Point2.x (area_grad triangle_a 1 (@this Poly2.t) (Poly2.empty 3)).[0] == - (1) /\
  Point2.y (area_grad triangle_a 1 (@this Poly2.t) (Poly2.empty 3)).[0] == - (3).
Proof.
  assert (Hn : (3 <= Poly2.nvertices triangle_a <= Poly2.capacity (Poly2.empty 3))%Z)
    by (vm_compute; split; discriminate).
  split; [exact Hn|].
  destruct (proj2 (area_grad_coefficients triangle_a (Poly2.empty 3) 1) Hn 0%Z) as [Hx Hy];
    [vm_compute; split; [discriminate | reflexivity] |].
  split.
  - rewrite Hx. vm_compute. reflexivity.
  - rewrite Hy. vm_compute. reflexivity.
Defined.

Lemma intersect_no_bridge_witness :
  Poly2.wf quad_c /\ Poly2.wf triangle_c /\
  exists r xflags,
    @intersect_RotatingCaliper Numeric_double Qatan2 Qpi quad_c triangle_c = Ret (r, xflags) /\
    Poly2.nvertices r = 3%Z /\
    (forall i, (0 <= i < 3)%Z -> r.[i] = triangle_c.[i]) /\
    (forall i, (0 <= i < 3)%Z ->
               flag_index (flag_at xflags i) = i /\ Z.land (flag_at xflags i) 1 = 0%Z).
Proof.
  assert (W1 : Poly2.wf quad_c) by (vm_compute; repeat split; discriminate).
  assert (W2 : Poly2.wf triangle_c) by (vm_compute; repeat split; discriminate).
  split; [exact W1 | split; [exact W2 |]].
  destruct (@intersect_no_bridge Numeric_double Qatan2 Qpi quad_c triangle_c false W1 W2)
    as (r & xflags & Hr & _ & _ & Hn & Hv & _ & Hf).
  - vm_compute. reflexivity.
  - exists r, xflags. split; [exact Hr|]. split; [exact Hn|]. split; [exact Hv|].
    intros i Hi. destruct (Hf i Hi) as (_ & H1 & H2). split; assumption.
Defined.

Lemma iou_self_witness :
  Poly2.wf triangle_a /\ ccw_convex triangle_a /\
  exists v xflags,
    @iou Numeric_double Qatan2 Qpi triangle_a triangle_a = Ret (v, 3%Z, xflags) /\ v == 1.
Proof.
  assert (W : Poly2.wf triangle_a) by (vm_compute; repeat split; discriminate).
  assert (Hc : ccw_convex triangle_a) by (apply ccw_convexb_sound; vm_compute; reflexivity).
  split; [exact W | split; [exact Hc |]].
  apply (@iou_self Numeric_double Qatan2 Qpi triangle_a W); [vm_compute; discriminate | exact Hc].
Defined.

Lemma diou_formula_witness :
  exists v dflag1 dflag2,
    @diou Numeric_double Qhypot Qatan2 Qpi triangle_a triangle_b
    = Ret (v, 3%Z, dflag1, dflag2, [2; 3; 5]%Z) /\
    v == fst (fst (match @iou Numeric_double Qatan2 Qpi triangle_a triangle_b with
                   | Ret r => r
                   | _ => (0, 0%Z, [])
                   end))
         - (100 # 9) / (diameter_ab * diameter_ab).
Proof.
  destruct (@iou Numeric_double Qatan2 Qpi triangle_a triangle_b) as [[[v_iou nx] xflags]| |] eqn:Hiou;
    [| vm_compute in Hiou; discriminate | vm_compute in Hiou; discriminate].
  destruct (@merge Numeric_double Qatan2 Qpi triangle_a triangle_b) as [[pm writes]| |] eqn:Hmerge;
    [| vm_compute in Hmerge; discriminate | vm_compute in Hmerge; discriminate].
  destruct (@dimension Qhypot pm 0 0) as [[[maxd i1] i2]| |] eqn:Hdim;
    [| vm_compute in Hmerge; injection Hmerge as <- _; vm_compute in Hdim; discriminate
     | vm_compute in Hmerge; injection Hmerge as <- _; vm_compute in Hdim; discriminate].
  destruct (@diou_formula Numeric_double Qhypot Qatan2 Qpi triangle_a triangle_b pm v_iou maxd
              nx i1 i2 xflags writes Hiou Hmerge Hdim) as (v & d1 & d2 & Hd & _ & Hv).
  - vm_compute. reflexivity.
  - exists v, d1, d2.
    assert (E : nx = 3%Z /\ xflags = [2; 3; 5]%Z).
    { vm_compute in Hiou. injection Hiou as _ <- <-. split; reflexivity. }
    destruct E as [-> ->]. split; [exact Hd|].
    rewrite Hv. simpl fst.
    assert (M : maxd = diameter_ab).
    { vm_compute in Hmerge. injection Hmerge as <- _.
      vm_compute in Hdim. injection Hdim as <- _ _. reflexivity. }
    rewrite M.
    apply Qplus_comp; [reflexivity|]. apply Qopp_comp.
    apply Qmult_comp; [vm_compute; reflexivity | reflexivity].
Defined.

(** ** The reference angle function

    [Qatan2] orders the directions as the angle [atan2] does: its sign is
    the sign of the angle ([Qatan2_sign]), and inside the upper and the
    lower half-plane it increases with the counter-clockwise turn
    ([Qatan2_upper], [Qatan2_lower]). *)

Lemma Qdiv_lt_cross (a b d1 d2 : Q) :
  0 < d1 -> 0 < d2 -> (a / d1 < b / d2 <-> a * d2 < b * d1).
Proof.
  intros H1 H2.
  assert (E1 : a * d2 == (a / d1) * (d1 * d2)) by (field; lra).
  assert (E2 : b * d1 == (b / d2) * (d1 * d2)) by (field; lra).
  rewrite E1, E2.
  assert (Hp : 0 < d1 * d2) by nra.
  split; intros H; nra.
Qed.

Lemma Qleb_true (u v : Q) : u <= v -> Qleb u v = true.
Proof. intros H. now apply Qle_bool_iff. Qed.

Lemma Qleb_false (u v : Q) : v < u -> Qleb u v = false.
Proof.
  intros H. unfold Qleb. destruct (Qle_bool u v) eqn:E; [|reflexivity].
  apply Qle_bool_iff in E. lra.
Qed.

Lemma Qeqb0_true (u : Q) : u == 0 -> Qeqb0 u = true.
Proof. intros H. now apply Qeq_bool_iff. Qed.

Lemma Qeqb0_false (u : Q) : ~ u == 0 -> Qeqb0 u = false.
Proof.
  intros H. unfold Qeqb0. destruct (Qeq_bool u 0) eqn:E; [|reflexivity].
  apply Qeq_bool_iff in E. contradiction.
Qed.

Lemma Qpos_of_nonneg (u : Q) : 0 <= u -> ~ u == 0 -> 0 < u.
Proof.
  intros H N. destruct (Qle_lt_or_eq _ _ H) as [L|E]; [exact L|].
  symmetry in E. contradiction.
Qed.

Lemma Qatan2_spec (y x : Q) : exists v, Qatan2 y x == v /\ Qatan2_case y x v.
Proof.
  unfold Qatan2.
  destruct (Qlt_le_dec y 0) as [Hy|Hy], (Qlt_le_dec x 0) as [Hx|Hx].
  - rewrite (@Qeqb0_false x), (@Qleb_false 0 y), (@Qleb_false 0 x) by lra.
    simpl andb. cbv iota zeta.
    eexists. split; [|now apply atan2_q3].
    rewrite (Qabs_neg x), (Qabs_neg y) by lra. reflexivity.
  - rewrite (@Qeqb0_false y), (@Qleb_false 0 y), (@Qleb_true 0 x) by lra.
    rewrite andb_false_r. cbv iota zeta.
    eexists. split; [|now apply atan2_q4].
    rewrite (Qabs_pos x), (Qabs_neg y) by lra. reflexivity.
  - rewrite (@Qeqb0_false x), (@Qleb_true 0 y), (@Qleb_false 0 x) by lra.
    simpl andb. cbv iota zeta.
    eexists. split; [|now apply atan2_q2].
    rewrite (Qabs_neg x), (Qabs_pos y) by lra. reflexivity.
  - rewrite (@Qleb_true 0 y), (@Qleb_true 0 x) by lra.
    destruct (Qeq_dec x 0) as [Ex|Ex], (Qeq_dec y 0) as [Ey|Ey].
    + rewrite (@Qeqb0_true x), (@Qeqb0_true y) by assumption. simpl andb. cbv iota.
      eexists. split; [reflexivity | now apply atan2_origin].
    + rewrite (@Qeqb0_false y) by assumption. rewrite andb_false_r. cbv iota zeta.
      pose proof (Qpos_of_nonneg Hy Ey).
      eexists. split; [|apply atan2_q1; lra].
      rewrite (Qabs_pos x), (Qabs_pos y) by lra. reflexivity.
    + rewrite (@Qeqb0_false x) by assumption. simpl andb. cbv iota zeta.
      pose proof (Qpos_of_nonneg Hx Ex).
      eexists. split; [|apply atan2_q1; lra].
      rewrite (Qabs_pos x), (Qabs_pos y) by lra. reflexivity.
    + rewrite (@Qeqb0_false x) by assumption. simpl andb. cbv iota zeta.
      pose proof (Qpos_of_nonneg Hx Ex).
      eexists. split; [|apply atan2_q1; lra].
      rewrite (Qabs_pos x), (Qabs_pos y) by lra. reflexivity.
Qed.

(** In the open upper and in the open lower half-plane the reference
    instance increases with the counter-clockwise turn. *)
Lemma Qatan2_upper (y1 x1 y2 x2 : Q) :
  0 < y1 -> 0 < y2 ->
  (Qatan2 y1 x1 < Qatan2 y2 x2 <-> 0 < x1 * y2 - y1 * x2).
Proof.
  intros H1 H2.
  destruct (Qatan2_spec y1 x1) as (v1 & E1 & C1), (Qatan2_spec y2 x2) as (v2 & E2 & C2).
  rewrite E1, E2. clear E1 E2.
  destruct C1 as [? ?|? ? ?|? ?|? ?|? ?]; try lra;
  destruct C2 as [? ?|? ? ?|? ?|? ?|? ?]; try lra.
  - rewrite Qdiv_lt_cross by lra. split; intros; nra.
  - assert (y1 / (x1 + y1) <= 1) by (apply Qle_shift_div_r; lra).
    assert (y2 / (- x2 + y2) < 1) by (apply Qlt_shift_div_r; lra).
    split; intros; nra.
  - assert (y2 / (x2 + y2) <= 1) by (apply Qle_shift_div_r; lra).
    assert (y1 / (- x1 + y1) < 1) by (apply Qlt_shift_div_r; lra).
    split; intros; nra.
  - assert (E : 2 - y1 / (- x1 + y1) < 2 - y2 / (- x2 + y2)
                <-> y2 / (- x2 + y2) < y1 / (- x1 + y1)) by (split; intros; lra).
    rewrite E, Qdiv_lt_cross by lra. split; intros; nra.
Qed.

Lemma Qatan2_lower (y1 x1 y2 x2 : Q) :
  y1 < 0 -> y2 < 0 ->
  (Qatan2 y1 x1 < Qatan2 y2 x2 <-> 0 < x1 * y2 - y1 * x2).
Proof.
  intros H1 H2.
  destruct (Qatan2_spec y1 x1) as (v1 & E1 & C1), (Qatan2_spec y2 x2) as (v2 & E2 & C2).
  rewrite E1, E2. clear E1 E2.
  destruct C1 as [? ?|? ? ?|? ?|? ?|? ?]; try lra;
  destruct C2 as [? ?|? ? ?|? ?|? ?|? ?]; try lra.
  - rewrite Qdiv_lt_cross by lra. split; intros; nra.
  - assert (- (1) <= y1 / (x1 - y1)) by (apply Qle_shift_div_l; lra).
    assert (- (1) < y2 / (- x2 - y2)) by (apply Qlt_shift_div_l; lra).
    assert (y2 / (- x2 - y2) < 0) by (apply Qlt_shift_div_r; lra).
    split; intros; nra.
  - assert (- (1) <= y2 / (x2 - y2)) by (apply Qle_shift_div_l; lra).
    assert (- (1) < y1 / (- x1 - y1)) by (apply Qlt_shift_div_l; lra).
    assert (y1 / (- x1 - y1) < 0) by (apply Qlt_shift_div_r; lra).
    split; intros; nra.
  - assert (E : - (2) - y1 / (- x1 - y1) < - (2) - y2 / (- x2 - y2)
                <-> y2 / (- x2 - y2) < y1 / (- x1 - y1)) by (split; intros; lra).
    rewrite E, Qdiv_lt_cross by lra. split; intros; nra.
Qed.

(** The sign of the reference instance is the sign of the angle: negative
    below the [x] axis, positive above it, [0] on its positive half and
    [Qpi] on its negative half. *)
Lemma Qatan2_sign (y x : Q) :
  (y < 0 -> - (2) < Qatan2 y x /\ Qatan2 y x < 0) /\
  (0 < y -> 0 < Qatan2 y x /\ Qatan2 y x < 2) /\
  (y == 0 -> 0 <= x -> Qatan2 y x == 0) /\
  (y == 0 -> x < 0 -> Qatan2 y x == 2).
Proof.
  destruct (Qatan2_spec y x) as (v & E & C). rewrite E. clear E.
  destruct C as [? ?|? ? ?|? ?|? ?|? ?].
  - repeat split; intros; lra.
  - assert (0 <= y / (x + y)) by (apply Qle_shift_div_l; lra).
    assert (y / (x + y) <= 1) by (apply Qle_shift_div_r; lra).
    repeat split; intros; try lra.
    + apply Qlt_shift_div_l; lra.
    + setoid_replace y with 0 by assumption. field. lra.
  - assert (0 <= y / (- x + y)) by (apply Qle_shift_div_l; lra).
    assert (y / (- x + y) < 1) by (apply Qlt_shift_div_r; lra).
    repeat split; intros; try lra.
    + assert (0 < y / (- x + y)) by (apply Qlt_shift_div_l; lra). lra.
    + setoid_replace y with 0 by assumption. field. lra.
  - assert (- (1) <= y / (x - y)) by (apply Qle_shift_div_l; lra).
    assert (y / (x - y) < 0) by (apply Qlt_shift_div_r; lra).
    repeat split; intros; lra.
  - assert (- (1) < y / (- x - y)) by (apply Qlt_shift_div_l; lra).
    assert (y / (- x - y) < 0) by (apply Qlt_shift_div_r; lra).
    repeat split; intros; lra.
Qed.

(** ** The sweeps read the angles through their order only *)

Lemma bind_ext (A B : Type) (m : outcome A) (k k' : A -> outcome B) :
  (forall v, k v = k' v) -> bind m k = bind m k'.
Proof. intros H. destruct m; simpl; auto. Qed.

Section AngleOrder.

Context {num : Numeric}.
Variable atan2 : Q -> Q -> Q.
Variable _pi : Q.
Hypothesis Hord : same_order atan2 _pi.

Lemma same_angle_ltb (a a' b b' : Q) :
  same_angle atan2 _pi a a' -> same_angle atan2 _pi b b' -> Qltb a b = Qltb a' b'.
Proof.
  destruct Hord as (H1 & H2 & H3).
  intros [|y x] [|v u].
  - now rewrite !Qltb_irrefl.
  - apply H2.
  - apply H3.
  - apply H1.
Qed.

Lemma intersect_sweep_order (fuel : nat) (p1 p2 : Poly2.t) :
  forall (pidx1 pidx2 : Z) (ea ea' : Q) (edge_flag : bool) (x1 x2 : list Z),
    same_angle atan2 _pi ea ea' ->
    intersect_sweep atan2 fuel p1 p2 pidx1 pidx2 ea edge_flag x1 x2
    = intersect_sweep Qatan2 fuel p1 p2 pidx1 pidx2 ea' edge_flag x1 x2.
Proof.
  induction fuel as [|fuel IH]; intros pidx1 pidx2 ea ea' edge_flag x1 x2 Hea;
    [reflexivity|].
  cbn [intersect_sweep]. cbv zeta. unfold _slope_pp.
  rewrite !(same_angle_ltb Hea (same_slope atan2 _pi _ _)).
  rewrite !(same_angle_ltb (same_slope atan2 _pi _ _) Hea).
  rewrite !(proj1 Hord).
  repeat match goal with
         | |- (if ?c then _ else _) = (if ?c then _ else _) => destruct c
         end; try reflexivity;
    (apply bind_ext; intros [[|] reverse];
     [ apply bind_ext; intros [[xa xb]|]; [apply IH; constructor | reflexivity]
     | apply IH; constructor ]).
Qed.

Lemma merge_sweep_order (fuel : nat) (p1 p2 : Poly2.t) :
  forall (pidx1 pidx2 : Z) (ea ea' : Q) (edge_flag : bool) (h : hull),
    same_angle atan2 _pi ea ea' ->
    merge_sweep atan2 fuel p1 p2 pidx1 pidx2 ea edge_flag h
    = merge_sweep Qatan2 fuel p1 p2 pidx1 pidx2 ea' edge_flag h.
Proof.
  induction fuel as [|fuel IH]; intros pidx1 pidx2 ea ea' edge_flag h Hea;
    [reflexivity|].
  cbn [merge_sweep]. cbv zeta. unfold _slope_pp.
  rewrite !(same_angle_ltb Hea (same_slope atan2 _pi _ _)).
  rewrite !(same_angle_ltb (same_slope atan2 _pi _ _) Hea).
  rewrite !(proj1 Hord).
  repeat match goal with
         | |- (if ?c then _ else _) = (if ?c then _ else _) => destruct c
         end; try reflexivity;
    (apply bind_ext; intros [[|] reverse]; simpl fst; cbv iota; apply IH; constructor).
Qed.

(** The rotating-caliper intersection, the merge and the metrics built on
    them return the same results with [atan2] as with the reference
    instance. *)
Lemma intersect_RotatingCaliper_order (p1 p2 : Poly2.t) :
  intersect_RotatingCaliper atan2 _pi p1 p2 = intersect_RotatingCaliper Qatan2 Qpi p1 p2.
Proof.
  unfold intersect_RotatingCaliper.
  now rewrite (intersect_sweep_order _ _ _ _ _ _ _ _ (same_start atan2 _pi)).
Qed.

Lemma merge_order (p1 p2 : Poly2.t) :
  merge atan2 _pi p1 p2 = merge Qatan2 Qpi p1 p2.
Proof.
  unfold merge.
  destruct (_find_extreme p1) as [pidx1 y_max1], (_find_extreme p2) as [pidx2 y_max2].
  apply bind_ext. intros chk. unfold _slope_pp. rewrite !(proj1 Hord).
  apply merge_sweep_order. constructor.
Qed.

Lemma iou_order (p1 p2 : Poly2.t) : iou atan2 _pi p1 p2 = iou Qatan2 Qpi p1 p2.
Proof. unfold iou, intersect. now rewrite intersect_RotatingCaliper_order. Qed.

Lemma giou_order (p1 p2 : Poly2.t) : giou atan2 _pi p1 p2 = giou Qatan2 Qpi p1 p2.
Proof.
  unfold giou, intersect. rewrite intersect_RotatingCaliper_order.
  apply bind_ext. intros [pi xflags]. now rewrite merge_order.
Qed.

Lemma diou_mflags_accesses_order (hypot : Q -> Q -> Q) (p1 p2 : Poly2.t) :
  diou_mflags_accesses hypot atan2 _pi p1 p2 = diou_mflags_accesses hypot Qatan2 Qpi p1 p2.
Proof. unfold diou_mflags_accesses. now rewrite merge_order. Qed.

End AngleOrder.

(** ** The budget of the sweeps is enough *)

Lemma Qltb_trans (u v w : Q) : Qltb u v = true -> Qltb v w = true -> Qltb u w = true.
Proof. rewrite !Qltb_lt. apply Qlt_trans. Qed.

Lemma count_above_mono (l : list Q) (ea ea' : Q) :
  Qltb ea ea' = true -> (count_above l ea' <= count_above l ea)%nat.
Proof.
  intros H. unfold count_above. induction l as [|a l IH]; simpl; [lia|].
  destruct (Qltb ea' a) eqn:E.
  - rewrite (Qltb_trans _ _ _ H E). simpl. lia.
  - destruct (Qltb ea a); simpl; lia.
Qed.

Lemma count_above_strict (l : list Q) (ea a : Q) :
  In a l -> Qltb ea a = true -> (count_above l a < count_above l ea)%nat.
Proof.
  intros Hin H. unfold count_above. induction l as [|b l IH]; simpl; [contradiction|].
  destruct Hin as [-> | Hin].
  - rewrite Qltb_irrefl, H. simpl.
    pose proof (count_above_mono l _ _ H). unfold count_above in *. lia.
  - specialize (IH Hin).
    destruct (Qltb a b) eqn:E.
    + rewrite (Qltb_trans _ _ _ H E). simpl. lia.
    + destruct (Qltb ea b); simpl; lia.
Qed.

Lemma count_above_length (l : list Q) (ea : Q) : (count_above l ea <= length l)%nat.
Proof. unfold count_above. apply filter_length_le. Qed.

Lemma _mod_inc_range (i n : Z) :
  (0 <= i)%Z -> (n <= 256)%Z -> (0 <= _mod_inc i n < Z.max 1 n)%Z.
Proof.
  intros Hi Hn. unfold _mod_inc, to_u8.
  destruct (Z.ltb_spec i (n - 1)); [|lia].
  rewrite Z.mod_small; lia.
Qed.

Lemma _find_extreme_range (p : Poly2.t) :
  (0 <= fst (_find_extreme p) < Z.max 1 (Poly2.nvertices p))%Z.
Proof.
  unfold _find_extreme.
  destruct (Z.le_gt_cases 1 (Poly2.nvertices p)) as [Hn|Hn].
  - apply (for_loop_invariant
             (fun k (st : Z * Q) => (0 <= fst st < Z.max 1 k)%Z)); [exact Hn | simpl; lia |].
    intros i st Hi Hst. destruct (Qgtb _ _); simpl; lia.
  - rewrite for_loop_empty by lia. simpl. lia.
Qed.

Section SweepBudget.

Context {num : Numeric}.
Variable atan2 : Q -> Q -> Q.

Lemma In_edge_angles (p : Poly2.t) (i : Z) :
  (0 <= i < Z.max 1 (Poly2.nvertices p))%Z ->
  In (_slope_pp atan2 p.[i] p.[_mod_inc i (Poly2.nvertices p)]) (edge_angles atan2 p).
Proof.
  intros Hi. unfold edge_angles.
  apply (in_map (fun i => _slope_pp atan2 p.[i] p.[_mod_inc i (Poly2.nvertices p)])).
  now apply In_indices.
Qed.

Lemma steps_left_first (p1 p2 : Poly2.t) (ea : Q) (i : Z) :
  (0 <= i < Z.max 1 (Poly2.nvertices p1))%Z ->
  let a := _slope_pp atan2 p1.[i] p1.[_mod_inc i (Poly2.nvertices p1)] in
  Qltb ea a = true -> (steps_left atan2 p1 p2 a < steps_left atan2 p1 p2 ea)%nat.
Proof.
  intros Hi a H. unfold steps_left.
  pose proof (count_above_strict _ _ _ (In_edge_angles p1 Hi) H).
  pose proof (count_above_mono (edge_angles atan2 p2) _ _ H). fold a in H0. lia.
Qed.

Lemma steps_left_second (p1 p2 : Poly2.t) (ea : Q) (i : Z) :
  (0 <= i < Z.max 1 (Poly2.nvertices p2))%Z ->
  let a := _slope_pp atan2 p2.[i] p2.[_mod_inc i (Poly2.nvertices p2)] in
  Qltb ea a = true -> (steps_left atan2 p1 p2 a < steps_left atan2 p1 p2 ea)%nat.
Proof.
  intros Hi a H. unfold steps_left.
  pose proof (count_above_strict _ _ _ (In_edge_angles p2 Hi) H).
  pose proof (count_above_mono (edge_angles atan2 p1) _ _ H). fold a in H0. lia.
Qed.

Lemma intersect_sweep_budget (p1 p2 : Poly2.t) (k : nat) :
  (Poly2.nvertices p1 <= 256)%Z -> (Poly2.nvertices p2 <= 256)%Z ->
  forall (fuel : nat) (pidx1 pidx2 : Z) (ea : Q) (edge_flag : bool) (x1 x2 : list Z),
    (0 <= pidx1 < Z.max 1 (Poly2.nvertices p1))%Z ->
    (0 <= pidx2 < Z.max 1 (Poly2.nvertices p2))%Z ->
    (steps_left atan2 p1 p2 ea < fuel)%nat ->
    intersect_sweep atan2 (fuel + k) p1 p2 pidx1 pidx2 ea edge_flag x1 x2
    = intersect_sweep atan2 fuel p1 p2 pidx1 pidx2 ea edge_flag x1 x2.
Proof.
  intros Hn1 Hn2.
  induction fuel as [|fuel IH]; intros pidx1 pidx2 ea edge_flag x1 x2 H1 H2 Hs; [lia|].
  change (S fuel + k)%nat with (S (fuel + k)).
  cbn [intersect_sweep]. cbv zeta.
  pose proof (@steps_left_first p1 p2 ea pidx1 H1) as S1.
  pose proof (@steps_left_second p1 p2 ea pidx2 H2) as S2.
  cbv zeta in S1, S2.
  pose proof (@_mod_inc_range pidx1 (Poly2.nvertices p1) ltac:(lia) Hn1) as R1.
  pose proof (@_mod_inc_range pidx2 (Poly2.nvertices p2) ltac:(lia) Hn2) as R2.
  destruct (Qltb ea (_slope_pp atan2 p1.[pidx1] _)) eqn:E1; simpl andb.
  - specialize (S1 eq_refl).
    match goal with
    | |- (if ?c then _ else _) = _ => destruct c
    end.
    + apply bind_ext; intros [[|] reverse];
        [ apply bind_ext; intros [[xa xb]|]; [apply IH; [assumption | assumption | lia] | reflexivity]
        | apply IH; [assumption | assumption | lia] ].
    + destruct (Qltb ea (_slope_pp atan2 p2.[pidx2] _)) eqn:E2; simpl andb; [|reflexivity].
      specialize (S2 eq_refl).
      match goal with
      | |- (if ?c then _ else _) = _ => destruct c
      end; [|reflexivity].
      apply bind_ext; intros [[|] reverse];
        [ apply bind_ext; intros [[xa xb]|]; [apply IH; [assumption | assumption | lia] | reflexivity]
        | apply IH; [assumption | assumption | lia] ].
  - destruct (Qltb ea (_slope_pp atan2 p2.[pidx2] _)) eqn:E2; simpl andb; [|reflexivity].
    specialize (S2 eq_refl).
    match goal with
    | |- (if ?c then _ else _) = _ => destruct c
    end; [|reflexivity].
    apply bind_ext; intros [[|] reverse];
      [ apply bind_ext; intros [[xa xb]|]; [apply IH; [assumption | assumption | lia] | reflexivity]
      | apply IH; [assumption | assumption | lia] ].
Qed.

Lemma merge_sweep_budget (p1 p2 : Poly2.t) (k : nat) :
  (Poly2.nvertices p1 <= 256)%Z -> (Poly2.nvertices p2 <= 256)%Z ->
  forall (fuel : nat) (pidx1 pidx2 : Z) (ea : Q) (edge_flag : bool) (h : hull),
    (0 <= pidx1 < Z.max 1 (Poly2.nvertices p1))%Z ->
    (0 <= pidx2 < Z.max 1 (Poly2.nvertices p2))%Z ->
    (steps_left atan2 p1 p2 ea < fuel)%nat ->
    merge_sweep atan2 (fuel + k) p1 p2 pidx1 pidx2 ea edge_flag h
    = merge_sweep atan2 fuel p1 p2 pidx1 pidx2 ea edge_flag h.
Proof.
  intros Hn1 Hn2.
  induction fuel as [|fuel IH]; intros pidx1 pidx2 ea edge_flag h H1 H2 Hs; [lia|].
  change (S fuel + k)%nat with (S (fuel + k)).
  cbn [merge_sweep]. cbv zeta.
  pose proof (@steps_left_first p1 p2 ea pidx1 H1) as S1.
  pose proof (@steps_left_second p1 p2 ea pidx2 H2) as S2.
  cbv zeta in S1, S2.
  pose proof (@_mod_inc_range pidx1 (Poly2.nvertices p1) ltac:(lia) Hn1) as R1.
  pose proof (@_mod_inc_range pidx2 (Poly2.nvertices p2) ltac:(lia) Hn2) as R2.
  destruct (Qltb ea (_slope_pp atan2 p1.[pidx1] _)) eqn:E1; simpl andb.
  - specialize (S1 eq_refl).
    match goal with
    | |- (if ?c then _ else _) = _ => destruct c
    end.
    + apply bind_ext; intros [[|] reverse]; simpl fst; cbv iota;
        (apply IH; [assumption | assumption | lia]).
    + destruct (Qltb ea (_slope_pp atan2 p2.[pidx2] _)) eqn:E2; simpl andb; [|reflexivity].
      specialize (S2 eq_refl).
      match goal with
      | |- (if ?c then _ else _) = _ => destruct c
      end; [|reflexivity].
      apply bind_ext; intros [[|] reverse]; simpl fst; cbv iota;
        (apply IH; [assumption | assumption | lia]).
  - destruct (Qltb ea (_slope_pp atan2 p2.[pidx2] _)) eqn:E2; simpl andb; [|reflexivity].
    specialize (S2 eq_refl).
    match goal with
    | |- (if ?c then _ else _) = _ => destruct c
    end; [|reflexivity].
    apply bind_ext; intros [[|] reverse]; simpl fst; cbv iota;
      (apply IH; [assumption | assumption | lia]).
Qed.

Lemma length_indices (n : Z) : length (indices n) = Z.to_nat n.
Proof. unfold indices. now rewrite length_map, length_seq. Qed.

Lemma length_edge_angles (p : Poly2.t) :
  length (edge_angles atan2 p) = Z.to_nat (Z.max 1 (Poly2.nvertices p)).
Proof. unfold edge_angles. now rewrite length_map, length_indices. Qed.

Lemma steps_left_budget (p1 p2 : Poly2.t) (ea : Q) :
  (0 <= Poly2.nvertices p1)%Z -> (0 <= Poly2.nvertices p2)%Z ->
  (steps_left atan2 p1 p2 ea < sweep_fuel p1 p2)%nat.
Proof.
  intros H1 H2. unfold steps_left, sweep_fuel.
  pose proof (count_above_length (edge_angles atan2 p1) ea) as L1.
  pose proof (count_above_length (edge_angles atan2 p2) ea) as L2.
  rewrite length_edge_angles in L1, L2. lia.
Qed.

(** The budget of the sweeps is enough: a sweep given more iterations than
    [sweep_fuel] returns what it returns with [sweep_fuel]. *)
Lemma intersect_sweep_enough (p1 p2 : Poly2.t) (_pi : Q) (k : nat) :
  Poly2.wf p1 -> Poly2.wf p2 ->
  intersect_sweep atan2 (sweep_fuel p1 p2 + k) p1 p2
    (fst (_find_extreme p1)) (fst (_find_extreme p2)) (- _pi) false [] []
  = intersect_sweep atan2 (sweep_fuel p1 p2) p1 p2
      (fst (_find_extreme p1)) (fst (_find_extreme p2)) (- _pi) false [] [].
Proof.
  intros [Hc1 Hn1] [Hc2 Hn2].
  apply intersect_sweep_budget; try lia; try apply _find_extreme_range.
  apply steps_left_budget; lia.
Qed.

Lemma merge_sweep_enough (p1 p2 : Poly2.t) (_pi : Q) (k : nat) (edge_flag : bool) (h : hull) :
  Poly2.wf p1 -> Poly2.wf p2 ->
  merge_sweep atan2 (sweep_fuel p1 p2 + k) p1 p2
    (fst (_find_extreme p1)) (fst (_find_extreme p2)) (- _pi) edge_flag h
  = merge_sweep atan2 (sweep_fuel p1 p2) p1 p2
      (fst (_find_extreme p1)) (fst (_find_extreme p2)) (- _pi) edge_flag h.
Proof.
  intros [Hc1 Hn1] [Hc2 Hn2].
  apply merge_sweep_budget; try lia; try apply _find_extreme_range.
  apply steps_left_budget; lia.
Qed.

End SweepBudget.

Lemma same_order_reference : same_order Qatan2 Qpi.
Proof. repeat split. Qed.

(** ** Inputs on which the code departs from the specification *)

(** A box turned by a quarter turn clockwise ([sin r = -1], [cos r = 0]) is
    listed by [poly2_from_xywhr] from its top-left vertex: [square2] and
    [square4] are such boxes. *)
Lemma quarter_turn_box (sin cos : Q -> Q) (c s r : Q) :
  sin r == - (1) -> cos r == 0 ->
  let b := poly2_from_xywhr sin cos c c s s r in
  Poly2.nvertices b = 4%Z /\
  Point2.eq b.[0] (Point2.mk (c - s / 2) (c + s / 2)) /\
  Point2.eq b.[1] (Point2.mk (c - s / 2) (c - s / 2)) /\
  Point2.eq b.[2] (Point2.mk (c + s / 2) (c - s / 2)) /\
  Point2.eq b.[3] (Point2.mk (c + s / 2) (c + s / 2)).
Proof.
  intros Hs Hc b. subst b. unfold poly2_from_xywhr, Point2.eq, Poly2.get. simpl.
  rewrite Hs, Hc. repeat split; field.
Qed.

Lemma square2_from_xywhr (sin cos : Q -> Q) (r : Q) :
  sin r == - (1) -> cos r == 0 ->
  forall i, (0 <= i < 4)%Z -> Point2.eq (poly2_from_xywhr sin cos 1 1 2 2 r).[i] square2.[i].
Proof.
  intros Hs Hc i Hi.
  destruct (quarter_turn_box sin cos 1 2 r Hs Hc) as (_ & E0 & E1 & E2 & E3).
  assert (Ei : i = 0%Z \/ i = 1%Z \/ i = 2%Z \/ i = 3%Z) by lia.
  destruct Ei as [-> | [-> | [-> | ->]]];
    [destruct E0 as [Ex Ey] | destruct E1 as [Ex Ey]
     | destruct E2 as [Ex Ey] | destruct E3 as [Ex Ey]];
    split; (rewrite Ex || rewrite Ey); vm_compute; reflexivity.
Qed.

Lemma square4_from_xywhr (sin cos : Q -> Q) (r : Q) :
  sin r == - (1) -> cos r == 0 ->
  forall i, (0 <= i < 4)%Z -> Point2.eq (poly2_from_xywhr sin cos 2 2 4 4 r).[i] square4.[i].
Proof.
  intros Hs Hc i Hi.
  destruct (quarter_turn_box sin cos 2 4 r Hs Hc) as (_ & E0 & E1 & E2 & E3).
  assert (Ei : i = 0%Z \/ i = 1%Z \/ i = 2%Z \/ i = 3%Z) by lia.
  destruct Ei as [-> | [-> | [-> | ->]]];
    [destruct E0 as [Ex Ey] | destruct E1 as [Ex Ey]
     | destruct E2 as [Ex Ey] | destruct E3 as [Ex Ey]];
    split; (rewrite Ex || rewrite Ey); vm_compute; reflexivity.
Qed.

(** C1 fails on [triangle_d] and [square2], two convex counter-clockwise
    polygons in general position, with every angle function that orders the
    directions as [atan2] does: the rotating-caliper intersection returns a
    polygon of area 0 and the Sutherland-Hodgeman intersection a polygon of
    area 2 (the area of the intersection).  The first vertex of [square2]
    is the left one of its two topmost vertices, and [_find_extreme] starts
    the sweep there. *)
Theorem intersect_algorithms_disagree (atan2 : Q -> Q -> Q) (_pi : Q) :
  same_order atan2 _pi ->
  ccw_convex triangle_d /\ ccw_convex square2 /\
  general_position triangle_d square2 = true /\
  returned_area (@intersect_RotatingCaliper Numeric_double atan2 _pi triangle_d square2)
  = Some 0 /\
  returned_area (@intersect_SutherlandHodgeman Numeric_double Qhypot triangle_d square2)
  = Some 2.
Proof.
  intros Hord. rewrite (intersect_RotatingCaliper_order Hord).
  split; [apply ccw_convexb_sound; vm_compute; reflexivity|].
  split; [apply ccw_convexb_sound; vm_compute; reflexivity|].
  repeat split; vm_compute; reflexivity.
Qed.

Lemma intersect_algorithms_disagree_witness :
  same_order Qatan2 Qpi /\
  returned_area (@intersect_RotatingCaliper Numeric_double Qatan2 Qpi triangle_d square2)
  = Some 0 /\
  returned_area (@intersect_SutherlandHodgeman Numeric_double Qhypot triangle_d square2)
  = Some 2.
Proof.
  split; [exact same_order_reference|].
  exact (proj2 (proj2 (proj2 (intersect_algorithms_disagree same_order_reference)))).
Defined.

(** With the square listed from its top-right vertex the two algorithms
    agree on the same pair. *)
Example intersect_algorithms_agree :
  returned_area (@intersect_RotatingCaliper Numeric_double Qatan2 Qpi triangle_d square2')
  = Some 2 /\
  returned_area (@intersect_SutherlandHodgeman Numeric_double Qhypot triangle_d square2')
  = Some 2.
Proof. split; vm_compute; reflexivity. Qed.

(** C6 fails on [triangle_e] and [square4], two convex counter-clockwise
    polygons in general position, with every angle function that orders the
    directions as [atan2] does: [giou] is larger than [iou].  The hull
    returned by [merge] lacks the top-right vertex of the square, and its
    area, 16, is smaller than the area of the union, 33/2. *)
Theorem giou_exceeds_iou (atan2 : Q -> Q -> Q) (_pi : Q) :
  same_order atan2 _pi ->
  ccw_convex triangle_e /\ ccw_convex square4 /\
  general_position triangle_e square4 = true /\
  returned_iou (@iou Numeric_double atan2 _pi triangle_e square4) = Some (8 # 33) /\
  returned_giou (@giou Numeric_double atan2 _pi triangle_e square4) = Some (289 # 1056) /\
  8 # 33 < 289 # 1056.
Proof.
  intros Hord. rewrite (iou_order Hord), (giou_order Hord).
  split; [apply ccw_convexb_sound; vm_compute; reflexivity|].
  split; [apply ccw_convexb_sound; vm_compute; reflexivity|].
  repeat split; vm_compute; reflexivity.
Qed.

Lemma giou_exceeds_iou_witness :
  same_order Qatan2 Qpi /\
  returned_iou (@iou Numeric_double Qatan2 Qpi triangle_e square4) = Some (8 # 33) /\
  returned_giou (@giou Numeric_double Qatan2 Qpi triangle_e square4) = Some (289 # 1056) /\
  8 # 33 < 289 # 1056.
Proof.
  split; [exact same_order_reference|].
  exact (proj2 (proj2 (proj2 (giou_exceeds_iou same_order_reference)))).
Defined.

(** C10 fails on [nonagon] and [triangle_f] (the triangle lies inside the
    polygon of nine vertices, which is their hull), with every angle
    function that orders the directions as [atan2] does: [diou] accesses
    its array [uint8_t mflags[8]] at the index 8.  The call to [merge]
    writes the flag of the ninth hull vertex there, and [dflag1] is read
    from there. *)
Theorem diou_mflags_out_of_bounds (atan2 : Q -> Q -> Q) (_pi : Q) :
  same_order atan2 _pi ->
  Poly2.wf nonagon /\ Poly2.wf triangle_f /\
  ccw_convex nonagon /\ ccw_convex triangle_f /\
  general_position nonagon triangle_f = true /\
  @diou_mflags_accesses Numeric_double Qhypot atan2 _pi nonagon triangle_f
  = Ret [0; 1; 2; 3; 4; 5; 6; 7; 8; 8; 4]%Z.
Proof.
  intros Hord. rewrite (diou_mflags_accesses_order Hord).
  split; [vm_compute; repeat split; discriminate|].
  split; [vm_compute; repeat split; discriminate|].
  split; [apply ccw_convexb_sound; vm_compute; reflexivity|].
  split; [apply ccw_convexb_sound; vm_compute; reflexivity|].
  split; vm_compute; reflexivity.
Qed.

Lemma diou_mflags_out_of_bounds_witness :
  same_order Qatan2 Qpi /\
  @diou_mflags_accesses Numeric_double Qhypot Qatan2 Qpi nonagon triangle_f
  = Ret [0; 1; 2; 3; 4; 5; 6; 7; 8; 8; 4]%Z.
Proof.
  split; [exact same_order_reference|].
  exact (proj2 (proj2 (proj2 (proj2 (proj2
           (diou_mflags_out_of_bounds same_order_reference)))))).
Defined.

(** * Further properties of the code *)

(** ** Lines, parameters along a line, intersections of lines *)

Lemma Qeqb0_spec (u : Q) : reflect (u == 0) (Qeqb0 u).
Proof.
  unfold Qeqb0. destruct (Qeq_bool u 0) eqn:E; constructor.
  - now apply Qeq_bool_iff.
  - intro H. apply Qeq_bool_iff in H. congruence.
Qed.

(** X1. The line [line2_from_pp p1 p2] passes through [p1] and [p2]; its
    equation takes at any point [t] the value [- _cross p1 p2 t], so the
    signed distance of [distance(Line2, Point2)] is the cross product
    negated and divided by [hypot a b], as the comment of the function says. *)
Theorem line2_from_pp_cross (hypot : Q -> Q -> Q) (p1 p2 t : Point2.t) :
  let l := line2_from_pp p1 p2 in
  line_value l p1 == 0 /\ line_value l p2 == 0 /\
  line_value l t == - _cross p1 p2 t /\
  distance_lp hypot l t == - _cross p1 p2 t / hypot (Line2.a l) (Line2.b l).
Proof.
  cbv zeta. unfold distance_lp, line_value, line2_from_pp, line2_from_xyxy, _cross. simpl.
  repeat split; try ring.
  apply Qmult_comp; [ring | reflexivity].
Qed.

(** X2. When [l1.intersects(l2)] holds (for a tolerance [eps >= 0]), the
    point returned by [intersect(l1, l2)] lies on both lines. *)
Theorem intersect_ll_incident {num : Numeric} (l1 l2 : Line2.t) :
  0 <= eps -> Line2_intersects l1 l2 = true ->
  line_value l1 (intersect_ll l1 l2) == 0 /\ line_value l2 (intersect_ll l1 l2) == 0.
Proof.
  intros He Hi. unfold Line2_intersects, Qgtb in Hi. apply Qltb_lt in Hi.
  assert (Hw : ~ Line2.a l1 * Line2.b l2 - Line2.a l2 * Line2.b l1 == 0).
  { intro H0. rewrite H0 in Hi. simpl in Hi. lra. }
  unfold line_value, intersect_ll; simpl. split; field; exact Hw.
Qed.

Lemma intersect_ll_incident_witness :
  let l1 := line2_from_pp (pt 0 0) (pt 2 2) in
  let l2 := line2_from_pp (pt 0 2) (pt 2 0) in
  0 <= @eps Numeric_double /\ @Line2_intersects Numeric_double l1 l2 = true /\
  line_value l1 (intersect_ll l1 l2) == 0 /\ line_value l2 (intersect_ll l1 l2) == 0.
Proof.
  intros l1 l2.
  assert (He : 0 <= @eps Numeric_double) by (vm_compute; discriminate).
  assert (Hi : @Line2_intersects Numeric_double l1 l2 = true) by (vm_compute; reflexivity).
  split; [exact He | split; [exact Hi |]].
  exact (@intersect_ll_incident Numeric_double l1 l2 He Hi).
Defined.

(** X3. For a line with [b <> 0] the point [point_from_t(l, t)] lies on the
    line.  For a line with [b = 0] (and [a <> 0]) the equation of the line
    takes the value [2 * c] there: the point has [x = c / a], so it is on
    the line only when [c = 0]. *)
Theorem point_from_t_value (l : Line2.t) (t : Q) :
  proper_line l ->
  line_value l (point_from_t l t) == (if Qeqb0 (Line2.b l) then 2 * Line2.c l else 0).
Proof.
  intros Hl. unfold line_value, point_from_t.
  destruct (Qeqb0_spec (Line2.b l)) as [Hb | Hb]; simpl.
  - destruct Hl as [Ha | Hb']; [| contradiction]. rewrite Hb. field. exact Ha.
  - field. exact Hb.
Qed.

Lemma point_from_t_value_witness :
  proper_line (Line2.mk 1 0 (-3)) /\
  line_value (Line2.mk 1 0 (-3)) (point_from_t (Line2.mk 1 0 (-3)) 5) == - (6).
Proof.
  assert (Hl : proper_line (Line2.mk 1 0 (-3))) by (left; simpl; discriminate).
  split; [exact Hl |].
  rewrite (@point_from_t_value (Line2.mk 1 0 (-3)) 5 Hl). vm_compute. reflexivity.
Defined.

(** X4. [t_from_pxy] inverts [point_from_t]: the parameter of the point
    [point_from_t(l, t)] is [t], and it stays [t] when the point is moved
    along the normal [(a, b)] of the line (the parameter is that of the
    projection of the point on the line). *)
Theorem t_from_point_from_t (l : Line2.t) (t s : Q) :
  proper_line l ->
  let p := point_from_t l t in
  t_from_pxy l (Point2.x p + s * Line2.a l) (Point2.y p + s * Line2.b l) == t.
Proof.
  intros Hl. unfold point_from_t, t_from_pxy. cbv zeta.
  destruct (Qeqb0_spec (Line2.b l)) as [Hb | Hb]; simpl.
  - destruct Hl as [Ha | Hb']; [| contradiction]. rewrite Hb. field. exact Ha.
  - destruct (Qeqb0_spec (Line2.a l)) as [Ha | Ha].
    + rewrite Ha. field. exact Hb.
    + field. split; [exact Hb |].
      intro H0. assert (0 < Line2.a l * Line2.a l) by nra. nra.
Qed.

Lemma t_from_point_from_t_witness :
  proper_line (Line2.mk 1 2 3) /\
  let p := point_from_t (Line2.mk 1 2 3) 5 in
  t_from_pxy (Line2.mk 1 2 3) (Point2.x p + 7 * 1) (Point2.y p + 7 * 2) == 5.
Proof.
  assert (Hl : proper_line (Line2.mk 1 2 3)) by (left; simpl; discriminate).
  split; [exact Hl |].
  exact (@t_from_point_from_t (Line2.mk 1 2 3) 5 7 Hl).
Defined.

(** X5. On the line of a segment whose end points differ, the parameter of
    the first end point is the parameter of the second plus one: the
    parameter decreases from [(x1, y1)] to [(x2, y2)], and the three cases
    of [distance(Segment2, Point2)] (beyond the second end point, beyond the
    first, between them) exclude each other. *)
Theorem segment_parameters (s : Segment2.t) :
  ~ (Segment2.x1 s == Segment2.x2 s /\ Segment2.y1 s == Segment2.y2 s) ->
  let l := line2_from_segment2 s in
  t_from_pxy l (Segment2.x1 s) (Segment2.y1 s) == t_from_pxy l (Segment2.x2 s) (Segment2.y2 s) + 1.
Proof.
  intros Hs. unfold line2_from_segment2, line2_from_xyxy, t_from_pxy. cbv zeta. simpl.
  destruct (Qeqb0_spec (Segment2.x1 s - Segment2.x2 s)) as [Hb | Hb].
  - assert (Ha : ~ Segment2.y2 s - Segment2.y1 s == 0).
    { intro H0. apply Hs. split; lra. }
    field. exact Ha.
  - destruct (Qeqb0_spec (Segment2.y2 s - Segment2.y1 s)) as [Ha | Ha].
    + field. exact Hb.
    + field. split; [exact Hb |].
      intro H0.
      assert (0 < (Segment2.y2 s - Segment2.y1 s) * (Segment2.y2 s - Segment2.y1 s)) by nra.
      nra.
Qed.

Lemma segment_parameters_witness :
  let s := Segment2.mk 0 0 3 4 in
  ~ (Segment2.x1 s == Segment2.x2 s /\ Segment2.y1 s == Segment2.y2 s) /\
  t_from_pxy (line2_from_segment2 s) 0 0 == t_from_pxy (line2_from_segment2 s) 3 4 + 1.
Proof.
  intros s.
  assert (Hs : ~ (Segment2.x1 s == Segment2.x2 s /\ Segment2.y1 s == Segment2.y2 s))
    by (intros [H _]; vm_compute in H; discriminate).
  split; [exact Hs | exact (@segment_parameters s Hs)].
Defined.

(** ** Axis-aligned boxes *)

Lemma _max_spec (u v : Q) : (v < u /\ _max u v = u) \/ (u <= v /\ _max u v = v).
Proof. unfold _max, Qgtb. destruct (Qltb_spec v u); auto. Qed.

Lemma _min_spec (u v : Q) : (u < v /\ _min u v = u) \/ (v <= u /\ _min u v = v).
Proof. unfold _min. destruct (Qltb_spec u v); auto. Qed.

(** Case analysis on every [_max] and [_min] of the goal. *)
Ltac case_minmax :=
  repeat match goal with
  | |- context [_max ?u ?v] =>
      let H := fresh "Hm" in let E := fresh "Em" in
      destruct (_max_spec u v) as [[H E] | [H E]]; rewrite !E in *; clear E
  | |- context [_min ?u ?v] =>
      let H := fresh "Hm" in let E := fresh "Em" in
      destruct (_min_spec u v) as [[H E] | [H E]]; rewrite !E in *; clear E
  end.

Lemma _max_comm (u v : Q) : _max u v == _max v u.
Proof. case_minmax; lra. Qed.

Lemma _min_comm (u v : Q) : _min u v == _min v u.
Proof. case_minmax; lra. Qed.

Lemma AABox2_intersects_true (u a : AABox2.t) :
  AABox2_intersects u a = true <->
  AABox2.min_x a < AABox2.max_x u /\ AABox2.min_x u < AABox2.max_x a /\
  AABox2.min_y a < AABox2.max_y u /\ AABox2.min_y u < AABox2.max_y a.
Proof.
  unfold AABox2_intersects, Qgtb. rewrite !andb_true_iff, !Qltb_lt. tauto.
Qed.

Lemma AABox2_intersects_false (u a : AABox2.t) :
  AABox2_intersects u a = false ->
  AABox2.max_x u <= AABox2.min_x a \/ AABox2.max_x a <= AABox2.min_x u \/
  AABox2.max_y u <= AABox2.min_y a \/ AABox2.max_y a <= AABox2.min_y u.
Proof.
  unfold AABox2_intersects, Qgtb. rewrite !andb_false_iff, !Qltb_ge. tauto.
Qed.

Lemma AABox2_contains_true (u a : AABox2.t) :
  AABox2_contains u a = true <->
  AABox2.max_x a < AABox2.max_x u /\ AABox2.min_x u < AABox2.min_x a /\
  AABox2.max_y a < AABox2.max_y u /\ AABox2.min_y u < AABox2.min_y a.
Proof.
  unfold AABox2_contains, Qgtb. rewrite !andb_true_iff, !Qltb_lt. tauto.
Qed.

Lemma AABox2_contains_point_true (u : AABox2.t) (p : Point2.t) :
  AABox2_contains_point u p = true <->
  AABox2.min_x u < Point2.x p /\ Point2.x p < AABox2.max_x u /\
  AABox2.min_y u < Point2.y p /\ Point2.y p < AABox2.max_y u.
Proof.
  unfold AABox2_contains_point, Qgtb. rewrite !andb_true_iff, !Qltb_lt. tauto.
Qed.

Lemma intersect_aabox_overlap (a1 a2 : AABox2.t) :
  AABox2_intersects a1 a2 = true ->
  intersect_aabox a1 a2 =
  AABox2.mk (_max (AABox2.min_x a1) (AABox2.min_x a2)) (_min (AABox2.max_x a1) (AABox2.max_x a2))
            (_max (AABox2.min_y a1) (AABox2.min_y a2)) (_min (AABox2.max_y a1) (AABox2.max_y a2)).
Proof.
  intros H. apply AABox2_intersects_true in H. destruct H as (H1 & H2 & H3 & H4).
  unfold intersect_aabox.
  rewrite !Qleb_false by assumption. reflexivity.
Qed.

Lemma intersect_aabox_disjoint (a1 a2 : AABox2.t) :
  AABox2_intersects a1 a2 = false -> intersect_aabox a1 a2 = AABox2.mk 0 0 0 0.
Proof.
  intros H. unfold intersect_aabox.
  destruct (Qleb (AABox2.max_x a1) (AABox2.min_x a2)) eqn:E1; [reflexivity |].
  destruct (Qleb (AABox2.max_x a2) (AABox2.min_x a1)) eqn:E2; [reflexivity |].
  destruct (Qleb (AABox2.max_y a1) (AABox2.min_y a2)) eqn:E3; [reflexivity |].
  destruct (Qleb (AABox2.max_y a2) (AABox2.min_y a1)) eqn:E4; [reflexivity |].
  exfalso. unfold Qleb in *.
  assert (AABox2_intersects a1 a2 = true); [| congruence].
  unfold AABox2_intersects, Qgtb, Qltb. rewrite E1, E2, E3, E4. reflexivity.
Qed.

(** X6. [intersect(AABox2, AABox2)] returns the box [{0, 0, 0, 0}] exactly
    when [a1.intersects(a2)] is false; otherwise the box it returns lies
    inside both operands and satisfies the contract of a box when the
    operands do. *)
Theorem intersect_aabox_inside (a1 a2 : AABox2.t) :
  (AABox2_intersects a1 a2 = false -> intersect_aabox a1 a2 = AABox2.mk 0 0 0 0) /\
  (AABox2_intersects a1 a2 = true ->
   AABox2_within (intersect_aabox a1 a2) a1 /\ AABox2_within (intersect_aabox a1 a2) a2 /\
   (AABox2.wf a1 -> AABox2.wf a2 -> AABox2.wf (intersect_aabox a1 a2))).
Proof.
  split; [apply intersect_aabox_disjoint |].
  intros H. rewrite (intersect_aabox_overlap _ _ H).
  apply AABox2_intersects_true in H. destruct H as (H1 & H2 & H3 & H4).
  unfold AABox2_within, AABox2.wf; simpl.
  case_minmax; repeat split; intros; lra.
Qed.

Lemma intersect_aabox_inside_witness :
  AABox2_intersects (AABox2.mk 0 2 0 2) (AABox2.mk 1 3 1 3) = true /\
  AABox2_within (intersect_aabox (AABox2.mk 0 2 0 2) (AABox2.mk 1 3 1 3)) (AABox2.mk 0 2 0 2) /\
  AABox2_intersects (AABox2.mk 0 2 0 2) (AABox2.mk 2 3 0 2) = false /\
  intersect_aabox (AABox2.mk 0 2 0 2) (AABox2.mk 2 3 0 2) = AABox2.mk 0 0 0 0.
Proof.
  assert (H1 : AABox2_intersects (AABox2.mk 0 2 0 2) (AABox2.mk 1 3 1 3) = true)
    by (vm_compute; reflexivity).
  assert (H2 : AABox2_intersects (AABox2.mk 0 2 0 2) (AABox2.mk 2 3 0 2) = false)
    by (vm_compute; reflexivity).
  split; [exact H1 | split; [| split; [exact H2 |]]].
  - exact (proj1 (proj2 (intersect_aabox_inside (AABox2.mk 0 2 0 2) (AABox2.mk 1 3 1 3)) H1)).
  - exact (proj1 (intersect_aabox_inside (AABox2.mk 0 2 0 2) (AABox2.mk 2 3 0 2)) H2).
Defined.

(** X7. The box returned by [merge(AABox2, AABox2)] contains both operands,
    and satisfies the contract of a box when the first operand does. *)
Theorem merge_aabox_contains (a1 a2 : AABox2.t) :
  AABox2_within a1 (merge_aabox a1 a2) /\ AABox2_within a2 (merge_aabox a1 a2) /\
  (AABox2.wf a1 -> AABox2.wf (merge_aabox a1 a2)).
Proof.
  unfold AABox2_within, AABox2.wf, merge_aabox; simpl.
  case_minmax; repeat split; intros; lra.
Qed.

(** X8. When [a1.contains(a2)] holds for a box [a2] that satisfies its
    contract, [intersect(a1, a2)] is [a2], [merge(a1, a2)] is [a1], and
    every point that [a2] contains is contained in [a1]. *)
Theorem AABox2_contains_absorbs (a1 a2 : AABox2.t) :
  AABox2.wf a2 -> AABox2_contains a1 a2 = true ->
  intersect_aabox a1 a2 = a2 /\ merge_aabox a1 a2 = a1 /\
  forall p, AABox2_contains_point a2 p = true -> AABox2_contains_point a1 p = true.
Proof.
  intros [W1 W2] H. apply AABox2_contains_true in H. destruct H as (H1 & H2 & H3 & H4).
  split; [| split].
  - rewrite intersect_aabox_overlap by (apply AABox2_intersects_true; repeat split; lra).
    destruct a1, a2; simpl in *. case_minmax; try lra. reflexivity.
  - unfold merge_aabox. destruct a1, a2; simpl in *. case_minmax; try lra. reflexivity.
  - intros p Hp. apply AABox2_contains_point_true in Hp.
    apply AABox2_contains_point_true. repeat split; lra.
Qed.

Lemma AABox2_contains_absorbs_witness :
  AABox2.wf (AABox2.mk 2 5 3 4) /\
  AABox2_contains (AABox2.mk 0 10 0 10) (AABox2.mk 2 5 3 4) = true /\
  intersect_aabox (AABox2.mk 0 10 0 10) (AABox2.mk 2 5 3 4) = AABox2.mk 2 5 3 4 /\
  merge_aabox (AABox2.mk 0 10 0 10) (AABox2.mk 2 5 3 4) = AABox2.mk 0 10 0 10.
Proof.
  assert (W : AABox2.wf (AABox2.mk 2 5 3 4)) by (split; simpl; lra).
  assert (H : AABox2_contains (AABox2.mk 0 10 0 10) (AABox2.mk 2 5 3 4) = true)
    by (vm_compute; reflexivity).
  destruct (@AABox2_contains_absorbs (AABox2.mk 0 10 0 10) (AABox2.mk 2 5 3 4) W H)
    as (Hi & Hm & _).
  split; [exact W | split; [exact H | split; [exact Hi | exact Hm]]].
Defined.

Lemma area_intersect_aabox (a1 a2 : AABox2.t) :
  AABox2.wf a1 -> AABox2.wf a2 ->
  0 <= area_aabox (intersect_aabox a1 a2) /\
  area_aabox (intersect_aabox a1 a2) <= area_aabox a1 /\
  area_aabox (intersect_aabox a1 a2) <= area_aabox a2.
Proof.
  intros [W1 W2] [W3 W4].
  destruct (AABox2_intersects a1 a2) eqn:E.
  - rewrite (intersect_aabox_overlap _ _ E).
    apply AABox2_intersects_true in E. destruct E as (H1 & H2 & H3 & H4).
    unfold area_aabox; simpl.
    case_minmax; repeat split; nra.
  - rewrite (intersect_aabox_disjoint _ _ E). unfold area_aabox; simpl.
    repeat split; nra.
Qed.

(** The union of two boxes is not larger than the box that contains both. *)
Lemma area_union_le_merge (a1 a2 : AABox2.t) :
  AABox2.wf a1 -> AABox2.wf a2 ->
  area_aabox a1 + area_aabox a2 - area_aabox (intersect_aabox a1 a2)
  <= area_aabox (merge_aabox a1 a2).
Proof.
  intros [W1 W2] [W3 W4].
  destruct (AABox2_intersects a1 a2) eqn:E.
  - rewrite (intersect_aabox_overlap _ _ E).
    apply AABox2_intersects_true in E. destruct E as (H1 & H2 & H3 & H4).
    unfold area_aabox, merge_aabox; simpl.
    case_minmax; try lra; nra.
  - rewrite (intersect_aabox_disjoint _ _ E).
    apply AABox2_intersects_false in E.
    unfold area_aabox, merge_aabox; simpl.
    case_minmax; try lra; destruct E as [E | [E | [E | E]]]; nra.
Qed.

Lemma Qdiv_bounds (u v : Q) : 0 <= u -> u <= v -> 0 < v -> 0 <= u / v /\ u / v <= 1.
Proof.
  intros Hu Huv Hv. split.
  - apply Qle_shift_div_l; lra.
  - apply Qle_shift_div_r; lra.
Qed.

(** X9. For two boxes that satisfy their contract, the first of positive
    area, [iou(AABox2, AABox2)] lies between 0 and 1, and the [iou] of the
    first box with itself is 1. *)
Theorem iou_aabox_bounds (a1 a2 : AABox2.t) :
  AABox2.wf a1 -> AABox2.wf a2 -> 0 < area_aabox a1 ->
  0 <= iou_aabox a1 a2 /\ iou_aabox a1 a2 <= 1 /\ iou_aabox a1 a1 == 1.
Proof.
  intros W1 W2 Ha.
  destruct (area_intersect_aabox W1 W2) as (I0 & I1 & I2).
  split; [| split].
  - apply Qdiv_bounds; lra.
  - apply Qdiv_bounds; lra.
  - unfold iou_aabox. cbv zeta.
    assert (E : area_aabox (intersect_aabox a1 a1) == area_aabox a1).
    { destruct W1 as [Wx Wy]. unfold area_aabox in Ha.
      assert (AABox2.min_x a1 < AABox2.max_x a1 /\ AABox2.min_y a1 < AABox2.max_y a1)
        as [Hx Hy] by (split; nra).
      rewrite intersect_aabox_overlap by (apply AABox2_intersects_true; repeat split; lra).
      unfold area_aabox; simpl. case_minmax; lra. }
    rewrite E. field. lra.
Qed.

Lemma iou_aabox_bounds_witness :
  AABox2.wf (AABox2.mk 0 2 0 2) /\ AABox2.wf (AABox2.mk 1 3 1 3) /\
  0 < area_aabox (AABox2.mk 0 2 0 2) /\
  0 <= iou_aabox (AABox2.mk 0 2 0 2) (AABox2.mk 1 3 1 3) /\
  iou_aabox (AABox2.mk 0 2 0 2) (AABox2.mk 1 3 1 3) <= 1 /\
  iou_aabox (AABox2.mk 0 2 0 2) (AABox2.mk 0 2 0 2) == 1.
Proof.
  assert (W1 : AABox2.wf (AABox2.mk 0 2 0 2)) by (split; simpl; lra).
  assert (W2 : AABox2.wf (AABox2.mk 1 3 1 3)) by (split; simpl; lra).
  assert (Ha : 0 < area_aabox (AABox2.mk 0 2 0 2)) by (vm_compute; reflexivity).
  split; [exact W1 | split; [exact W2 | split; [exact Ha |]]].
  exact (@iou_aabox_bounds (AABox2.mk 0 2 0 2) (AABox2.mk 1 3 1 3) W1 W2 Ha).
Defined.

Lemma area_intersect_aabox_comm (a1 a2 : AABox2.t) :
  area_aabox (intersect_aabox a1 a2) == area_aabox (intersect_aabox a2 a1).
Proof.
  unfold intersect_aabox.
  destruct (Qleb (AABox2.max_x a1) (AABox2.min_x a2)),
    (Qleb (AABox2.max_x a2) (AABox2.min_x a1)),
    (Qleb (AABox2.max_y a1) (AABox2.min_y a2)),
    (Qleb (AABox2.max_y a2) (AABox2.min_y a1)); try reflexivity.
  unfold area_aabox; simpl.
  rewrite (_max_comm (AABox2.min_x a1)), (_min_comm (AABox2.max_x a1)),
    (_max_comm (AABox2.min_y a1)), (_min_comm (AABox2.max_y a1)). reflexivity.
Qed.

(** X10. [iou] and [giou] of two boxes do not depend on the order of the
    two boxes. *)
Theorem iou_aabox_sym (a1 a2 : AABox2.t) :
  iou_aabox a1 a2 == iou_aabox a2 a1 /\ giou_aabox a1 a2 == giou_aabox a2 a1.
Proof.
  unfold iou_aabox, giou_aabox. cbv zeta.
  assert (Em : area_aabox (merge_aabox a1 a2) == area_aabox (merge_aabox a2 a1)).
  { unfold area_aabox, merge_aabox; simpl.
    rewrite (_min_comm (AABox2.min_x a1)), (_max_comm (AABox2.max_x a1)),
      (_min_comm (AABox2.min_y a1)), (_max_comm (AABox2.max_y a1)). reflexivity. }
  rewrite Em, (area_intersect_aabox_comm a1 a2), (Qplus_comm (area_aabox a1)).
  split; reflexivity.
Qed.

(** X11. For two boxes that satisfy their contract, the first of positive
    area, [giou(AABox2, AABox2)] is at least -1 and at most [iou]. *)
Theorem giou_aabox_le_iou (a1 a2 : AABox2.t) :
  AABox2.wf a1 -> AABox2.wf a2 -> 0 < area_aabox a1 ->
  - (1) <= giou_aabox a1 a2 /\ giou_aabox a1 a2 <= iou_aabox a1 a2.
Proof.
  intros W1 W2 Ha.
  destruct (area_intersect_aabox W1 W2) as (I0 & I1 & I2).
  pose proof (area_union_le_merge W1 W2) as Hm.
  unfold giou_aabox, iou_aabox. cbv zeta.
  set (ai := area_aabox (intersect_aabox a1 a2)) in *.
  set (am := area_aabox (merge_aabox a1 a2)) in *.
  set (au := area_aabox a1 + area_aabox a2 - ai) in *.
  assert (Hu : 0 < au) by (unfold au; lra).
  destruct (@Qdiv_bounds ai au) as [J0 J1]; [lra | unfold au; lra | lra |].
  destruct (@Qdiv_bounds au am) as [K0 K1]; [lra | lra | lra |].
  split; lra.
Qed.

Lemma giou_aabox_le_iou_witness :
  AABox2.wf (AABox2.mk 0 2 0 2) /\ AABox2.wf (AABox2.mk 1 3 1 3) /\
  0 < area_aabox (AABox2.mk 0 2 0 2) /\
  - (1) <= giou_aabox (AABox2.mk 0 2 0 2) (AABox2.mk 1 3 1 3) /\
  giou_aabox (AABox2.mk 0 2 0 2) (AABox2.mk 1 3 1 3)
  <= iou_aabox (AABox2.mk 0 2 0 2) (AABox2.mk 1 3 1 3).
Proof.
  assert (W1 : AABox2.wf (AABox2.mk 0 2 0 2)) by (split; simpl; lra).
  assert (W2 : AABox2.wf (AABox2.mk 1 3 1 3)) by (split; simpl; lra).
  assert (Ha : 0 < area_aabox (AABox2.mk 0 2 0 2)) by (vm_compute; reflexivity).
  split; [exact W1 | split; [exact W2 | split; [exact Ha |]]].
  exact (@giou_aabox_le_iou (AABox2.mk 0 2 0 2) (AABox2.mk 1 3 1 3) W1 W2 Ha).
Defined.




(** ** Bounding boxes and extreme vertices *)

(** X13. The box returned by [aabox2_from_poly2] contains every vertex in
    use of the polygon. *)
Theorem aabox2_from_poly2_bounds (p : Poly2.t) (i : Z) :
  (0 <= i < Poly2.nvertices p)%Z -> box_bounds p (aabox2_from_poly2 p) i.
Proof.
  intros Hi. unfold aabox2_from_poly2.
  apply (@for_loop_invariant AABox2.t
           (fun k b => forall i, (0 <= i < k)%Z -> box_bounds p b i));
    [lia | | | exact Hi].
  - intros j Hj. replace j with 0%Z by lia. unfold box_bounds; simpl. lra.
  - intros k b Hk IH j Hj. unfold box_bounds; simpl.
    destruct (Z.eq_dec j k) as [-> | Hne].
    + case_minmax; lra.
    + destruct (IH j) as (B1 & B2 & B3 & B4); [lia |].
      case_minmax; lra.
Qed.

Lemma aabox2_from_poly2_bounds_witness :
  (0 <= 2 < Poly2.nvertices quad_c)%Z /\ box_bounds quad_c (aabox2_from_poly2 quad_c) 2.
Proof.
  assert (Hi : (0 <= 2 < Poly2.nvertices quad_c)%Z) by (vm_compute; split; [discriminate | reflexivity]).
  split; [exact Hi | exact (@aabox2_from_poly2_bounds quad_c 2 Hi)].
Defined.

(** X14. For a polygon with at least one vertex, the four indices found by
    [aabox2_from_poly2_grad] (its first loop, [find_extremes]) are indices
    of vertices in use, and the vertices they name attain the four bounds
    of the box returned by [aabox2_from_poly2]: the gradient of each bound
    goes to a vertex that defines it. *)
Theorem find_extremes_attained (p : Poly2.t) :
  (1 <= Poly2.nvertices p)%Z ->
  extremes_attained p (find_extremes p) (aabox2_from_poly2 p) (Poly2.nvertices p).
Proof.
  intros Hn. unfold find_extremes, aabox2_from_poly2.
  set (body := fun (i : Z) (result : AABox2.t) => AABox2.mk _ _ _ _).
  set (b0 := AABox2.mk _ _ _ _).
  apply (@for_loop_invariant extremes
           (fun k e => extremes_attained p e (for_loop 1 k body b0) k)); [lia | |].
  - rewrite for_loop_empty by lia. unfold extremes_attained, b0; simpl.
    repeat split; lia.
  - intros k e Hk ((I1 & I2 & I3 & I4) & (E1 & E2 & E3 & E4) & (A1 & A2 & A3 & A4)).
    rewrite for_loop_last by lia.
    set (b := for_loop 1 k body b0) in *.
    unfold extremes_attained, body. cbv beta zeta.
    cbn [AABox2.min_x AABox2.max_x AABox2.min_y AABox2.max_y].
    unfold _max, _min. rewrite <- E1, <- E2, <- E3, <- E4.
    destruct (Qgtb (Point2.x p.[k]) (e_max_x e));
      cbn [e_max_x e_min_x e_max_y e_min_y imax_x imin_x imax_y imin_y];
    destruct (Qltb (Point2.x p.[k]) (e_min_x e));
      cbn [e_max_x e_min_x e_max_y e_min_y imax_x imin_x imax_y imin_y];
    destruct (Qgtb (Point2.y p.[k]) (e_max_y e));
      cbn [e_max_x e_min_x e_max_y e_min_y imax_x imin_x imax_y imin_y];
    destruct (Qltb (Point2.y p.[k]) (e_min_y e));
      cbn [e_max_x e_min_x e_max_y e_min_y imax_x imin_x imax_y imin_y];
    repeat split; solve [reflexivity | congruence | lia].
Qed.

Lemma find_extremes_attained_witness :
  (1 <= Poly2.nvertices quad_c)%Z /\
  extremes_attained quad_c (find_extremes quad_c) (aabox2_from_poly2 quad_c) 4.
Proof.
  assert (Hn : (1 <= Poly2.nvertices quad_c)%Z) by (vm_compute; discriminate).
  split; [exact Hn | exact (@find_extremes_attained quad_c Hn)].
Defined.

(** X15. For a polygon with at least one vertex, [_find_extreme] (with
    [TopRight = true]) returns the index of a vertex in use and its [y];
    no vertex in use is higher, and every vertex before the one returned
    is strictly lower: among several topmost vertices the first one is
    returned. *)
Theorem _find_extreme_first_top (p : Poly2.t) :
  (1 <= Poly2.nvertices p)%Z ->
  let idx := fst (_find_extreme p) in
  let ey := snd (_find_extreme p) in
  (0 <= idx < Poly2.nvertices p)%Z /\ ey = Point2.y p.[idx] /\
  (forall i, (0 <= i < Poly2.nvertices p)%Z -> Point2.y p.[i] <= ey) /\
  (forall i, (0 <= i < idx)%Z -> Point2.y p.[i] < ey).
Proof.
  intros Hn. cbv zeta. unfold _find_extreme.
  apply (@for_loop_invariant (Z * Q)
           (fun k st => (0 <= fst st < k)%Z /\ snd st = Point2.y p.[fst st] /\
              (forall i, (0 <= i < k)%Z -> Point2.y p.[i] <= snd st) /\
              (forall i, (0 <= i < fst st)%Z -> Point2.y p.[i] < snd st))); [lia | |].
  - simpl. repeat split; try lia.
    intros i Hi. replace i with 0%Z by lia. lra.
  - intros k [idx ey] Hk (I & E & Hall & Hbefore). simpl in *.
    unfold Qgtb. destruct (Qltb_spec ey (Point2.y p.[k])) as [Hlt | Hge]; simpl.
    + repeat split; try lia.
      * intros i Hi. destruct (Z.eq_dec i k) as [-> | Hne]; [lra |].
        specialize (Hall i ltac:(lia)). lra.
      * intros i Hi. specialize (Hall i ltac:(lia)). lra.
    + repeat split; try lia; try assumption.
      intros i Hi. destruct (Z.eq_dec i k) as [-> | Hne]; [lra |].
      apply Hall. lia.
Qed.

Lemma _find_extreme_first_top_witness :
  (1 <= Poly2.nvertices square2)%Z /\
  fst (_find_extreme square2) = 0%Z /\
  (forall i, (0 <= i < Poly2.nvertices square2)%Z ->
             Point2.y square2.[i] <= snd (_find_extreme square2)).
Proof.
  assert (Hn : (1 <= Poly2.nvertices square2)%Z) by (vm_compute; discriminate).
  destruct (@_find_extreme_first_top square2 Hn) as (_ & _ & Hall & _).
  split; [exact Hn | split; [vm_compute; reflexivity | exact Hall]].
Defined.

(** ** Containment, distances and diameters *)

Lemma Poly2_contains_true (p : Poly2.t) (t : Point2.t) :
  Poly2_contains p t = true <->
  0 <= _cross p.[Poly2.nvertices p - 1] p.[0] t /\
  forall i, (1 <= i < Poly2.nvertices p)%Z -> 0 <= _cross p.[i - 1] p.[i] t.
Proof.
  unfold Poly2_contains. cbv zeta.
  destruct (Qltb_spec (_cross p.[Poly2.nvertices p - 1] p.[0] t) 0) as [Hlt | Hge].
  - split; [discriminate | intros [H _]; lra].
  - destruct (Z.le_gt_cases 1 (Poly2.nvertices p)) as [Hn | Hn].
    + assert (G : for_loop 1 (Poly2.nvertices p)
                    (fun i (ok : bool) =>
                       if ok then negb (Qltb (_cross p.[i - 1] p.[i] t) 0) else false)
                    true = true
                  <-> forall i, (1 <= i < Poly2.nvertices p)%Z -> 0 <= _cross p.[i - 1] p.[i] t).
      { apply (@for_loop_invariant bool
                 (fun k ok => ok = true <->
                    forall i, (1 <= i < k)%Z -> 0 <= _cross p.[i - 1] p.[i] t)); [lia | |].
        - split; [intros _ i Hi; lia | reflexivity].
        - intros k ok Hk IH. destruct ok.
          + destruct (Qltb_spec (_cross p.[k - 1] p.[k] t) 0) as [Hlt | Hge']; simpl.
            * split; [discriminate |]. intros H. specialize (H k ltac:(lia)). lra.
            * split; [| reflexivity]. intros _ i Hi.
              destruct (Z.eq_dec i k) as [-> | Hne]; [exact Hge' |].
              apply IH; [reflexivity | lia].
          + split; [discriminate |]. intros H. apply IH. intros i Hi. apply H. lia. }
      rewrite G. tauto.
    + rewrite for_loop_empty by lia. split; [| reflexivity].
      intros _. split; [exact Hge | intros i Hi; lia].
Qed.

Lemma sumZ_scale (lo hi : Z) (c : Q) (f : Z -> Q) :
  (lo <= hi)%Z -> sumZ lo hi (fun i => c * f i) == c * sumZ lo hi f.
Proof.
  revert hi. apply range_ind.
  - repeat (rewrite sumZ_empty by lia). ring.
  - intros hi Hle IH. repeat (rewrite sumZ_last by lia). rewrite IH. ring.
Qed.

Lemma sumZ_const (lo hi : Z) (c : Q) :
  (lo <= hi)%Z -> sumZ lo hi (fun _ => c) == inject_Z (hi - lo) * c.
Proof.
  revert hi. apply range_ind.
  - rewrite sumZ_empty by lia. rewrite Z.sub_diag. ring.
  - intros hi Hle IH. rewrite sumZ_last by lia. rewrite IH.
    replace (hi + 1 - lo)%Z with ((hi - lo) + 1)%Z by lia.
    rewrite inject_Z_plus. ring.
Qed.

(** The coordinates of the centroid are the means of the coordinates. *)
Lemma centroid_sum (p : Poly2.t) :
  (0 <= Poly2.nvertices p)%Z ->
  let n := Poly2.nvertices p in
  Point2.x (centroid p) == sumZ 0 n (fun i => Point2.x p.[i]) / inject_Z n /\
  Point2.y (centroid p) == sumZ 0 n (fun i => Point2.y p.[i]) / inject_Z n.
Proof.
  intros Hn. cbv zeta. unfold centroid. cbv zeta. simpl.
  assert (G : let r := for_loop 0 (Poly2.nvertices p) (fun i r => Point2.add r p.[i]) Point2.zero in
              Point2.x r == sumZ 0 (Poly2.nvertices p) (fun i => Point2.x p.[i]) /\
              Point2.y r == sumZ 0 (Poly2.nvertices p) (fun i => Point2.y p.[i])).
  { apply (@for_loop_invariant Point2.t
             (fun k r => Point2.x r == sumZ 0 k (fun i => Point2.x p.[i]) /\
                         Point2.y r == sumZ 0 k (fun i => Point2.y p.[i]))); [lia | |].
    - rewrite !sumZ_empty by lia. simpl. split; reflexivity.
    - intros k r Hk [Hx Hy]. rewrite !sumZ_last by lia. simpl. rewrite Hx, Hy.
      split; reflexivity. }
  destruct G as [Gx Gy]. rewrite Gx, Gy. split; reflexivity.
Qed.

(** The cross product with a fixed edge is affine in the third point. *)
Lemma cross_centroid (p : Poly2.t) (u v : Point2.t) :
  (1 <= Poly2.nvertices p)%Z ->
  inject_Z (Poly2.nvertices p) * _cross u v (centroid p)
  == sumZ 0 (Poly2.nvertices p) (fun k => _cross u v p.[k]).
Proof.
  intros Hn. destruct (@centroid_sum p ltac:(lia)) as [Cx Cy].
  assert (N : 0 < inject_Z (Poly2.nvertices p)).
  { replace 0 with (inject_Z 0) by reflexivity. rewrite <- Zlt_Qlt. lia. }
  rewrite (@sumZ_ext 0 (Poly2.nvertices p) (fun k => _cross u v p.[k])
             (fun k => (Point2.x v - Point2.x u) * Point2.y p.[k]
                       + ((- (Point2.y v - Point2.y u)) * Point2.x p.[k]
                       + ((Point2.y v - Point2.y u) * Point2.x v
                          - (Point2.x v - Point2.x u) * Point2.y v))));
    [| lia | intros; unfold _cross; ring].
  rewrite !sumZ_plus, !sumZ_scale, sumZ_const by lia.
  unfold _cross. rewrite Cx, Cy, Z.sub_0_r. field. lra.
Qed.

(** X16. A counter-clockwise convex polygon contains its centroid:
    [p.contains(centroid(p))] is true. *)
Theorem centroid_inside (p : Poly2.t) :
  ccw_convex p -> Poly2_contains p (centroid p) = true.
Proof.
  intros [Hall (i0 & k0 & Hi0 & _)].
  assert (Hn : (1 <= Poly2.nvertices p)%Z) by lia.
  assert (N : 0 < inject_Z (Poly2.nvertices p)).
  { replace 0 with (inject_Z 0) by reflexivity. rewrite <- Zlt_Qlt. lia. }
  assert (E : forall i, (0 <= i < Poly2.nvertices p)%Z ->
            0 <= _cross p.[i] p.[(i + 1) mod Poly2.nvertices p] (centroid p)).
  { intros i Hi.
    assert (S : 0 <= sumZ 0 (Poly2.nvertices p)
                       (fun k => _cross p.[i] p.[(i + 1) mod Poly2.nvertices p] p.[k])).
    { apply sumZ_nonneg; [lia |]. intros k Hk. apply Hall; assumption. }
    rewrite <- cross_centroid in S by lia. nra. }
  apply Poly2_contains_true. split.
  - specialize (E (Poly2.nvertices p - 1)%Z ltac:(lia)).
    replace ((Poly2.nvertices p - 1 + 1) mod Poly2.nvertices p)%Z with 0%Z in E; [exact E |].
    replace (Poly2.nvertices p - 1 + 1)%Z with (Poly2.nvertices p) by lia.
    now rewrite Z.mod_same by lia.
  - intros i Hi. specialize (E (i - 1)%Z ltac:(lia)).
    replace ((i - 1 + 1) mod Poly2.nvertices p)%Z with i in E; [exact E |].
    replace (i - 1 + 1)%Z with i by lia. now rewrite Z.mod_small by lia.
Qed.

Lemma centroid_inside_witness :
  ccw_convex quad_c /\ Poly2_contains quad_c (centroid quad_c) = true.
Proof.
  assert (Hc : ccw_convex quad_c) by (apply ccw_convexb_sound; vm_compute; reflexivity).
  split; [exact Hc | exact (@centroid_inside quad_c Hc)].
Defined.

Lemma _mod_inc_small (i n : Z) : (0 <= i < n - 1)%Z -> (n <= 256)%Z -> _mod_inc i n = (i + 1)%Z.
Proof.
  intros Hi Hn. unfold _mod_inc, to_u8.
  destruct (Z.ltb_spec i (n - 1)); [| lia]. apply Z.mod_small. lia.
Qed.

Lemma _mod_inc_last (n : Z) : _mod_inc (n - 1) n = 0%Z.
Proof. unfold _mod_inc. now rewrite Z.ltb_irrefl. Qed.

(** X17. For a polygon with between 1 and 255 vertices,
    [distance(Poly2, Point2, idx)] sets [idx] to the index of an edge of the
    polygon (the edge that starts at the vertex [idx]), returns the signed
    distance of [distance(Segment2, Point2)] to that edge, negated, and no
    edge of the polygon is nearer to the point in absolute distance. *)
Theorem distance_poly_nearest_edge (hypot : Q -> Q -> Q) (p : Poly2.t) (t : Point2.t) :
  (1 <= Poly2.nvertices p <= 255)%Z ->
  let dmin := fst (distance_poly hypot p t) in
  let idx := snd (distance_poly hypot p t) in
  (0 <= idx < Poly2.nvertices p)%Z /\
  dmin = - edge_distance hypot p t idx /\
  forall j, (0 <= j < Poly2.nvertices p)%Z -> Qabs dmin <= Qabs (edge_distance hypot p t j).
Proof.
  intros Hn. cbv zeta.
  set (n := Poly2.nvertices p) in *.
  assert (G : (0 <= snd (distance_poly hypot p t) < n)%Z /\
              fst (distance_poly hypot p t)
              = - edge_distance hypot p t (snd (distance_poly hypot p t)) /\
              forall j, (0 <= j < n - 1 \/ j = n - 1)%Z ->
                        Qabs (fst (distance_poly hypot p t)) <= Qabs (edge_distance hypot p t j)).
  { unfold distance_poly. cbv zeta. fold n.
    apply (@for_loop_invariant (Q * Z)
             (fun k st =>
                (0 <= snd st < n)%Z /\ fst st = - edge_distance hypot p t (snd st) /\
                forall j, (0 <= j < k - 1 \/ j = n - 1)%Z ->
                          Qabs (fst st) <= Qabs (edge_distance hypot p t j))).
    - lia.
    - cbn [fst snd]. unfold to_u8. rewrite Z.mod_small by lia. repeat split; try lia.
      + unfold edge_distance. fold n. now rewrite _mod_inc_last.
      + intros j [Hj | ->]; [lia |].
        unfold edge_distance. fold n. rewrite _mod_inc_last, Qabs_opp. apply Qle_refl.
    - intros k [d idx] Hk (I & E & Hall). cbn [fst snd] in *.
      assert (Ek : - distance_sp hypot (segment2_from_pp p.[k - 1] p.[k]) t
                   = - edge_distance hypot p t (k - 1)).
      { unfold edge_distance. fold n. rewrite _mod_inc_small by lia.
        now replace (k - 1 + 1)%Z with k by lia. }
      rewrite Ek.
      destruct (Qltb_spec (Qabs (- edge_distance hypot p t (k - 1))) (Qabs d)) as [Hlt | Hge];
        cbn [fst snd].
      + unfold to_u8. rewrite Z.mod_small by lia. repeat split; try lia.
        intros j Hj. rewrite Qabs_opp in *.
        destruct (Z.eq_dec j (k - 1)) as [-> | Hne]; [apply Qle_refl |].
        specialize (Hall j ltac:(lia)). lra.
      + repeat split; try lia; try assumption.
        intros j Hj. rewrite Qabs_opp in Hge.
        destruct (Z.eq_dec j (k - 1)) as [-> | Hne]; [exact Hge |].
        apply Hall. lia. }
  destruct G as (I & E & Hall). repeat split; try lia; try assumption.
  intros j Hj. apply Hall. lia.
Qed.

Lemma distance_poly_nearest_edge_witness :
  (1 <= Poly2.nvertices square2 <= 255)%Z /\
  snd (distance_poly Qhypot square2 (Point2.mk 1 (1 # 2))) = 1%Z /\
  fst (distance_poly Qhypot square2 (Point2.mk 1 (1 # 2)))
  = - edge_distance Qhypot square2 (Point2.mk 1 (1 # 2)) 1.
Proof.
  assert (Hn : (1 <= Poly2.nvertices square2 <= 255)%Z) by (vm_compute; split; discriminate).
  assert (Ei : snd (distance_poly Qhypot square2 (Point2.mk 1 (1 # 2))) = 1%Z)
    by (vm_compute; reflexivity).
  destruct (@distance_poly_nearest_edge Qhypot square2 (Point2.mk 1 (1 # 2)) Hn) as (_ & E & _).
  rewrite Ei in E.
  split; [exact Hn | split; [exact Ei | exact E]].
Defined.

Lemma iter_from_m_invariant (S : Type) (P : Z -> S -> Prop) (body : Z -> S -> outcome S)
    (hi : Z) (count : nat) :
  (forall i st st', (i < hi)%Z -> P i st -> body i st = Ret st' -> P (i + 1)%Z st') ->
  forall (i : Z) (s r : S),
    (i + Z.of_nat count = hi)%Z -> P i s ->
    iter_from_m body i count s = Ret r -> P hi r.
Proof.
  intros Hstep. induction count as [|k IH]; intros i s r Hi H0 Hr.
  - simpl in Hr. injection Hr as <-. now replace hi with i by lia.
  - simpl in Hr. destruct (body i s) as [s'| |] eqn:Eb; simpl in Hr; try discriminate.
    apply (IH (i + 1)%Z s' r); [lia | | exact Hr].
    apply (Hstep i s s'); [lia | exact H0 | exact Eb].
Qed.

(** A loop invariant for a loop whose body can fail: it holds of the state
    the loop returns. *)
Lemma for_loop_m_invariant (S : Type) (P : Z -> S -> Prop) (lo hi : Z)
    (body : Z -> S -> outcome S) (s r : S) :
  (lo <= hi)%Z -> P lo s ->
  (forall i st st', (lo <= i < hi)%Z -> P i st -> body i st = Ret st' -> P (i + 1)%Z st') ->
  for_loop_m lo hi body s = Ret r -> P hi r.
Proof.
  intros Hle H0 Hstep Hr. unfold for_loop_m in Hr.
  apply (@iter_from_m_invariant S (fun i st => (lo <= i)%Z /\ P i st) body hi
           (Z.to_nat (hi - lo))) with (i := lo) (s := s) in Hr.
  - apply Hr.
  - intros i st st' Hi [Hlo HP] Hb. split; [lia |].
    apply (Hstep i st st'); [lia | exact HP | exact Hb].
  - lia.
  - split; [lia | exact H0].
Qed.

Lemma dimension_advance_range (p : Poly2.t) (u unext : Z) (fuel : nat) :
  (Poly2.nvertices p <= 256)%Z ->
  forall v vnext v' vnext',
    (0 <= v < Poly2.nvertices p)%Z -> (0 <= vnext < Poly2.nvertices p)%Z ->
    dimension_advance fuel p u unext v vnext = Ret (v', vnext') ->
    (0 <= v' < Poly2.nvertices p)%Z /\ (0 <= vnext' < Poly2.nvertices p)%Z.
Proof.
  intros Hn. induction fuel as [|fuel IH]; intros v vnext v' vnext' Hv Hvn Hr; [discriminate |].
  simpl in Hr. destruct (Qleb _ _).
  - apply (IH _ _ _ _ Hvn) in Hr; [exact Hr |].
    pose proof (@_mod_inc_range vnext (Poly2.nvertices p) ltac:(lia) Hn). lia.
  - injection Hr as <- <-. split; assumption.
Qed.

(** X18. When [dimension(Poly2, flag1, flag2)] returns, either it returns 0
    and leaves the two flags as they were, or the two flags are indices of
    vertices in use and the value returned is the distance between these
    two vertices (the value that [dimension_grad] and [diou_grad] compute
    again from the flags). *)
Theorem dimension_flags (hypot : Q -> Q -> Q) (p : Poly2.t) (flag1 flag2 : Z)
    (d : Q) (i1 i2 : Z) :
  (Poly2.nvertices p <= 255)%Z ->
  dimension hypot p flag1 flag2 = Ret (d, i1, i2) ->
  (d = 0 /\ i1 = flag1 /\ i2 = flag2) \/
  ((0 <= i1 < Poly2.nvertices p)%Z /\ (0 <= i2 < Poly2.nvertices p)%Z /\
   d = distance_pp hypot p.[i1] p.[i2]).
Proof.
  intros Hn Hr. unfold dimension in Hr. cbv zeta in Hr.
  destruct (Z.leb_spec (Poly2.nvertices p) 1) as [H1 | H1].
  { injection Hr as <- <- <-. left. repeat split. }
  destruct (Z.eqb_spec (Poly2.nvertices p) 2) as [H2 | H2].
  { injection Hr as <- <- <-. right. repeat split; lia. }
  match type of Hr with
  | bind ?m _ = _ => destruct m as [fin| |] eqn:Hloop; simpl in Hr; try discriminate
  end.
  injection Hr as <- <- <-.
  apply (@for_loop_m_invariant caliper (fun _ st => caliper_ok hypot p flag1 flag2 st)) in Hloop.
  - destruct Hloop as (_ & _ & H). exact H.
  - lia.
  - unfold caliper_ok; simpl. repeat split; try lia. left. repeat split.
  - intros u st st' Hu (Hv & Hvn & Hd) Hb.
    destruct (dimension_advance _ p u _ (cal_v st) (cal_vnext st)) as [[v vnext]| |] eqn:Ha;
      simpl in Hb; try discriminate.
    apply dimension_advance_range in Ha; [| lia | exact Hv | exact Hvn].
    destruct Ha as [Rv Rvn].
    pose proof (@_mod_inc_range u (Poly2.nvertices p) ltac:(lia) ltac:(lia)) as Ru.
    injection Hb as <-.
    unfold caliper_ok.
    destruct (Qgtb (distance_pp hypot p.[u] p.[v]) (cal_dmax st));
      cbn [cal_dmax cal_v cal_vnext cal_flag1 cal_flag2];
      destruct (Qgtb (distance_pp hypot p.[_mod_inc u (Poly2.nvertices p)] p.[v]) _);
      cbn [cal_dmax cal_v cal_vnext cal_flag1 cal_flag2];
      repeat split; try lia;
      solve [ right; repeat split; lia | exact Hd ].
Qed.

Lemma dimension_flags_witness :
  (Poly2.nvertices quad_c <= 255)%Z /\
  exists d i1 i2,
    dimension Qhypot quad_c 7 9 = Ret (d, i1, i2) /\
    (0 <= i1 < 4)%Z /\ (0 <= i2 < 4)%Z /\ d = distance_pp Qhypot quad_c.[i1] quad_c.[i2].
Proof.
  assert (Hn : (Poly2.nvertices quad_c <= 255)%Z) by (vm_compute; discriminate).
  split; [exact Hn |].
  destruct (dimension Qhypot quad_c 7 9) as [[[d i1] i2]| |] eqn:Hd;
    [| vm_compute in Hd; discriminate | vm_compute in Hd; discriminate].
  exists d, i1, i2. split; [reflexivity |].
  destruct (@dimension_flags Qhypot quad_c 7 9 d i1 i2 Hn Hd) as [(_ & E & _) | H].
  - exfalso. vm_compute in Hd. injection Hd as _ Hi _. rewrite E in Hi. discriminate.
  - exact H.
Defined.

(** ** The hull of [merge] *)

Lemma _check_valid_bridge_ends {num : Numeric} (p1 p2 : Poly2.t) (idx1 idx2 : Z) :
  _check_valid_bridge p1 p2 idx1 idx2 <> Fuel.
Proof.
  unfold _check_valid_bridge. cbv zeta.
  repeat match goal with
         | |- match ?m with _ => _ end <> _ => destruct m
         | |- (let (_, _) := ?m in _) <> _ => destruct m
         | |- (if ?b then _ else _) <> _ => destruct b
         end; discriminate.
Qed.

Section MergeSweep.

Context {num : Numeric}.
Variable atan2 : Q -> Q -> Q.
Variables p1 p2 : Poly2.t.

(** [inv c h]: the hull [h] is as expected and may take [c] more points. *)
Variable inv : nat -> hull -> Prop.
Hypothesis inv_weaken : forall c h, inv (S c) h -> inv c h.
Hypothesis inv_p1 : forall c i h,
  (0 <= i < Z.max 1 (Poly2.nvertices p1))%Z -> inv (S c) h -> inv c (register_p1point p1 i h).
Hypothesis inv_p2 : forall c i h,
  (0 <= i < Z.max 1 (Poly2.nvertices p2))%Z -> inv (S c) h -> inv c (register_p2point p2 i h).
Hypothesis Hn1 : (Poly2.nvertices p1 <= 256)%Z.
Hypothesis Hn2 : (Poly2.nvertices p2 <= 256)%Z.

(** A sweep that has at most [c / 2] steps left and a hull with room for
    [c] points ends with a hull that satisfies the invariant, or at an
    assertion: every step passes an edge and registers at most two points. *)
Lemma merge_sweep_ends (fuel : nat) :
  forall (pidx1 pidx2 : Z) (ea : Q) (edge_flag : bool) (h : hull) (c : nat),
    (0 <= pidx1 < Z.max 1 (Poly2.nvertices p1))%Z ->
    (0 <= pidx2 < Z.max 1 (Poly2.nvertices p2))%Z ->
    (steps_left atan2 p1 p2 ea < fuel)%nat ->
    (2 * steps_left atan2 p1 p2 ea <= c)%nat ->
    inv c h ->
    ends_with inv (merge_sweep atan2 fuel p1 p2 pidx1 pidx2 ea edge_flag h).
Proof.
  induction fuel as [|fuel IH]; intros pidx1 pidx2 ea edge_flag h c H1 H2 Hs Hc Hinv; [lia |].
  cbn [merge_sweep]. cbv zeta.
  pose proof (@steps_left_first num atan2 p1 p2 ea pidx1 H1) as S1.
  pose proof (@steps_left_second num atan2 p1 p2 ea pidx2 H2) as S2.
  cbv zeta in S1, S2.
  pose proof (@_mod_inc_range pidx1 (Poly2.nvertices p1) ltac:(lia) Hn1) as R1.
  pose proof (@_mod_inc_range pidx2 (Poly2.nvertices p2) ltac:(lia) Hn2) as R2.
  assert (Step1 :
    Qltb ea (_slope_pp atan2 p1.[pidx1] p1.[_mod_inc pidx1 (Poly2.nvertices p1)]) = true ->
    ends_with inv
      (let h1 := if edge_flag then register_p1point p1 pidx1 h else h in
       do chk <- _check_valid_bridge p1 p2 (_mod_inc pidx1 (Poly2.nvertices p1)) pidx2;
       if fst chk
       then merge_sweep atan2 fuel p1 p2 (_mod_inc pidx1 (Poly2.nvertices p1)) pidx2
              (_slope_pp atan2 p1.[pidx1] p1.[_mod_inc pidx1 (Poly2.nvertices p1)])
              (negb edge_flag)
              (register_point p1 p2 edge_flag (_mod_inc pidx1 (Poly2.nvertices p1)) pidx2 h1)
       else merge_sweep atan2 fuel p1 p2 (_mod_inc pidx1 (Poly2.nvertices p1)) pidx2
              (_slope_pp atan2 p1.[pidx1] p1.[_mod_inc pidx1 (Poly2.nvertices p1)])
              edge_flag h1)).
  { intros E1. specialize (S1 E1). cbv zeta.
    destruct c as [|[|c]]; [lia | lia |].
    pose proof (@_check_valid_bridge_ends num p1 p2 (_mod_inc pidx1 (Poly2.nvertices p1)) pidx2)
      as NF.
    destruct (_check_valid_bridge p1 p2 _ pidx2) as [[valid rev]| |]; simpl;
      [| exact I | congruence].
    assert (I1 : inv (S c) (if edge_flag then register_p1point p1 pidx1 h else h)).
    { destruct edge_flag; [apply inv_p1; assumption | apply inv_weaken; assumption]. }
    destruct valid.
    - apply (IH _ _ _ _ _ c); try assumption; try lia.
      unfold register_point. destruct edge_flag; [apply inv_p1 | apply inv_p2]; assumption.
    - apply (IH _ _ _ _ _ (S c)); try assumption; lia. }
  assert (Step2 :
    Qltb ea (_slope_pp atan2 p2.[pidx2] p2.[_mod_inc pidx2 (Poly2.nvertices p2)]) = true ->
    ends_with inv
      (let h1 := if edge_flag then h else register_p2point p2 pidx2 h in
       do chk <- _check_valid_bridge p1 p2 pidx1 (_mod_inc pidx2 (Poly2.nvertices p2));
       if fst chk
       then merge_sweep atan2 fuel p1 p2 pidx1 (_mod_inc pidx2 (Poly2.nvertices p2))
              (_slope_pp atan2 p2.[pidx2] p2.[_mod_inc pidx2 (Poly2.nvertices p2)])
              (negb edge_flag)
              (register_point p1 p2 edge_flag pidx1 (_mod_inc pidx2 (Poly2.nvertices p2)) h1)
       else merge_sweep atan2 fuel p1 p2 pidx1 (_mod_inc pidx2 (Poly2.nvertices p2))
              (_slope_pp atan2 p2.[pidx2] p2.[_mod_inc pidx2 (Poly2.nvertices p2)])
              edge_flag h1)).
  { intros E2. specialize (S2 E2). cbv zeta.
    destruct c as [|[|c]]; [lia | lia |].
    pose proof (@_check_valid_bridge_ends num p1 p2 pidx1 (_mod_inc pidx2 (Poly2.nvertices p2)))
      as NF.
    destruct (_check_valid_bridge p1 p2 pidx1 _) as [[valid rev]| |]; simpl;
      [| exact I | congruence].
    assert (I1 : inv (S c) (if edge_flag then h else register_p2point p2 pidx2 h)).
    { destruct edge_flag; [apply inv_weaken; assumption | apply inv_p2; assumption]. }
    destruct valid.
    - apply (IH _ _ _ _ _ c); try assumption; try lia.
      unfold register_point. destruct edge_flag; [apply inv_p1 | apply inv_p2]; assumption.
    - apply (IH _ _ _ _ _ (S c)); try assumption; lia. }
  destruct (Qltb ea (_slope_pp atan2 p1.[pidx1] _)) eqn:E1; simpl andb.
  - match goal with
    | |- ends_with inv (if ?b then _ else _) => destruct b
    end; [apply Step1; reflexivity |].
    destruct (Qltb ea (_slope_pp atan2 p2.[pidx2] _)) eqn:E2; simpl andb;
      [| simpl; eauto].
    match goal with
    | |- ends_with inv (if ?b then _ else _) => destruct b
    end; [apply Step2; reflexivity | simpl; eauto].
  - destruct (Qltb ea (_slope_pp atan2 p2.[pidx2] _)) eqn:E2; simpl andb;
      [| simpl; eauto].
    match goal with
    | |- ends_with inv (if ?b then _ else _) => destruct b
    end; [apply Step2; reflexivity | simpl; eauto].
Qed.

Variable _pi : Q.

Lemma merge_hull_invariant (c : nat) :
  (2 * Z.to_nat (Z.max 1 (Poly2.nvertices p1) + Z.max 1 (Poly2.nvertices p2)) <= c)%nat ->
  (0 <= Poly2.nvertices p1)%Z -> (0 <= Poly2.nvertices p2)%Z ->
  inv c (Poly2.empty (length (Poly2.vertices p1) + length (Poly2.vertices p2)), []) ->
  ends_with inv (merge atan2 _pi p1 p2).
Proof.
  intros Hc Hp1 Hp2 H0. unfold merge. cbv zeta.
  pose proof (_find_extreme_range p1) as E1. pose proof (_find_extreme_range p2) as E2.
  destruct (_find_extreme p1) as [pidx1 y1]. destruct (_find_extreme p2) as [pidx2 y2].
  simpl in E1, E2.
  pose proof (@_check_valid_bridge_ends num p1 p2 pidx1 pidx2) as NF.
  destruct (_check_valid_bridge p1 p2 pidx1 pidx2) as [chk| |]; cbn [bind];
    [| exact I | congruence].
  assert (L : forall ea,
             (steps_left atan2 p1 p2 ea
              <= Z.to_nat (Z.max 1 (Poly2.nvertices p1) + Z.max 1 (Poly2.nvertices p2)))%nat).
  { intros ea. unfold steps_left.
    pose proof (count_above_length (edge_angles atan2 p1) ea) as L1.
    pose proof (count_above_length (edge_angles atan2 p2) ea) as L2.
    rewrite length_edge_angles in L1, L2. lia. }
  apply merge_sweep_ends with (c := c); try assumption.
  - apply steps_left_budget; lia.
  - specialize (L (- _pi)). lia.
Qed.

End MergeSweep.

(** X19. [merge] of two polygons within their contract ends: its sweep makes
    at most one step per edge of the two polygons, so the call returns a
    hull or stops at the assertion of [_check_valid_bridge]. *)
Theorem merge_ends {num : Numeric} (atan2 : Q -> Q -> Q) (_pi : Q) (p1 p2 : Poly2.t) :
  Poly2.wf p1 -> Poly2.wf p2 -> merge atan2 _pi p1 p2 <> Fuel.
Proof.
  intros [Hc1 Hn1] [Hc2 Hn2].
  pose proof (@merge_hull_invariant num atan2 p1 p2 (fun _ _ => True)
                ltac:(auto) ltac:(auto) ltac:(auto) ltac:(lia) ltac:(lia) _pi
                (2 * Z.to_nat (Z.max 1 (Poly2.nvertices p1) + Z.max 1 (Poly2.nvertices p2)))
                ltac:(lia) ltac:(lia) ltac:(lia) I) as E.
  intros F. rewrite F in E. exact E.
Qed.

Lemma merge_ends_witness :
  Poly2.wf square2 /\ Poly2.wf triangle_d /\
  @merge Numeric_double Qatan2 Qpi square2 triangle_d <> Fuel.
Proof.
  assert (W1 : Poly2.wf square2) by (vm_compute; repeat split; discriminate).
  assert (W2 : Poly2.wf triangle_d) by (vm_compute; repeat split; discriminate).
  split; [exact W1 | split; [exact W2 |]].
  exact (@merge_ends Numeric_double Qatan2 Qpi square2 triangle_d W1 W2).
Defined.

Lemma indices_succ (n : Z) : (0 <= n)%Z -> indices (n + 1) = indices n ++ [n].
Proof.
  intros Hn. unfold indices.
  replace (Z.to_nat (n + 1)) with (S (Z.to_nat n)) by lia.
  rewrite seq_S, map_app. simpl. f_equal. f_equal. lia.
Qed.

Lemma length_flags_buffer (size : nat) (writes : list (Z * Z)) :
  length (flags_buffer size writes) = size.
Proof.
  unfold flags_buffer. rewrite <- (repeat_length 0%Z size) at 2.
  generalize (repeat 0%Z size). induction writes as [|w ws IH]; intros buf; simpl.
  - reflexivity.
  - rewrite IH. apply length_array_upd.
Qed.

Lemma flag_at_buffer_app (size : nat) (writes : list (Z * Z)) (i f k : Z) :
  (0 <= i)%Z -> (0 <= k)%Z ->
  flag_at (flags_buffer size (writes ++ [(i, f)])) k
  = if ((i =? k)%Z && (k <? Z.of_nat size)%Z)%bool then f
    else flag_at (flags_buffer size writes) k.
Proof.
  intros Hi Hk. unfold flag_at, flags_buffer at 1. rewrite fold_left_app. simpl fold_left.
  fold (flags_buffer size writes).
  rewrite nth_array_upd, hits_Z by assumption.
  now rewrite length_flags_buffer.
Qed.

Lemma capacity_empty (cap : nat) : Poly2.capacity (Poly2.empty cap) = Z.of_nat cap.
Proof. unfold Poly2.capacity, Poly2.empty. simpl. now rewrite repeat_length. Qed.

Section MergeHull.

Variables p1 p2 : Poly2.t.
Hypothesis Hn1 : (0 <= Poly2.nvertices p1 <= 128)%Z.
Hypothesis Hn2 : (0 <= Poly2.nvertices p2 <= 128)%Z.

Lemma hull_inv_weaken (c : nat) (h : hull) : hull_inv p1 p2 (S c) h -> hull_inv p1 p2 c h.
Proof.
  destruct h as [r w]. unfold hull_inv. intros (B & N & C & I & V).
  repeat split; try assumption. lia.
Qed.

Lemma hull_inv_register (c : nat) (r : Poly2.t) (w : list (Z * Z)) (v : Point2.t) (f : Z) :
  hull_inv p1 p2 (S c) (r, w) ->
  flagged_vertex p1 p2 f = v ->
  hull_inv p1 p2 c
    (Poly2.mk (array_upd (Poly2.vertices r) (Poly2.nvertices r) (fun _ => v))
              (to_u8 (Poly2.nvertices r + 1)),
     w ++ [(Poly2.nvertices r, f)]).
Proof.
  unfold hull_inv. cbv zeta.
  set (cap := (length (Poly2.vertices p1) + length (Poly2.vertices p2))%nat).
  intros (B & N & C & I & V) Hf.
  rewrite length_app. simpl length.
  replace (Z.of_nat (length w + 1)) with (Z.of_nat (length w) + 1)%Z by lia.
  repeat split.
  - lia.
  - simpl. unfold to_u8. rewrite N. apply Z.mod_small. lia.
  - unfold Poly2.capacity in *. simpl. now rewrite length_array_upd.
  - rewrite map_app, I, indices_succ by lia. simpl. now rewrite N.
  - intros k Hk Hcap.
    rewrite flag_at_buffer_app by lia.
    change (Poly2.get (Poly2.mk (array_upd (Poly2.vertices r) (Poly2.nvertices r) (fun _ => v))
                                (to_u8 (Poly2.nvertices r + 1))) k)
      with (Poly2.get (set_vertex r (Poly2.nvertices r) v) k).
    rewrite get_set_vertex by lia. rewrite C.
    destruct (Z.eqb_spec (Poly2.nvertices r) k), (Z.ltb_spec k (Z.of_nat cap)); simpl; try lia.
    + now rewrite Hf.
    + apply V; lia.
Qed.

Lemma hull_inv_p1 (c : nat) (i : Z) (h : hull) :
  (0 <= i < Z.max 1 (Poly2.nvertices p1))%Z ->
  hull_inv p1 p2 (S c) h -> hull_inv p1 p2 c (register_p1point p1 i h).
Proof.
  intros Hi H. destruct h as [r w]. unfold register_p1point.
  apply hull_inv_register; [exact H |].
  destruct (@flag_decode i 1 ltac:(lia) ltac:(right; reflexivity)) as (_ & Ei & El).
  unfold flagged_vertex, from_p1. rewrite El, Ei. reflexivity.
Qed.

Lemma hull_inv_p2 (c : nat) (i : Z) (h : hull) :
  (0 <= i < Z.max 1 (Poly2.nvertices p2))%Z ->
  hull_inv p1 p2 (S c) h -> hull_inv p1 p2 c (register_p2point p2 i h).
Proof.
  intros Hi H. destruct h as [r w]. unfold register_p2point.
  replace (Z.shiftl i 1) with (Z.lor (Z.shiftl i 1) 0) by apply Z.lor_0_r.
  apply hull_inv_register; [exact H |].
  destruct (@flag_decode i 0 ltac:(lia) ltac:(left; reflexivity)) as (_ & Ei & El).
  unfold flagged_vertex, from_p1. rewrite El, Ei. reflexivity.
Qed.

End MergeHull.

Lemma _construct_merged_hull_get (p1 p2 : Poly2.t) (mflags : list Z) (nm i : Z) :
  (0 <= i < nm)%Z ->
  (nm <= Z.of_nat (length (Poly2.vertices p1) + length (Poly2.vertices p2)))%Z ->
  (_construct_merged_hull p1 p2 mflags nm).[i] = flagged_vertex p1 p2 (flag_at mflags i).
Proof.
  intros Hi Hcap. unfold _construct_merged_hull. cbv zeta.
  set (cap := (length (Poly2.vertices p1) + length (Poly2.vertices p2))%nat) in *.
  set (body := fun (i : Z) (result : Poly2.t) => if from_p1 _ then _ else _).
  assert (G : forall k, (0 <= k <= nm)%Z ->
              let r := for_loop 0 k body (Poly2.mk (repeat Point2.zero cap) nm) in
              Poly2.capacity r = Z.of_nat cap /\
              forall j, (0 <= j < k)%Z -> r.[j] = flagged_vertex p1 p2 (flag_at mflags j)).
  { intros k Hk. cbv zeta.
    apply (@for_loop_invariant Poly2.t
             (fun k st => Poly2.capacity st = Z.of_nat cap /\
                          forall j, (0 <= j < k)%Z ->
                                    st.[j] = flagged_vertex p1 p2 (flag_at mflags j)));
      [lia | |].
    - split; [| intros; lia]. unfold Poly2.capacity. simpl. now rewrite repeat_length.
    - intros m st Hm [Hc Hv].
      assert (E : body m st = set_vertex st m (flagged_vertex p1 p2 (flag_at mflags m))).
      { unfold body, flagged_vertex. now destruct (from_p1 _). }
      rewrite E. split; [now rewrite capacity_set_vertex |].
      intros j Hj. rewrite get_set_vertex by lia. rewrite Hc.
      destruct (Z.eqb_spec m j), (Z.ltb_spec j (Z.of_nat cap)); simpl; try lia.
      + now subst.
      + apply Hv. lia. }
  apply (G nm); lia.
Qed.

Lemma nvertices_construct_merged_hull (q1 q2 : Poly2.t) (mflags : list Z) (nm : Z) :
  Poly2.nvertices (_construct_merged_hull q1 q2 mflags nm) = nm.
Proof.
  unfold _construct_merged_hull. cbv zeta.
  destruct (Z.le_gt_cases 0 nm) as [Hle | Hgt]; [| now rewrite for_loop_empty by lia].
  apply (@for_loop_invariant Poly2.t (fun _ st => Poly2.nvertices st = nm)); [lia | reflexivity |].
  intros i st _ H. now destruct (from_p1 _).
Qed.

(** X20. When [merge] returns for two polygons within their contract with no
    more than 125 vertices together, it has written [mflags[0]], ...,
    [mflags[nm - 1]] in this order, [nm] being the number of vertices of the
    hull; and when the hull fits its capacity, [_construct_merged_hull]
    rebuilds from the flags array the vertices that [merge] returned, hence
    a polygon of the same area. *)
Theorem merge_construct_roundtrip {num : Numeric} (atan2 : Q -> Q -> Q) (_pi : Q)
    (p1 p2 pm : Poly2.t) (writes : list (Z * Z)) :
  Poly2.wf p1 -> Poly2.wf p2 ->
  (Poly2.nvertices p1 + Poly2.nvertices p2 <= 125)%Z ->
  merge atan2 _pi p1 p2 = Ret (pm, writes) ->
  let cap := (length (Poly2.vertices p1) + length (Poly2.vertices p2))%nat in
  let nm := Poly2.nvertices pm in
  let hull := _construct_merged_hull p1 p2 (flags_buffer cap writes) nm in
  map fst writes = indices nm /\
  ((nm <= Z.of_nat cap)%Z ->
   (forall k, (0 <= k < nm)%Z -> hull.[k] = pm.[k]) /\ area hull = area pm).
Proof.
  intros [Hc1 Hn1] [Hc2 Hn2] Hsum Hm cap nm hull.
  pose proof (@merge_hull_invariant num atan2 p1 p2 (hull_inv p1 p2)
                (@hull_inv_weaken p1 p2)
                (@hull_inv_p1 p1 p2 ltac:(lia))
                (@hull_inv_p2 p1 p2 ltac:(lia))
                ltac:(lia) ltac:(lia) _pi
                (2 * Z.to_nat (Z.max 1 (Poly2.nvertices p1) + Z.max 1 (Poly2.nvertices p2)))
                ltac:(lia) ltac:(lia) ltac:(lia)) as E.
  rewrite Hm in E. destruct E as [c (B & N & C & I & V)].
  { unfold hull_inv. simpl length. repeat split.
    - lia.
    - apply capacity_empty.
    - intros k Hk. simpl in Hk. lia. }
  fold cap in C, V. fold nm in N. rewrite <- N in I, V. split; [exact I |].
  intros Hcap.
  assert (Hv : forall k, (0 <= k < nm)%Z -> hull.[k] = pm.[k]).
  { intros k Hk. unfold hull. rewrite _construct_merged_hull_get by (fold cap; lia).
    symmetry. apply V; lia. }
  split; [exact Hv |].
  apply area_ext; [apply nvertices_construct_merged_hull | exact Hv].
Qed.

Lemma merge_construct_roundtrip_witness :
  Poly2.wf triangle_a /\ Poly2.wf triangle_b /\
  (Poly2.nvertices triangle_a + Poly2.nvertices triangle_b <= 125)%Z /\
  exists pm writes,
    @merge Numeric_double Qatan2 Qpi triangle_a triangle_b = Ret (pm, writes) /\
    map fst writes = indices (Poly2.nvertices pm) /\
    area (_construct_merged_hull triangle_a triangle_b (flags_buffer 6 writes)
            (Poly2.nvertices pm))
    = area pm.
Proof.
  assert (W1 : Poly2.wf triangle_a) by (vm_compute; repeat split; discriminate).
  assert (W2 : Poly2.wf triangle_b) by (vm_compute; repeat split; discriminate).
  assert (Hs : (Poly2.nvertices triangle_a + Poly2.nvertices triangle_b <= 125)%Z)
    by (vm_compute; discriminate).
  split; [exact W1 | split; [exact W2 | split; [exact Hs |]]].
  destruct (@merge Numeric_double Qatan2 Qpi triangle_a triangle_b) as [[pm writes]| |] eqn:Hm;
    [| vm_compute in Hm; discriminate | vm_compute in Hm; discriminate].
  exists pm, writes. split; [reflexivity |].
  destruct (@merge_construct_roundtrip Numeric_double Qatan2 Qpi triangle_a triangle_b
              pm writes W1 W2 Hs Hm) as [Hi Hr].
  split; [exact Hi |].
  apply Hr. vm_compute in Hm. injection Hm as <- _. vm_compute. discriminate.
Defined.

(** ** The result of the rotating-caliper [intersect] *)

Section StitchInvariant.

Variable cap : Z.
Hypothesis Hcap : (cap <= 254)%Z.

Lemma push_vertex_ok (st st' : Poly2.t * list Z) (f : Z) (v : Point2.t) :
  result_ok cap st -> push_vertex st f v = Ret st' -> result_ok cap st'.
Proof.
  destruct st as [r fl]. unfold result_ok, push_vertex. simpl fst. simpl snd.
  intros (N & L & C) H.
  destruct (Z.leb_spec (to_u8 (Poly2.nvertices r + 1)) (Poly2.capacity r)) as [Hle | Hgt];
    [| discriminate].
  injection H as <-. simpl fst. simpl snd.
  assert (E : to_u8 (Poly2.nvertices r + 1) = (Poly2.nvertices r + 1)%Z).
  { unfold to_u8. apply Z.mod_small. lia. }
  unfold Poly2.capacity in *. simpl. rewrite length_array_upd, length_app. simpl.
  rewrite E in *. repeat split; lia.
Qed.

Lemma copy_between_ok (p : Poly2.t) (low : Z) (count : nat) :
  forall (j : Z) (st st' : Poly2.t * list Z),
    result_ok cap st -> copy_between count p low j st = Ret st' -> result_ok cap st'.
Proof.
  induction count as [|k IH]; intros j st st' Hok H; simpl in H.
  - now injection H as <-.
  - match type of H with
    | bind ?m _ = _ => destruct m as [st1| |] eqn:E; simpl in H; try discriminate
    end.
    apply (IH _ _ _ (push_vertex_ok _ _ Hok E) H).
Qed.

Lemma copy_range_ok (p : Poly2.t) (low lo hi : Z) (st st' : Poly2.t * list Z) :
  result_ok cap st -> copy_range p low lo hi st = Ret st' -> result_ok cap st'.
Proof.
  unfold copy_range. intros Hok H.
  destruct (hi =? 255)%Z.
  - destruct (lo <=? hi)%Z; [discriminate | now injection H as <-].
  - apply (copy_between_ok _ _ _ _ Hok H).
Qed.

Lemma intersect_stitch_ok (p1 p2 : Poly2.t) (first1 first2 : Z) (x1 : list Z) :
  forall (x2 : list Z) (edge_flag : bool) (st st' : Poly2.t * list Z),
    result_ok cap st ->
    intersect_stitch p1 p2 edge_flag x1 x2 first1 first2 st = Ret st' -> result_ok cap st'.
Proof.
  induction x1 as [|xa x1' IH]; intros x2 edge_flag st st' Hok H.
  - simpl in H. now injection H as <-.
  - destruct x2 as [|xb x2']; [simpl in H; now injection H as <- |].
    cbn [intersect_stitch] in H. cbv zeta in H.
    match type of H with
    | bind ?m _ = _ => destruct m as [st1| |] eqn:E1; cbn [bind] in H; try discriminate
    end.
    apply push_vertex_ok in E1; [| exact Hok].
    match type of H with
    | bind ?m _ = _ => destruct m as [st2| |] eqn:E2; cbn [bind] in H; try discriminate
    end.
    assert (Hok2 : result_ok cap st2).
    { destruct edge_flag; apply (copy_range_ok _ _ _ _ E1 E2). }
    apply (IH _ _ _ _ Hok2 H).
Qed.

End StitchInvariant.

(** X21. When the rotating-caliper [intersect] returns for two polygons whose
    capacities add up to at most 254, the polygon it returns has as many
    vertices as there are flags in [xflags], no more than its capacity
    [MaxPoints1 + MaxPoints2]. *)
Theorem intersect_RotatingCaliper_flags {num : Numeric} (atan2 : Q -> Q -> Q) (_pi : Q)
    (p1 p2 r : Poly2.t) (xflags : list Z) :
  (Poly2.capacity p1 + Poly2.capacity p2 <= 254)%Z ->
  (0 <= Poly2.nvertices p1)%Z -> (0 <= Poly2.nvertices p2)%Z ->
  intersect_RotatingCaliper atan2 _pi p1 p2 = Ret (r, xflags) ->
  Poly2.nvertices r = Z.of_nat (length xflags) /\
  (Poly2.nvertices r <= Poly2.capacity r)%Z /\
  Poly2.capacity r = (Poly2.capacity p1 + Poly2.capacity p2)%Z.
Proof.
  intros Hcap H1 H2 H. unfold intersect_RotatingCaliper in H. cbv zeta in H.
  set (cap := (length (Poly2.vertices p1) + length (Poly2.vertices p2))%nat) in *.
  assert (Ecap : Z.of_nat cap = (Poly2.capacity p1 + Poly2.capacity p2)%Z).
  { unfold cap, Poly2.capacity. lia. }
  assert (Hempty : result_ok (Z.of_nat cap) (Poly2.empty cap, [])).
  { unfold result_ok, Poly2.capacity. simpl. rewrite repeat_length. lia. }
  rewrite <- Ecap.
  match type of H with
  | bind ?m _ = _ => destruct m as [sw| |] eqn:Esw; cbn [bind] in H; try discriminate
  end.
  destruct sw as [| edge_flag x1 x2].
  - injection H as <- <-. exact Hempty.
  - assert (Verb : forall (p : Poly2.t) (low : Z),
              (0 <= Poly2.nvertices p)%Z ->
              (do r0 <- assign_result cap p; Ret (r0, verbatim_flags (Poly2.nvertices p) low))
              = Ret (r, xflags) ->
              result_ok (Z.of_nat cap) (r, xflags)).
    { intros p low Hp Hr. unfold assign_result in Hr.
      destruct (Z.leb_spec (Poly2.nvertices p) (Z.of_nat cap)) as [Hle | Hgt];
        cbn [bind] in Hr; [| discriminate].
      injection Hr as <- <-.
      destruct (@poly_assign_spec cap p ltac:(lia)) as (N & C & _).
      destruct (@verbatim_flags_spec (Poly2.nvertices p) low Hp) as [L _].
      unfold result_ok. simpl fst. simpl snd. rewrite N, C, L. lia. }
    destruct x1 as [|f1 x1'].
    + destruct (Qgtb (area p1) (area p2)); [apply (Verb p2 0%Z) | apply (Verb p1 1%Z)]; assumption.
    + destruct x2 as [|f2 x2'].
      * destruct (Qgtb (area p1) (area p2)); [apply (Verb p2 0%Z) | apply (Verb p1 1%Z)]; assumption.
      * apply (@intersect_stitch_ok (Z.of_nat cap) ltac:(lia) _ _ _ _ _ _ _ _ _ Hempty H).
Qed.

Lemma intersect_RotatingCaliper_flags_witness :
  (Poly2.capacity triangle_a + Poly2.capacity triangle_b <= 254)%Z /\
  exists r xflags,
    @intersect_RotatingCaliper Numeric_double Qatan2 Qpi triangle_a triangle_b = Ret (r, xflags) /\
    Poly2.nvertices r = Z.of_nat (length xflags) /\ (Poly2.nvertices r <= Poly2.capacity r)%Z.
Proof.
  assert (Hc : (Poly2.capacity triangle_a + Poly2.capacity triangle_b <= 254)%Z)
    by (vm_compute; discriminate).
  split; [exact Hc |].
  destruct (@intersect_RotatingCaliper Numeric_double Qatan2 Qpi triangle_a triangle_b)
    as [[r xflags]| |] eqn:Hr;
    [| vm_compute in Hr; discriminate | vm_compute in Hr; discriminate].
  exists r, xflags. split; [reflexivity |].
  destruct (@intersect_RotatingCaliper_flags Numeric_double Qatan2 Qpi triangle_a triangle_b
              r xflags Hc ltac:(vm_compute; discriminate) ltac:(vm_compute; discriminate) Hr)
    as (N & L & _).
  split; assumption.
Defined.

(** ** Adjoints as transposes and gradients

    For a forward function that is linear in its arguments, the adjoint
    function is its transpose: the inner product of the incoming gradient
    with the forward value equals the inner product of the accumulated
    gradient with the arguments.  For a quadratic forward function the
    accumulated gradient gives the change of the value up to the
    second-order term. *)

Lemma dot_Poly2_4 (g p : Poly2.t) :
  dot_Poly2 4 g p == dot_Point2 g.[0] p.[0] + dot_Point2 g.[1] p.[1]
                     + dot_Point2 g.[2] p.[2] + dot_Point2 g.[3] p.[3].
Proof. unfold dot_Poly2, sumZ, for_loop. simpl. ring. Qed.

Lemma dot_Poly2_quad (g : Poly2.t) (v0 v1 v2 v3 : Point2.t) (n : Z) :
  dot_Poly2 4 g (Poly2.mk [v0; v1; v2; v3] n)
  == dot_Point2 g.[0] v0 + dot_Point2 g.[1] v1 + dot_Point2 g.[2] v2 + dot_Point2 g.[3] v3.
Proof. apply dot_Poly2_4. Qed.

(** X22. [poly2_from_aabox2_grad] is the transpose of [poly2_from_aabox2]:
    for a gradient polygon of four vertices and every box [b], the inner
    product of the accumulated box gradient with [b] is the inner product
    of the incoming gradient with the polygon of [b], added to what the
    accumulator held.  With another number of vertices the assertion of the
    function fails. *)
Theorem poly2_from_aabox2_grad_adjoint (a b g0 : AABox2.t) (grad : Poly2.t) :
  (Poly2.nvertices grad = 4%Z ->
   exists ga, poly2_from_aabox2_grad a grad (@this AABox2.t) g0 = Ret ga /\
              dot_AABox2 ga b == dot_AABox2 g0 b + dot_Poly2 4 grad (poly2_from_aabox2 b)) /\
  (Poly2.nvertices grad <> 4%Z -> poly2_from_aabox2_grad a grad (@this AABox2.t) g0 = Abort).
Proof.
  unfold poly2_from_aabox2_grad. split; intros H.
  - rewrite H. simpl. eexists. split; [reflexivity |].
    unfold poly2_from_aabox2. cbv zeta. rewrite dot_Poly2_quad.
    unfold poly2_from_aabox2_grad_body, seq2, incr, this, dot_AABox2, dot_Point2,
      AABox2_min_x, AABox2_max_x, AABox2_min_y, AABox2_max_y.
    cbn. ring.
  - destruct (Z.eqb_spec (Poly2.nvertices grad) 4); [contradiction | reflexivity].
Qed.

Lemma poly2_from_aabox2_grad_adjoint_witness :
  Poly2.nvertices square2 = 4%Z /\
  exists ga,
    poly2_from_aabox2_grad (AABox2.mk 0 1 0 1) square2 (@this AABox2.t) AABox2.zero = Ret ga /\
    dot_AABox2 ga (AABox2.mk 1 3 (-2) 5)
    == dot_AABox2 AABox2.zero (AABox2.mk 1 3 (-2) 5)
       + dot_Poly2 4 square2 (poly2_from_aabox2 (AABox2.mk 1 3 (-2) 5)).
Proof.
  assert (H : Poly2.nvertices square2 = 4%Z) by reflexivity.
  split; [exact H |].
  exact (proj1 (poly2_from_aabox2_grad_adjoint (AABox2.mk 0 1 0 1) (AABox2.mk 1 3 (-2) 5)
                  AABox2.zero square2) H).
Defined.

(** X23. [poly2_from_xywhr_grad] with a gradient polygon of four vertices:
    the gradients of [x], [y], [w], [h] are the transpose of
    [poly2_from_xywhr] at the rotation [r] (the polygon is linear in these
    four parameters), and the gradient of [r] is the inner product of the
    incoming gradient with the polygon in which [sin] is replaced by [cos]
    and [cos] by [- sin], that is with the derivative of the polygon in
    [r]. *)
Theorem poly2_from_xywhr_grad_adjoint (sin cos : Q -> Q) (x y w h r : Q) (grad : Poly2.t) :
  Poly2.nvertices grad = 4%Z ->
  exists gx gy gw gh gr,
    poly2_from_xywhr_grad sin cos x y w h r grad q1of5 q2of5 q3of5 q4of5 q5of5 (0, 0, 0, 0, 0)
    = Ret (gx, gy, gw, gh, gr) /\
    (forall x' y' w' h',
        dot_Poly2 4 grad (poly2_from_xywhr sin cos x' y' w' h' r)
        == gx * x' + gy * y' + gw * w' + gh * h') /\
    gr == dot_Poly2 4 grad (poly2_from_xywhr cos (fun u => - sin u) 0 0 w h r).
Proof.
  intros H. unfold poly2_from_xywhr_grad. rewrite H. simpl.
  eexists _, _, _, _, _. split; [reflexivity |]. split.
  - intros x' y' w' h'. unfold poly2_from_xywhr. cbv zeta. rewrite dot_Poly2_quad.
    unfold dot_Point2, this. cbn. unfold this. field.
  - unfold poly2_from_xywhr. cbv zeta. rewrite dot_Poly2_quad.
    unfold dot_Point2, this. cbn. unfold this. field.
Qed.

Lemma poly2_from_xywhr_grad_adjoint_witness :
  Poly2.nvertices square2 = 4%Z /\
  exists gx gy gw gh gr,
    poly2_from_xywhr_grad (fun _ => 3 # 5) (fun _ => 4 # 5) 1 1 2 2 0 square2
      q1of5 q2of5 q3of5 q4of5 q5of5 (0, 0, 0, 0, 0)
    = Ret (gx, gy, gw, gh, gr) /\
    dot_Poly2 4 square2 (poly2_from_xywhr (fun _ => 3 # 5) (fun _ => 4 # 5) 5 6 7 8 0)
    == gx * 5 + gy * 6 + gw * 7 + gh * 8.
Proof.
  assert (H : Poly2.nvertices square2 = 4%Z) by reflexivity.
  split; [exact H |].
  destruct (@poly2_from_xywhr_grad_adjoint (fun _ => 3 # 5) (fun _ => 4 # 5) 1 1 2 2 0 square2 H)
    as (gx & gy & gw & gh & gr & Hr & Hlin & _).
  exists gx, gy, gw, gh, gr. split; [exact Hr | apply Hlin].
Defined.

(** X24. [line2_from_xyxy_grad] is the gradient of [line2_from_xyxy]: the
    change of the inner product of the incoming gradient with the line,
    when the two points move, is the inner product of the accumulated
    gradients with the displacement, plus the second-order term of the
    coefficient [c = x2 * y1 - x1 * y2]. *)
Theorem line2_from_xyxy_grad_adjoint (x1 y1 x2 y2 : Q) (grad : Line2.t) (x1' y1' x2' y2' : Q) :
  exists gx1 gy1 gx2 gy2,
    line2_from_xyxy_grad x1 y1 x2 y2 grad q1of4 q2of4 q3of4 q4of4 (0, 0, 0, 0)
    = (gx1, gy1, gx2, gy2) /\
    dot_Line2 grad (line2_from_xyxy x1' y1' x2' y2') - dot_Line2 grad (line2_from_xyxy x1 y1 x2 y2)
    == gx1 * (x1' - x1) + gy1 * (y1' - y1) + gx2 * (x2' - x2) + gy2 * (y2' - y2)
       + Line2.c grad * ((x2' - x2) * (y1' - y1) - (x1' - x1) * (y2' - y2)).
Proof.
  eexists _, _, _, _. split; [reflexivity |].
  unfold dot_Line2, line2_from_xyxy, this. cbn. unfold this. ring.
Qed.

(** X25. [area_grad(AABox2)] is the gradient of [area(AABox2)]: the change
    of the area from a box [a] to a box [b], times the incoming gradient, is
    the inner product of the accumulated gradient with the change of the
    box, plus the second-order term (the product of the changes of width
    and height). *)
Theorem area_grad_aabox_adjoint (a b : AABox2.t) (grad : Q) :
  let g := area_grad_aabox a grad (@this AABox2.t) AABox2.zero in
  let dw := (AABox2.max_x b - AABox2.min_x b) - (AABox2.max_x a - AABox2.min_x a) in
  let dh := (AABox2.max_y b - AABox2.min_y b) - (AABox2.max_y a - AABox2.min_y a) in
  grad * (area_aabox b - area_aabox a)
  == dot_AABox2 g b - dot_AABox2 g a + grad * (dw * dh).
Proof.
  cbn. unfold dot_AABox2, area_aabox, this. cbn. unfold this. ring.
Qed.

Section BoxShift.

Variable hypot : Q -> Q -> Q.













End BoxShift.


(** *** Polygon accumulators *)

Lemma dot_vertex_upd (n i : Z) (g d : Poly2.t) (f : Point2.t -> Point2.t) :
  (0 <= i < n)%Z -> (n <= Poly2.capacity g)%Z ->
  dot_Poly2 n (vertex (@this Poly2.t) i f g) d
  == dot_Poly2 n g d + (dot_Point2 (f g.[i]) d.[i] - dot_Point2 g.[i] d.[i]).
Proof.
  intros Hi Hn. unfold dot_Poly2.
  rewrite (@sumZ_ext 0 n _
             (fun j => dot_Point2 g.[j] d.[j]
                       + (if (j =? i)%Z
                          then dot_Point2 (f g.[j]) d.[j] - dot_Point2 g.[j] d.[j] else 0))).
  - rewrite sumZ_plus by lia.
    rewrite (@sumZ_select 0 n i (fun j => dot_Point2 (f g.[j]) d.[j] - dot_Point2 g.[j] d.[j]))
      by lia.
    destruct (Z.leb_spec 0 i), (Z.ltb_spec i n); try lia. reflexivity.
  - lia.
  - intros j Hj. rewrite get_vertex_upd by lia.
    destruct (Z.eqb_spec i j), (Z.eqb_spec j i), (Z.ltb_spec j (Poly2.capacity g));
      try lia; simpl; ring.
Qed.


Lemma dot_empty (n : Z) (cap : nat) (m : Z) (d : Poly2.t) :
  (0 <= n)%Z -> dot_Poly2 n (Poly2.mk (repeat Point2.zero cap) m) d == 0.
Proof.
  intros Hn. unfold dot_Poly2. rewrite (@sumZ_ext 0 n _ (fun _ => 0)); [| lia |].
  - rewrite sumZ_const by lia. ring.
  - intros i Hi. unfold Poly2.get, dot_Point2. simpl.
    rewrite nth_repeat_zero. simpl. ring.
Qed.

Section DotCells.

Variables (n i : Z) (d : Poly2.t) (e : Q).
Hypothesis Hi : (0 <= i < n)%Z.

Lemma dot_incr_x (g : Poly2.t) :
  (n <= Poly2.capacity g)%Z ->
  dot_Poly2 n (incr (Point2_x (vertex (@this Poly2.t) i)) e g) d
  == dot_Poly2 n g d + e * Point2.x d.[i].
Proof.
  intros Hn. unfold incr, Point2_x. rewrite dot_vertex_upd by assumption.
  unfold dot_Point2; simpl. ring.
Qed.

Lemma dot_decr_x (g : Poly2.t) :
  (n <= Poly2.capacity g)%Z ->
  dot_Poly2 n (decr (Point2_x (vertex (@this Poly2.t) i)) e g) d
  == dot_Poly2 n g d - e * Point2.x d.[i].
Proof.
  intros Hn. unfold decr, Point2_x. rewrite dot_vertex_upd by assumption.
  unfold dot_Point2; simpl. ring.
Qed.

Lemma dot_incr_y (g : Poly2.t) :
  (n <= Poly2.capacity g)%Z ->
  dot_Poly2 n (incr (Point2_y (vertex (@this Poly2.t) i)) e g) d
  == dot_Poly2 n g d + e * Point2.y d.[i].
Proof.
  intros Hn. unfold incr, Point2_y. rewrite dot_vertex_upd by assumption.
  unfold dot_Point2; simpl. ring.
Qed.

Lemma dot_decr_y (g : Poly2.t) :
  (n <= Poly2.capacity g)%Z ->
  dot_Poly2 n (decr (Point2_y (vertex (@this Poly2.t) i)) e g) d
  == dot_Poly2 n g d - e * Point2.y d.[i].
Proof.
  intros Hn. unfold decr, Point2_y. rewrite dot_vertex_upd by assumption.
  unfold dot_Point2; simpl. ring.
Qed.

End DotCells.

Lemma capacity_cell (g : Poly2.t) (i : Z) (e : Q) :
  Poly2.capacity (incr (Point2_x (vertex (@this Poly2.t) i)) e g) = Poly2.capacity g /\
  Poly2.capacity (decr (Point2_x (vertex (@this Poly2.t) i)) e g) = Poly2.capacity g /\
  Poly2.capacity (incr (Point2_y (vertex (@this Poly2.t) i)) e g) = Poly2.capacity g /\
  Poly2.capacity (decr (Point2_y (vertex (@this Poly2.t) i)) e g) = Poly2.capacity g.
Proof.
  unfold incr, decr, Point2_x, Point2_y. rewrite !capacity_vertex_upd. repeat split.
Qed.

Lemma dot_area_grad_step (p d g : Poly2.t) (h : Q) (n i : Z) :
  (1 <= i < n)%Z -> (n <= Poly2.capacity g)%Z ->
  Poly2.capacity (area_grad_step p h i g) = Poly2.capacity g /\
  dot_Poly2 n (area_grad_step p h i g) d == dot_Poly2 n g d + h * mixed p d (i - 1) i.
Proof.
  intros Hi Hn. unfold area_grad_step, seq2.
  set (g1 := decr (Point2_x (vertex (@this Poly2.t) i)) (h * Point2.y p.[i - 1]) g).
  set (g2 := incr (Point2_y (vertex (@this Poly2.t) i)) (h * Point2.x p.[i - 1]) g1).
  set (g3 := incr (Point2_x (vertex (@this Poly2.t) (i - 1))) (h * Point2.y p.[i]) g2).
  assert (C1 : Poly2.capacity g1 = Poly2.capacity g) by apply capacity_cell.
  assert (C2 : Poly2.capacity g2 = Poly2.capacity g)
    by (unfold g2; rewrite <- C1; apply capacity_cell).
  assert (C3 : Poly2.capacity g3 = Poly2.capacity g)
    by (unfold g3; rewrite <- C2; apply capacity_cell).
  split.
  - rewrite <- C3. apply capacity_cell.
  - rewrite dot_decr_y by lia. unfold g3. rewrite dot_incr_x by lia.
    unfold g2. rewrite dot_incr_y by lia. unfold g1. rewrite dot_decr_x by lia.
    unfold mixed, wedge. ring.
Qed.

Lemma dot_area_grad_loop (p d g : Poly2.t) (h : Q) (n : Z) :
  (1 <= n <= Poly2.capacity g)%Z ->
  dot_Poly2 n (for_loop 1 n (area_grad_step p h) g) d
  == dot_Poly2 n g d + h * sumZ 1 n (fun i => mixed p d (i - 1) i).
Proof.
  intros Hn.
  assert (G : Poly2.capacity (for_loop 1 n (area_grad_step p h) g) = Poly2.capacity g /\
              dot_Poly2 n (for_loop 1 n (area_grad_step p h) g) d
              == dot_Poly2 n g d + h * sumZ 1 n (fun i => mixed p d (i - 1) i)).
  { apply (@for_loop_invariant Poly2.t
             (fun k st => Poly2.capacity st = Poly2.capacity g /\
                          dot_Poly2 n st d
                          == dot_Poly2 n g d + h * sumZ 1 k (fun i => mixed p d (i - 1) i)));
      [lia | |].
    - rewrite sumZ_empty by lia. split; [reflexivity | ring].
    - intros k st Hk [Hc Hd].
      destruct (@dot_area_grad_step p d st h n k) as [Hc' Hd']; [lia | lia |].
      split; [congruence |].
      rewrite Hd', Hd, sumZ_last by lia. ring. }
  apply G.
Qed.

(** The shoelace sum of [p + d]. *)
Lemma edge_sum_add (p q d : Poly2.t) :
  let n := Poly2.nvertices p in
  (1 <= n)%Z -> Poly2.nvertices q = n -> Poly2.nvertices d = n ->
  (forall i, (0 <= i < n)%Z -> Point2.eq q.[i] (Point2.add p.[i] d.[i])) ->
  edge_sum q wedge
  == edge_sum p wedge + edge_sum d wedge
     + (mixed p d (n - 1) 0 + sumZ 1 n (fun i => mixed p d (i - 1) i)).
Proof.
  intros n Hn Hq Hd Hsum. unfold edge_sum. rewrite Hq, Hd. fold n.
  assert (W : forall i j, (0 <= i < n)%Z -> (0 <= j < n)%Z ->
              wedge q.[i] q.[j] == wedge p.[i] p.[j] + wedge d.[i] d.[j] + mixed p d i j).
  { intros i j Hi Hj. destruct (Hsum i Hi) as [Xi Yi]. destruct (Hsum j Hj) as [Xj Yj].
    cbn [Point2.add Point2.x Point2.y] in Xi, Yi, Xj, Yj.
    unfold mixed, wedge. rewrite Xi, Yi, Xj, Yj. ring. }
  rewrite W by lia.
  rewrite (@sumZ_ext 1 n (fun i => wedge q.[i - 1] q.[i])
             (fun i => (wedge p.[i - 1] p.[i] + wedge d.[i - 1] d.[i]) + mixed p d (i - 1) i))
    by (try lia; intros; apply W; lia).
  rewrite !sumZ_plus by lia. ring.
Qed.

(** X27. [area_grad] is the gradient of [area]: for a polygon [p] of
    [n >= 3] vertices, a displacement [d] of its vertices and the displaced
    polygon [q = p + d], the inner product of the gradient accumulated from
    zero with [d] is the incoming gradient times
    [area q - area p - area d]; the area being quadratic in the vertices,
    [area d] is the second-order term. *)
Theorem area_grad_adjoint (p q d : Poly2.t) (g : Q) (cap : nat) :
  let n := Poly2.nvertices p in
  (3 <= n <= Z.of_nat cap)%Z -> Poly2.nvertices q = n -> Poly2.nvertices d = n ->
  (forall i, (0 <= i < n)%Z -> Point2.eq q.[i] (Point2.add p.[i] d.[i])) ->
  dot_Poly2 n (area_grad p g (@this Poly2.t) (Poly2.empty cap)) d
  == g * (area q - area p - area d).
Proof.
  intros n Hn Hq Hd Hsum.
  rewrite !area_edge_sum by lia.
  rewrite (@edge_sum_add p q d) by (try assumption; fold n; lia). fold n.
  unfold area_grad. fold n.
  destruct (Z.leb_spec n 2) as [Hle | _]; [lia |]. cbv zeta.
  set (h := g / 2).
  match goal with
  | |- context [seq2 ?A (for_loop 1 n ?b) ?s] =>
      change (seq2 A (for_loop 1 n b) s) with (for_loop 1 n (area_grad_step p h) (A s));
      set (g1 := A s)
  end.
  assert (H1 : Poly2.capacity g1 = Z.of_nat cap /\
               dot_Poly2 n g1 d == h * mixed p d (n - 1) 0).
  { subst g1. unfold seq2, assign_nvertices.
    set (s0 := this (fun g0 => Poly2.mk (Poly2.vertices g0) n) (Poly2.empty cap)).
    assert (D0 : dot_Poly2 n s0 d == 0) by (apply dot_empty; lia).
    assert (C0 : Poly2.capacity s0 = Z.of_nat cap) by apply capacity_empty.
    set (s1 := decr (Point2_x (vertex (@this Poly2.t) 0)) (h * Point2.y p.[n - 1]) s0).
    set (s2 := incr (Point2_y (vertex (@this Poly2.t) 0)) (h * Point2.x p.[n - 1]) s1).
    set (s3 := incr (Point2_x (vertex (@this Poly2.t) (n - 1))) (h * Point2.y p.[0]) s2).
    assert (C1 : Poly2.capacity s1 = Z.of_nat cap) by (rewrite <- C0; apply capacity_cell).
    assert (C2 : Poly2.capacity s2 = Z.of_nat cap)
      by (unfold s2; rewrite <- C1; apply capacity_cell).
    assert (C3 : Poly2.capacity s3 = Z.of_nat cap)
      by (unfold s3; rewrite <- C2; apply capacity_cell).
    split.
    - rewrite <- C3. apply capacity_cell.
    - rewrite dot_decr_y by lia. unfold s3. rewrite dot_incr_x by lia.
      unfold s2. rewrite dot_incr_y by lia. unfold s1. rewrite dot_decr_x by lia.
      rewrite D0. unfold mixed, wedge. ring. }
  destruct H1 as [Hc1 Hd1].
  rewrite dot_area_grad_loop by lia. rewrite Hd1. unfold h. field.
Qed.

Lemma area_grad_adjoint_witness :
  let q := poly_of_list 3 [pt 7 (-5); pt 2 0; pt (-5) (-1)] in
  (3 <= Poly2.nvertices triangle_a <= 3)%Z /\
  (forall i, (0 <= i < 3)%Z -> Point2.eq q.[i] (Point2.add triangle_a.[i] triangle_c.[i])) /\
  dot_Poly2 3 (area_grad triangle_a 2 (@this Poly2.t) (Poly2.empty 3)) triangle_c
  == 2 * (area q - area triangle_a - area triangle_c).
Proof.
  intros q.
  assert (Hn : (3 <= Poly2.nvertices triangle_a <= Z.of_nat 3)%Z)
    by (vm_compute; split; discriminate).
  assert (Hs : forall i, (0 <= i < Poly2.nvertices triangle_a)%Z ->
                         Point2.eq q.[i] (Point2.add triangle_a.[i] triangle_c.[i])).
  { intros i Hi. change (Poly2.nvertices triangle_a) with 3%Z in Hi.
    assert (E : i = 0%Z \/ i = 1%Z \/ i = 2%Z) by lia.
    destruct E as [-> | [-> | ->]]; vm_compute; split; reflexivity. }
  split; [exact Hn | split; [exact Hs |]].
  exact (@area_grad_adjoint triangle_a q triangle_c 2 3 Hn eq_refl eq_refl Hs).
Defined.



(** X29. [merge_grad] is the transpose of [_construct_merged_hull]: when
    every flag in use names a vertex in use of its polygon and the hull
    fits its capacity, the inner products of the two accumulated gradients
    (from zero) with any two polygons [q1], [q2] add up to the inner product
    of the incoming gradient with the hull rebuilt from [q1], [q2] and the
    flags. *)
Theorem merge_grad_adjoint (p1 p2 q1 q2 grad : Poly2.t) (mflags : list Z) (c1 c2 : nat) :
  let n1 := Poly2.nvertices p1 in
  let n2 := Poly2.nvertices p2 in
  let nm := Poly2.nvertices grad in
  (0 <= n1 <= Z.of_nat c1)%Z -> (0 <= n2 <= Z.of_nat c2)%Z ->
  (0 <= nm <= Z.of_nat (length (Poly2.vertices q1) + length (Poly2.vertices q2)))%Z ->
  (forall i, (0 <= i < nm)%Z ->
     (0 <= flag_index (flag_at mflags i)
      < if from_p1 (flag_at mflags i) then n1 else n2)%Z) ->
  let s := merge_grad p1 p2 grad mflags (@out1 _ _) (@out2 _ _)
             (Poly2.empty c1, Poly2.empty c2) in
  dot_Poly2 n1 (fst s) q1 + dot_Poly2 n2 (snd s) q2
  == dot_Poly2 nm grad (_construct_merged_hull q1 q2 mflags nm).
Proof.
  intros n1 n2 nm H1 H2 Hm Hfl s.
  assert (R : dot_Poly2 nm grad (_construct_merged_hull q1 q2 mflags nm)
              == sumZ 0 nm (fun i => dot_Point2 grad.[i] (flagged_vertex q1 q2 (flag_at mflags i)))).
  { unfold dot_Poly2. apply sumZ_ext; [lia |]. intros i Hi.
    rewrite _construct_merged_hull_get by lia. reflexivity. }
  rewrite R. clear R.
  subst s. unfold merge_grad. fold n1 n2 nm. unfold seq2 at 1 2.
  set (s0 := assign_nvertices (@out2 _ _) n2 (assign_nvertices (@out1 _ _) n1 _)).
  set (body := fun i : Z => if from_p1 (flag_at mflags i) then _ else _).
  assert (G : let s := for_loop 0 nm body s0 in
              (Poly2.capacity (fst s) = Z.of_nat c1 /\ Poly2.capacity (snd s) = Z.of_nat c2) /\
              dot_Poly2 n1 (fst s) q1 + dot_Poly2 n2 (snd s) q2
              == sumZ 0 nm (fun i => dot_Point2 grad.[i]
                                       (flagged_vertex q1 q2 (flag_at mflags i)))).
  { cbv zeta.
    apply (@for_loop_invariant (Poly2.t * Poly2.t)
             (fun k s =>
                (Poly2.capacity (fst s) = Z.of_nat c1 /\ Poly2.capacity (snd s) = Z.of_nat c2) /\
                dot_Poly2 n1 (fst s) q1 + dot_Poly2 n2 (snd s) q2
                == sumZ 0 k (fun i => dot_Point2 grad.[i]
                                        (flagged_vertex q1 q2 (flag_at mflags i)))));
      [lia | |].
    - rewrite sumZ_empty by lia.
      change s0 with (Poly2.mk (repeat Point2.zero c1) n1, Poly2.mk (repeat Point2.zero c2) n2).
      cbn [fst snd]. split.
      + split; apply capacity_empty.
      + rewrite !dot_empty by lia. ring.
    - intros k [g1 g2] Hk [[Hc1 Hc2] Hd]. simpl in Hc1, Hc2, Hd.
      specialize (Hfl k Hk). unfold body, flagged_vertex.
      rewrite sumZ_last by lia. rewrite <- Hd.
      destruct (from_p1 (flag_at mflags k)).
      + change (incr_point (vertex (@out1 Poly2.t Poly2.t) (flag_index (flag_at mflags k)))
                  grad.[k] (g1, g2))
          with (vertex (@this Poly2.t) (flag_index (flag_at mflags k))
                  (fun v => Point2.add v grad.[k]) g1, g2).
        cbn [fst snd]. rewrite capacity_vertex_upd. split; [split; assumption |].
        rewrite dot_vertex_upd by lia. unfold dot_Point2, Point2.add. simpl. ring.
      + change (incr_point (vertex (@out2 Poly2.t Poly2.t) (flag_index (flag_at mflags k)))
                  grad.[k] (g1, g2))
          with (g1, vertex (@this Poly2.t) (flag_index (flag_at mflags k))
                      (fun v => Point2.add v grad.[k]) g2).
        cbn [fst snd]. rewrite capacity_vertex_upd. split; [split; assumption |].
        rewrite dot_vertex_upd by lia. unfold dot_Point2, Point2.add. simpl. ring. }
  apply G.
Qed.

Lemma merge_grad_adjoint_witness :
  let grad := poly_of_list 2 [pt 1 0; pt 0 1] in
  let mflags := [1; 2]%Z in
  (forall i, (0 <= i < 2)%Z ->
     (0 <= flag_index (flag_at mflags i) < if from_p1 (flag_at mflags i) then 3 else 3)%Z) /\
  let s := merge_grad triangle_a triangle_b grad mflags (@out1 _ _) (@out2 _ _)
             (Poly2.empty 3, Poly2.empty 3) in
  dot_Poly2 3 (fst s) triangle_a + dot_Poly2 3 (snd s) triangle_b
  == dot_Poly2 2 grad (_construct_merged_hull triangle_a triangle_b mflags 2).
Proof.
  intros grad mflags.
  assert (Hf : forall i, (0 <= i < Poly2.nvertices grad)%Z ->
                 (0 <= flag_index (flag_at mflags i)
                  < if from_p1 (flag_at mflags i)
                    then Poly2.nvertices triangle_a else Poly2.nvertices triangle_b)%Z).
  { intros i Hi. change (Poly2.nvertices grad) with 2%Z in Hi.
    assert (E : i = 0%Z \/ i = 1%Z) by lia.
    destruct E as [-> | ->]; vm_compute; (split; [discriminate | reflexivity]). }
  split; [exact Hf |].
  exact (@merge_grad_adjoint triangle_a triangle_b triangle_a triangle_b grad mflags 3 3
           ltac:(vm_compute; split; discriminate) ltac:(vm_compute; split; discriminate)
           ltac:(vm_compute; split; discriminate) Hf).
Defined.

(** X30. For two lines that [intersects] accepts (with [eps >= 0]), the
    gradient that [intersect_grad] accumulates (from zero) for each line is
    a multiple of [(x, y, 1)], [(x, y)] being the intersection point: the
    point depends on a line only through the value of its equation there.
    Hence the gradient of a line is orthogonal to the coefficients of the
    line: scaling the coefficients does not move the point. *)
Theorem intersect_grad_ll_along_point {num : Numeric} (l1 l2 : Line2.t) (grad : Point2.t) :
  0 <= eps -> Line2_intersects l1 l2 = true ->
  let s := intersect_grad_ll l1 l2 grad (@out1 _ _) (@out2 _ _) (Line2.zero, Line2.zero) in
  let pt := intersect_ll l1 l2 in
  (Line2.a (fst s) == Line2.c (fst s) * Point2.x pt /\
   Line2.b (fst s) == Line2.c (fst s) * Point2.y pt) /\
  (Line2.a (snd s) == Line2.c (snd s) * Point2.x pt /\
   Line2.b (snd s) == Line2.c (snd s) * Point2.y pt) /\
  dot_Line2 (fst s) l1 == 0 /\ dot_Line2 (snd s) l2 == 0.
Proof.
  intros He Hi. unfold Line2_intersects, Qgtb in Hi. apply Qltb_lt in Hi.
  assert (Hw : ~ Line2.a l1 * Line2.b l2 - Line2.a l2 * Line2.b l1 == 0).
  { intro H0. rewrite H0 in Hi. simpl in Hi. lra. }
  cbv zeta.
  unfold intersect_grad_ll, intersect_ll, dot_Line2, seq2, incr, Line2_a, Line2_b, Line2_c,
    out1, out2, in_fst, in_snd, this.
  cbn [fst snd Line2.a Line2.b Line2.c Line2.zero Point2.x Point2.y].
  repeat split; field; exact Hw.
Qed.

Lemma intersect_grad_ll_along_point_witness :
  let l1 := line2_from_pp (pt 0 0) (pt 2 2) in
  let l2 := line2_from_pp (pt 0 2) (pt 2 0) in
  let s := intersect_grad_ll l1 l2 (pt 1 3) (@out1 _ _) (@out2 _ _) (Line2.zero, Line2.zero) in
  0 <= @eps Numeric_double /\ @Line2_intersects Numeric_double l1 l2 = true /\
  dot_Line2 (fst s) l1 == 0 /\ dot_Line2 (snd s) l2 == 0.
Proof.
  intros l1 l2 s.
  assert (He : 0 <= @eps Numeric_double) by (vm_compute; discriminate).
  assert (Hi : @Line2_intersects Numeric_double l1 l2 = true) by (vm_compute; reflexivity).
  split; [exact He | split; [exact Hi |]].
  exact (proj2 (proj2 (@intersect_grad_ll_along_point Numeric_double l1 l2 (pt 1 3) He Hi))).
Defined.
